(** * FileAgeSweeper: a shallow embedding of [remove_old_files.py]

    The program walks a directory, resolves one timestamp per file and
    deletes the files that are older than a threshold.  The embedding has
    four layers, each following the Python it stands for:

    - [Str]         the [str] methods the program calls;
    - [posixpath]   the lexical path functions of [os.path] on a POSIX host
                    ([os.sep = "/"]);
    - [os], [genericpath]  a file system as a tree of directory entries, with
                    the calls the program makes on it;
    - the functions of the source, under their own names:
      [git_last_commit_timestamp], [get_timestamp], [iter_files] with its
      inner [is_hidden], and [remove_old_files].

    Modelling decisions, all of them about the environment and none about the
    program text:

    - Timestamps are Python floats, IEEE 754 binary64.  A float is taken
      here as the rational it denotes ([Q]); [float] holds the rounding to
      nearest, ties to even, that [float(n)] and the subtraction apply, and
      the [OverflowError] of [float(n)].  Comparisons of floats are
      comparisons of rationals.  The clock and the times of the files are
      values of the environment: finite floats.
    - A directory entry is a regular file, a directory, a symbolic link whose
      target is missing, or a symbolic link that loops.  Links that resolve
      are not modelled, so a path is resolved from its lexical components,
      as [posixpath.abspath] computes them; a component that is followed by
      [..] is therefore not looked up.
    - [os.stat] fails with [FileNotFoundError], [NotADirectoryError] or, on a
      looping link, a plain [OSError]; [os.remove] fails in the same ways
      and with [IsADirectoryError] and [PermissionError] (a file with the
      immutable attribute).  Access rights of directories are not modelled.
    - [iter_files] is a generator; its calls to [os.path.isfile] and the
      directory scans of [os.walk] are interleaved with the deletions of the
      driver.  Unlinking one non-directory entry changes neither the listing
      of a directory that is scanned later nor the kind of another entry, so
      the generator is modelled by the list of paths it yields on the
      initial file system; [consumed] is the part of that list the driver
      pulls before it stops.
    - [subprocess.run] is a function of the argument vector: it raises or
      returns an exit status and the captured standard output.
    - [print] appends a structured line to an output log.  The dates of the
      "Check" line are kept as the floats they render; what is modelled of
      [time.strftime(fmt, time.localtime(t))] is the exception it raises on
      a time the platform cannot represent, a function of the environment.
    - [int()] refuses a literal with more digits than
      [sys.get_int_max_str_digits()], a value of the environment. *)

From Stdlib Require Import Bool List String Ascii ZArith QArith Lia Lqa.
From Stdlib Require Import Qround Qabs Qpower.
Import ListNotations.
Local Open Scope string_scope.
Local Open Scope list_scope.

(** ** Python [str] methods *)

Module Str.

(** [s.startswith(prefix)] *)
Definition startswith (prefix s : string) : bool := String.prefix prefix s.

(** [s.endswith(c)] for a one-character suffix. *)
Fixpoint endswith (c : ascii) (s : string) : bool :=
  match s with
  | EmptyString => false
  | String a EmptyString => Ascii.eqb a c
  | String _ s' => endswith c s'
  end.

(** [s.split(c)] for a one-character separator: never the empty list. *)
Fixpoint split (c : ascii) (s : string) : list string :=
  match s with
  | EmptyString => [""]
  | String a s' =>
      if Ascii.eqb a c then "" :: split c s'
      else match split c s' with
           | h :: t => String a h :: t
           | [] => [String a ""]
           end
  end.

(** [c.join(l)] *)
Fixpoint join (c : ascii) (l : list string) : string :=
  match l with
  | [] => ""
  | [x] => x
  | x :: rest => (x ++ String c (join c rest))%string
  end.

(** [ch.isspace()] on code points below 256. *)
Definition isspace (a : ascii) : bool :=
  let n := nat_of_ascii a in
  ((9 <=? n) && (n <=? 13) || (28 <=? n) && (n <=? 32)
   || (n =? 133) || (n =? 160))%nat.

Fixpoint lstrip (s : string) : string :=
  match s with
  | EmptyString => ""
  | String a s' => if isspace a then lstrip s' else s
  end.

Fixpoint rstrip (s : string) : string :=
  match s with
  | EmptyString => ""
  | String a s' =>
      match rstrip s' with
      | EmptyString => if isspace a then "" else String a ""
      | r => String a r
      end
  end.

(** [s.strip()] *)
Definition strip (s : string) : string := rstrip (lstrip s).

Definition digit (a : ascii) : option Z :=
  let n := nat_of_ascii a in
  if ((48 <=? n) && (n <=? 57))%nat then Some (Z.of_nat (n - 48)) else None.

(** The digits of a decimal literal, most significant first; a single
    underscore may separate two digits.  [prev] tells whether the
    character before was a digit. *)
Fixpoint digits (acc : Z) (prev : bool) (s : string) : option Z :=
  match s with
  | EmptyString => if prev then Some acc else None
  | String a s' =>
      if Ascii.eqb a "_" then (if prev then digits acc false s' else None)
      else match digit a with
           | Some d => digits (10 * acc + d) true s'
           | None => None
           end
  end.

Fixpoint count_digits (s : string) : Z :=
  match s with
  | EmptyString => 0
  | String a s' =>
      (match digit a with Some _ => 1 | None => 0 end + count_digits s')%Z
  end.

(** [int(s)] on a [str]: [None] stands for [ValueError].
    [max_str_digits] is [sys.get_int_max_str_digits()]: when it is
    positive, a literal with more digits is refused. *)
Definition int (max_str_digits : Z) (s : string) : option Z :=
  if ((0 <? max_str_digits) && (max_str_digits <? count_digits s))%Z
  then None
  else
    match strip s with
    | String "-" r => option_map Z.opp (digits 0 false r)
    | String "+" r => digits 0 false r
    | r => digits 0 false r
    end.

End Str.

(** ** [os.path] on POSIX: the lexical functions of [posixpath.py] *)

Module posixpath.

Definition sep : ascii := "/".
Definition curdir : string := ".".
Definition pardir : string := "..".

Definition isabs (s : string) : bool := Str.startswith "/" s.

(** [join(a, b)]: an absolute [b] replaces [a]; otherwise [b] is appended,
    after a separator unless [a] is empty or already ends with one. *)
Definition join (a b : string) : string :=
  if Str.startswith "/" b then b
  else if (a =? "") || Str.endswith sep a then (a ++ b)%string
  else (a ++ String sep b)%string.

Definition is_nil {A} (l : list A) : bool :=
  match l with [] => true | _ => false end.

(** One iteration of the loop of [normpath] over the components. *)
Definition norm_step (initial_slashes : nat) (new_comps : list string)
    (comp : string) : list string :=
  if (comp =? "") || (comp =? ".") then new_comps
  else if negb (comp =? "..")
          || ((initial_slashes =? 0)%nat && is_nil new_comps)
          || (negb (is_nil new_comps) && (last new_comps "" =? ".."))
  then new_comps ++ [comp]
  else if negb (is_nil new_comps) then removelast new_comps
  else new_comps.

Definition initial_slashes (path : string) : nat :=
  if Str.startswith "/" path then
    if Str.startswith "//" path && negb (Str.startswith "///" path)
    then 2 else 1
  else 0.

Definition slashes (n : nat) : string :=
  String.concat "" (repeat "/" n).

Definition normpath (path : string) : string :=
  if path =? "" then curdir
  else
    let n := initial_slashes path in
    let new_comps := fold_left (norm_step n) (Str.split sep path) [] in
    let path := (slashes n ++ Str.join sep new_comps)%string in
    if path =? "" then curdir else path.

(** [abspath(path)], with the value of [os.getcwd()] as a parameter. *)
Definition abspath (cwd path : string) : string :=
  normpath (if isabs path then path else join cwd path).

(** [commonprefix] of two lists: their longest common prefix. *)
Fixpoint commonprefix (a b : list string) : list string :=
  match a, b with
  | x :: a', y :: b' => if x =? y then x :: commonprefix a' b' else []
  | _, _ => []
  end.

Definition nonempty (s : string) : bool := negb (s =? "").

(** The components of [abspath(path)]:
    [[x for x in abspath(path).split(sep) if x]]. *)
Definition parts (cwd path : string) : list string :=
  filter nonempty (Str.split sep (abspath cwd path)).

(** [relpath(path, start)].  ([relpath] raises [ValueError] on an empty
    [path]; the program only passes [join(directory, name)] for a
    directory entry [name], which is never empty.) *)
Definition relpath (cwd path start : string) : string :=
  let start_list := parts cwd start in
  let path_list := parts cwd path in
  let i := List.length (commonprefix start_list path_list) in
  let rel_list :=
    repeat pardir (List.length start_list - i) ++ skipn i path_list in
  if is_nil rel_list then curdir else Str.join sep rel_list.

End posixpath.

(** ** The file system and the process environment *)

(** The exceptions the program can meet.  The first four are the subclasses
    of [OSError] that Python derives from [errno]; [OSError_ELOOP] (too many
    levels of symbolic links) and [OSError_EOVERFLOW] (value too large for
    the defined data type) are plain [OSError]s; [OverflowError] is the
    arithmetic one. *)
Inductive exn : Type :=
| FileNotFoundError
| NotADirectoryError
| IsADirectoryError
| PermissionError
| OSError_ELOOP
| OSError_EOVERFLOW
| OverflowError.

Definition is_FileNotFoundError (e : exn) : bool :=
  match e with FileNotFoundError => true | _ => false end.

Definition Qltb (x y : Q) : bool := negb (Qle_bool y x).

(** ** Python [float]: IEEE 754 binary64 *)

Module float.

Definition pow2 (e : Z) : Q := 2 ^ e.

(** The integer nearest to [q], the even one of two that are as near. *)
Definition rne (q : Q) : Z :=
  let f := Qfloor q in
  match Qcompare (q - inject_Z f) (1 # 2) with
  | Lt => f
  | Gt => (f + 1)%Z
  | Eq => if Z.even f then f else (f + 1)%Z
  end.

(** [floor(log2 x)] for [0 < x]. *)
Definition ilog2 (x : Q) : Z :=
  let k := (Z.log2 (Qnum x) - Z.log2 (Zpos (Qden x)))%Z in
  if Qle_bool (pow2 k) x then k else (k - 1)%Z.

(** The exponent of the last of the 53 bits of the significand of [x];
    below [2^-1022] the numbers are subnormal and the exponent stays at
    [-1074]. *)
Definition ulp_exp (x : Q) : Z := (Z.max (ilog2 x) (-1022) - 52)%Z.

Definition round_pos (x : Q) : Q :=
  let e := ulp_exp x in
  inject_Z (rne (x / pow2 e)) * pow2 e.

(** The binary64 number nearest to [x], ties to even.  A result of
    magnitude [2^1024] stands for an infinity. *)
Definition round (x : Q) : Q :=
  Qred match Qnum x with
       | Z0 => 0
       | Zpos _ => round_pos x
       | Zneg _ => - round_pos (- x)
       end.

Definition finite (x : Q) : bool := Qltb (Qabs x) (pow2 1024).

(** [float(n)] for an [int]; also the conversion of the [int] operand of
    an arithmetic operation with a [float]. *)
Definition of_int (n : Z) : exn + Q :=
  let x := round (inject_Z n) in
  if finite x then inr x else inl OverflowError.

(** [x - y] on two floats. *)
Definition sub (x y : Q) : Q := round (x - y).

End float.

Record times : Type := { mtime : Q; atime : Q; ctime : Q }.

(** A directory entry.  [immutable] is the file attribute that makes
    [unlink] fail with [EPERM]. *)
#[warnings="-register-all"]
Inductive node : Type :=
| File (t : times) (immutable : bool)
| DanglingLink
| LoopLink
| Dir (t : times) (entries : list (string * node)).

Definition is_dir (n : node) : bool :=
  match n with Dir _ _ => true | _ => false end.

(** What [subprocess.run(..., check=False, capture_output=True, text=True)]
    does: raise, or return a [CompletedProcess]. *)
Inductive run_result : Type :=
| Raised
| Completed (returncode : Z) (stdout : string).

Record World : Type := {
  cwd : string;                                  (* os.getcwd() *)
  root : node;                                   (* the directory "/" *)
  clock : Q;                                     (* time.time() *)
  subprocess_run : list string -> run_result;    (* subprocess.run(args) *)
  (* the exception of time.strftime(fmt, time.localtime(t)), if it raises *)
  strftime_localtime : Q -> option exn;
  int_max_str_digits : Z                 (* sys.get_int_max_str_digits() *)
}.

Definition set_root (w : World) (r : node) : World :=
  {| cwd := cwd w; root := r; clock := clock w;
     subprocess_run := subprocess_run w;
     strftime_localtime := strftime_localtime w;
     int_max_str_digits := int_max_str_digits w |}.

Module os.

Inductive file_type : Type := S_IFREG | S_IFDIR.

Record stat_result : Type := {
  st_mode : file_type; st_mtime : Q; st_atime : Q; st_ctime : Q }.

Fixpoint lookup (name : string) (es : list (string * node)) : option node :=
  match es with
  | [] => None
  | (k, n) :: es' => if k =? name then Some n else lookup name es'
  end.

Fixpoint remove_entry (name : string) (es : list (string * node))
  : list (string * node) :=
  match es with
  | [] => []
  | (k, n) :: es' =>
      if k =? name then remove_entry name es' else (k, n) :: remove_entry name es'
  end.

Fixpoint replace_entry (name : string) (c : node) (es : list (string * node))
  : list (string * node) :=
  match es with
  | [] => []
  | (k, n) :: es' =>
      if k =? name then (k, c) :: es' else (k, n) :: replace_entry name c es'
  end.

(** Path resolution from a node along the components [loc]. *)
Fixpoint locate (loc : list string) (n : node) : exn + node :=
  match loc with
  | [] => inr n
  | name :: rest =>
      match n with
      | Dir _ es =>
          match lookup name es with
          | Some c => locate rest c
          | None => inl FileNotFoundError
          end
      | File _ _ => inl NotADirectoryError
      | DanglingLink => inl FileNotFoundError
      | LoopLink => inl OSError_ELOOP
      end
  end.

(** [unlink(2)] along the components [loc]. *)
Fixpoint unlink (loc : list string) (n : node) : exn + node :=
  match loc with
  | [] => inl IsADirectoryError
  | name :: rest =>
      match n with
      | Dir t es =>
          match lookup name es with
          | None => inl FileNotFoundError
          | Some c =>
              match rest with
              | [] =>
                  match c with
                  | Dir _ _ => inl IsADirectoryError
                  | File _ true => inl PermissionError
                  | _ => inr (Dir t (remove_entry name es))
                  end
              | _ :: _ =>
                  match unlink rest c with
                  | inl e => inl e
                  | inr c' => inr (Dir t (replace_entry name c' es))
                  end
              end
          end
      | File _ _ => inl NotADirectoryError
      | DanglingLink => inl FileNotFoundError
      | LoopLink => inl OSError_ELOOP
      end
  end.

(** The components of a path, from "/". *)
Definition resolve (w : World) (path : string) : list string :=
  posixpath.parts (cwd w) path.

Definition lookup_path (w : World) (path : string) : exn + node :=
  if path =? "" then inl FileNotFoundError
  else locate (resolve w path) (root w).

(** [os.stat(path)] *)
Definition stat (w : World) (path : string) : exn + stat_result :=
  match lookup_path w path with
  | inl e => inl e
  | inr (File t _) =>
      inr {| st_mode := S_IFREG; st_mtime := mtime t;
             st_atime := atime t; st_ctime := ctime t |}
  | inr (Dir t _) =>
      inr {| st_mode := S_IFDIR; st_mtime := mtime t;
             st_atime := atime t; st_ctime := ctime t |}
  | inr DanglingLink => inl FileNotFoundError
  | inr LoopLink => inl OSError_ELOOP
  end.

(** [os.listdir(path)] *)
Definition listdir (w : World) (path : string) : exn + list string :=
  match lookup_path w path with
  | inl e => inl e
  | inr (Dir _ es) => inr (map fst es)
  | inr (File _ _) => inl NotADirectoryError
  | inr DanglingLink => inl FileNotFoundError
  | inr LoopLink => inl OSError_ELOOP
  end.

(** [os.remove(path)]: the world after the call, or the exception. *)
Definition remove (w : World) (path : string) : exn + World :=
  if path =? "" then inl FileNotFoundError
  else match unlink (resolve w path) (root w) with
       | inl e => inl e
       | inr r => inr (set_root w r)
       end.

Definition names_where (f : node -> bool) (es : list (string * node))
  : list string :=
  map fst (filter (fun e => f (snd e)) es).

(** [os.walk(top)], top-down, errors ignored, links not followed.  Each
    directory yields [(top, dirs, nondirs)]; the consumer may then shrink
    [dirs] in place, and the walk descends into what is left.  [prune] is
    that update of [dirs] by the consumer. *)
Fixpoint walk_from (prune : list string -> list string) (top : string)
    (n : node) {struct n} : list (string * list string * list string) :=
  match n with
  | Dir _ es =>
      let dirs := names_where is_dir es in
      let nondirs := names_where (fun c => negb (is_dir c)) es in
      (top, dirs, nondirs) ::
      (fix descend (l : list (string * node)) :=
         match l with
         | [] => []
         | (name, c) :: l' =>
             (if is_dir c && existsb (String.eqb name) (prune dirs)
              then walk_from prune (posixpath.join top name) c
              else [])
             ++ descend l'
         end) es
  | _ => []
  end.

Definition walk (w : World) (prune : list string -> list string)
    (top : string) : list (string * list string * list string) :=
  match lookup_path w top with
  | inr n => walk_from prune top n
  | inl _ => []
  end.

End os.

(** [os.path.isfile], [exists], [getmtime], ... : [genericpath.py] *)
Module genericpath.

Definition isfile (w : World) (path : string) : bool :=
  match os.stat w path with
  | inr st => match os.st_mode st with os.S_IFREG => true | _ => false end
  | inl _ => false
  end.

Definition exists_ (w : World) (path : string) : bool :=
  match os.stat w path with inr _ => true | inl _ => false end.

Definition getmtime (w : World) (path : string) : exn + Q :=
  match os.stat w path with inl e => inl e | inr st => inr (os.st_mtime st) end.

Definition getatime (w : World) (path : string) : exn + Q :=
  match os.stat w path with inl e => inl e | inr st => inr (os.st_atime st) end.

Definition getctime (w : World) (path : string) : exn + Q :=
  match os.stat w path with inl e => inl e | inr st => inr (os.st_ctime st) end.

End genericpath.

(** ** The program *)

(** [git_last_commit_timestamp(path)] *)
Definition git_last_commit_timestamp (w : World) (path : string) : option Z :=
  match subprocess_run w ["git"; "log"; "-1"; "--format=%ct"; "--"; path] with
  | Completed returncode stdout =>
      if negb (returncode =? 0)%Z then None
      else
        let value := Str.strip stdout in
        if value =? "" then None
        else match Str.int (int_max_str_digits w) value with
             | Some n => Some n
             | None => None            (* ValueError, caught below *)
             end
  | Raised => None                     (* except Exception *)
  end.

(** [get_timestamp(path, source)].  [source] is a [str]: the annotation
    [AgeSource] is not checked when the function runs. *)
Definition get_timestamp (w : World) (path : string) (source : string)
  : exn + Q :=
  if source =? "mtime" then genericpath.getmtime w path
  else if source =? "atime" then genericpath.getatime w path
  else if source =? "ctime" then genericpath.getctime w path
  else if source =? "git" then
    match git_last_commit_timestamp w path with
    | Some ts => float.of_int ts        (* float(ts), outside the try *)
    | None => genericpath.getmtime w path
    end
  else genericpath.getmtime w path.

(** The inner function [is_hidden(p)] of [iter_files]. *)
Definition is_hidden (w : World) (directory : string) (p : string) : bool :=
  existsb (Str.startswith ".")
    (Str.split posixpath.sep (posixpath.relpath (cwd w) p directory)).

(** [iter_files(directory, recursive, include_hidden)]: the paths the
    generator yields, or the exception of its first step. *)
Definition iter_files (w : World) (directory : string)
    (recursive include_hidden : bool) : exn + list string :=
  if negb recursive then
    match os.listdir w directory with
    | inl e => inl e
    | inr names =>
        inr (flat_map
               (fun name =>
                  let p := posixpath.join directory name in
                  if genericpath.isfile w p then
                    if negb include_hidden && is_hidden w directory p then []
                    else [p]
                  else [])
               names)
    end
  else
    let prune dirs :=
      if negb include_hidden
      then filter (fun d => negb (Str.startswith "." d)) dirs
      else dirs in
    inr (flat_map
           (fun '(root, dirs, files) =>
              flat_map
                (fun name =>
                   let p := posixpath.join root name in
                   if negb include_hidden && is_hidden w directory p then []
                   else [p])
                files)
           (os.walk w prune directory)).

(** What [print] writes. *)
Inductive line : Type :=
| Skip_excluded (file_path : string)
| Missing_skipped (file_path : string)
| Check_line (file_path : string) (file_ts cutoff : Q) (age_source : string)
| Would_remove (file_path : string)
| Removed_line (file_path : string)
| Could_not_remove (file_path : string) (e : exn)
| Done_line (considered removed : Z) (dry_run : bool) (skipped_excluded : Z)
    (age_source : string) (days : Z) (recursive : bool).

(** The variables of [remove_old_files] that change in its loop, the file
    system and the output. *)
Record state : Type := {
  world : World;
  removed : Z;
  considered : Z;
  skipped_excluded : Z;
  out : list line
}.

Definition print (l : line) (s : state) : state :=
  {| world := world s; removed := removed s; considered := considered s;
     skipped_excluded := skipped_excluded s; out := out s ++ [l] |}.

Definition incr_considered (s : state) : state :=
  {| world := world s; removed := removed s; considered := considered s + 1;
     skipped_excluded := skipped_excluded s; out := out s |}.

Definition incr_skipped_excluded (s : state) : state :=
  {| world := world s; removed := removed s; considered := considered s;
     skipped_excluded := skipped_excluded s + 1; out := out s |}.

Definition incr_removed (s : state) : state :=
  {| world := world s; removed := removed s + 1; considered := considered s;
     skipped_excluded := skipped_excluded s; out := out s |}.

Definition set_world (w : World) (s : state) : state :=
  {| world := w; removed := removed s; considered := considered s;
     skipped_excluded := skipped_excluded s; out := out s |}.

(** The two dates of the "Check" line,
    [time.strftime(fmt, time.localtime(file_ts))] and the same of [cutoff],
    in the order the f-string evaluates them: the exception of the first
    that raises. *)
Definition dates_error (w : World) (file_ts cutoff : Q) : option exn :=
  match strftime_localtime w file_ts with
  | Some e => Some e
  | None => strftime_localtime w cutoff
  end.

(** [x in excluded] for the [set] of normalised paths. *)
Definition mem (x : string) (s : list string) : bool :=
  existsb (String.eqb x) s.

Section Sweep.

Variables (cutoff : Q) (excluded : list string).
Variables (dry_run verbose : bool) (age_source : string).

(** The body of the [for] loop of [remove_old_files]: the state after the
    iteration, and the exception if one leaves the loop. *)
Definition loop_body (s : state) (file_path : string) : state * option exn :=
  let s := incr_considered s in
  if mem (posixpath.normpath file_path) excluded then
    let s := incr_skipped_excluded s in
    let s := if verbose then print (Skip_excluded file_path) s else s in
    (s, None)
  else
    match get_timestamp (world s) file_path age_source with
    | inl e =>
        if is_FileNotFoundError e then
          ((if verbose then print (Missing_skipped file_path) s else s), None)
        else (s, Some e)
    | inr file_ts =>
        match (if verbose then dates_error (world s) file_ts cutoff
               else None) with
        | Some e => (s, Some e)       (* the "Check" line is outside a try *)
        | None =>
            let s :=
              if verbose
              then print (Check_line file_path file_ts cutoff age_source) s
              else s in
            if Qltb file_ts cutoff then
              if dry_run then
                (incr_removed (print (Would_remove file_path) s), None)
              else
                match os.remove (world s) file_path with
                | inr w' =>
                    (incr_removed
                       (print (Removed_line file_path) (set_world w' s)),
                     None)
                | inl e => (print (Could_not_remove file_path e) s, None)
                end
            else (s, None)
        end
    end.

(** The [for] loop over the paths the generator yields. *)
Fixpoint loop (s : state) (files : list string) : state * option exn :=
  match files with
  | [] => (s, None)
  | file_path :: rest =>
      match loop_body s file_path with
      | (s', None) => loop s' rest
      | (s', Some e) => (s', Some e)
      end
  end.

(** The paths the loop pulls from the generator: all of them, or those up
    to the one whose iteration raises. *)
Fixpoint consumed (s : state) (files : list string) : list string :=
  match files with
  | [] => []
  | file_path :: rest =>
      match loop_body s file_path with
      | (s', None) => file_path :: consumed s' rest
      | (_, Some _) => [file_path]
      end
  end.

End Sweep.

(** [now = time.time(); cutoff = now - days * 86400]: the product is an
    [int], converted to a [float] for the subtraction. *)
Definition cutoff_of (w : World) (days : Z) : exn + Q :=
  let now := clock w in
  match float.of_int (days * 86400) with
  | inl e => inl e
  | inr seconds => inr (float.sub now seconds)
  end.

Definition excluded_of (directory : string) (exclude_filenames : list string)
  : list string :=
  map (fun f => posixpath.normpath (posixpath.join directory f))
      exclude_filenames.

Definition initial (w : World) : state :=
  {| world := w; removed := 0; considered := 0; skipped_excluded := 0;
     out := [] |}.

(** [remove_old_files(directory, exclude_filenames, days, dry_run=...,
    verbose=..., recursive=..., include_hidden=..., age_source=...)]: the
    final state, and the exception if the call raises. *)
Definition remove_old_files (w : World) (directory : string)
    (exclude_filenames : list string) (days : Z)
    (dry_run verbose recursive include_hidden : bool) (age_source : string)
  : state * option exn :=
  match cutoff_of w days with
  | inl e => (initial w, Some e)
  | inr cutoff =>
      let excluded := excluded_of directory exclude_filenames in
      match iter_files w directory recursive include_hidden with
      | inl e => (initial w, Some e)
      | inr files =>
          match loop cutoff excluded dry_run verbose age_source (initial w)
                  files with
          | (s, None) =>
              (print (Done_line (considered s) (removed s) dry_run
                        (skipped_excluded s) age_source days recursive) s,
               None)
          | (s, Some e) => (s, Some e)
          end
      end
  end.
(** ** Well-formed names and trees *)

Fixpoint has_sep (s : string) : bool :=
  match s with
  | EmptyString => false
  | String a s' => Ascii.eqb a posixpath.sep || has_sep s'
  end.

(** What a directory can hold as an entry name: not empty, not [.] or [..],
    without a separator. *)
Definition valid_name (s : string) : bool :=
  negb (s =? "") && negb (s =? ".") && negb (s =? "..") && negb (has_sep s).

Fixpoint nodupb (l : list string) : bool :=
  match l with
  | [] => true
  | x :: l' => negb (mem x l') && nodupb l'
  end.

(** A tree is well formed when, in every directory, the entry names are
    valid and pairwise distinct. *)
Fixpoint wf (n : node) : bool :=
  match n with
  | Dir _ es =>
      forallb valid_name (map fst es) && nodupb (map fst es)
      && (fix all (l : list (string * node)) : bool :=
            match l with
            | [] => true
            | (_, c) :: l' => wf c && all l'
            end) es
  | _ => true
  end.

(** A world is well formed when its tree is and its working directory is an
    absolute path. *)
Definition wf_world (w : World) : bool :=
  wf (root w) && posixpath.isabs (cwd w).

(** [join] iterated along a list of entry names. *)
Definition join_all (top : string) (rel : list string) : string :=
  fold_left posixpath.join rel top.

(** The separator [posixpath.join] puts after [a]. *)
Definition glue (a : string) : string :=
  if (a =? "") || Str.endswith posixpath.sep a then "" else "/".

(** The argument [posixpath.abspath] hands to [normpath]. *)
Definition anchored (cwd path : string) : string :=
  if posixpath.isabs path then path else posixpath.join cwd path.

(** A component that [posixpath.normpath] keeps: not empty, without
    separator. *)
Definition kept (s : string) : Prop := s <> "" /\ has_sep s = false.

(** Two locations neither of which lies on the way to the other. *)
Definition incomparable (a b : list string) : Prop :=
  (forall r, b <> a ++ r) /\ (forall r, a <> b ++ r).

(** A path that names an entry of the world which is not a directory. *)
Definition leaf (w : World) (p : string) : Prop :=
  p <> "" /\
  exists c, os.locate (os.resolve w p) (root w) = inr c /\ is_dir c = false.

(** [p] is the path [iter_files] builds for the entry reached from
    [directory] along the names [rel], and that entry is not a directory. *)
Definition below (w : World) (directory p : string) (rel : list string) : Prop :=
  rel <> [] /\
  Forall (fun s => valid_name s = true) rel /\
  p = join_all directory rel /\
  os.resolve w p = os.resolve w directory ++ rel /\
  leaf w p.

Definition no_dot (s : string) : Prop := Str.startswith "." s = false.

(** Two worlds that differ at most in their tree. *)
Definition same_env (w1 w2 : World) : Prop :=
  cwd w1 = cwd w2 /\ clock w1 = clock w2
  /\ subprocess_run w1 = subprocess_run w2
  /\ strftime_localtime w1 = strftime_localtime w2
  /\ int_max_str_digits w1 = int_max_str_digits w2.

(** The entries [unlink] accepts. *)
Definition removable (c : node) : bool :=
  match c with
  | File _ immutable => negb immutable
  | DanglingLink | LoopLink => true
  | Dir _ _ => false
  end.

(** The "Check" line of a candidate with timestamp [ts] does not raise:
    it is not printed, or both of its dates can be formatted. *)
Definition check_passes (w : World) (verbose : bool) (ts cutoff : Q) : Prop :=
  (if verbose then dates_error w ts cutoff else None) = None.

(** In world [w] the loop body deletes [p]: the sweep is not a dry run, [p]
    is not excluded, its timestamp resolves to a value before the cutoff,
    the "Check" line does not raise and [os.remove] succeeds. *)
Definition doomed (w : World) (cutoff : Q) (excluded : list string)
    (dry_run verbose : bool) (age_source : string) (p : string) : Prop :=
  dry_run = false
  /\ mem (posixpath.normpath p) excluded = false
  /\ exists ts w',
       get_timestamp w p age_source = inr ts
       /\ Qltb ts cutoff = true
       /\ os.remove w p = inr w'
       /\ check_passes w verbose ts cutoff.

(** The invariant of the loop of [remove_old_files], between the initial
    world [w0] and the current world [w], once the paths [done] have been
    processed: the environment is the same; every entry of [w0] that is not
    a directory is either as it was, or gone because a processed path that
    resolves to it was [doomed]; and every processed [doomed] path is gone. *)
Definition sweep_inv (w0 : World) (cutoff : Q) (excluded : list string)
    (dry_run verbose : bool) (age_source : string) (done : list string)
    (w : World) : Prop :=
  same_env w0 w
  /\ (forall p, In p done -> leaf w0 p)
  /\ (forall p, leaf w0 p ->
        os.lookup_path w p = os.lookup_path w0 p
        \/ (os.lookup_path w p = inl FileNotFoundError
            /\ exists q, In q done /\ os.resolve w0 q = os.resolve w0 p
                         /\ doomed w0 cutoff excluded dry_run verbose
                              age_source q))
  /\ (forall q, In q done ->
        doomed w0 cutoff excluded dry_run verbose age_source q ->
        os.lookup_path w q = inl FileNotFoundError).

(** The paths of the "Would remove" lines of an output. *)
Definition would_remove (o : list line) : list string :=
  flat_map (fun l => match l with Would_remove p => [p] | _ => [] end) o.

(** In world [w] the path is not excluded and its timestamp resolves to a
    value before the cutoff. *)
Definition old_enough (w : World) (cutoff : Q) (excluded : list string)
    (age_source : string) (p : string) : bool :=
  negb (mem (posixpath.normpath p) excluded)
  && match get_timestamp w p age_source with
     | inr ts => Qltb ts cutoff
     | inl _ => false
     end.

(** The bounds on the counters of the loop. *)
Definition counters_ok (s : state) : Prop :=
  (0 <= removed s)%Z /\ (0 <= skipped_excluded s)%Z
  /\ (removed s + skipped_excluded s <= considered s)%Z.

(** ** Example worlds *)

Definition day : Z := 86400.
Definition today : Z := 20000 * day.

(** Timestamps of an entry last touched [d] days before [today]. *)
Definition aged (d : Z) : times :=
  let t := inject_Z (today - d * day) in
  {| mtime := t; atime := t; ctime := t |}.

Definition newline : string := String (ascii_of_nat 10) "".

(** [time.strftime(fmt, time.localtime(t))] on a 64-bit Linux host in UTC:
    [localtime] takes the floor of [t] as a [time_t], answers what does not
    fit 64 bits with [OverflowError], and a year that does not fit a C [int]
    with an [OSError] (EOVERFLOW). *)
Definition linux_strftime_localtime (t : Q) : option exn :=
  let seconds := Qfloor t in
  if ((- 2 ^ 63 >? seconds) || (2 ^ 63 <=? seconds))%Z
  then Some OverflowError
  else if ((-67768040609740800 >? seconds)
           || (67768036191676799 <? seconds))%Z
  then Some OSError_EOVERFLOW
  else None.

(** An environment with the given tree, clock and [git]. *)
Definition host (tree : node) (now : Q) (git : list string -> run_result)
  : World :=
  {| cwd := "/srv"; root := tree; clock := now; subprocess_run := git;
     strftime_localtime := linux_strftime_localtime;
     int_max_str_digits := 4300 |}.

(** A [git] that knows one tracked file and exits with status 128 on every
    other path. *)
Definition demo_git (args : list string) : run_result :=
  match args with
  | ["git"; "log"; "-1"; "--format=%ct"; "--"; path] =>
      if path =? "data/b.txt" then Completed 0 ("1700000000" ++ newline)%string
      else Completed 128 ""
  | _ => Raised
  end.

Definition demo_sub : node :=
  Dir (aged 1)
    [(".hidden", Dir (aged 1) [("old.txt", File (aged 90) false)]);
     ("old2.txt", File (aged 90) false);
     ("README.md", File (aged 90) false)].

Definition demo_data : node :=
  Dir (aged 1)
    [("a.txt", File (aged 40) false);
     ("b.txt", File (aged 5) false);
     ("c.txt", File (aged 29) false);
     ("remove_old_files.py", File (aged 90) false);
     ("README.md", File (aged 90) false);
     ("sub", demo_sub)].

Definition in_srv (data : node) : node :=
  Dir (aged 1) [("srv", Dir (aged 1) [("data", data)])].

Definition demo : World := host (in_srv demo_data) (inject_Z today) demo_git.

(** The same tree, read two days later. *)
Definition demo_later : World :=
  host (in_srv demo_data) (inject_Z (today + 2 * day)) demo_git.

(** A directory with an old file that carries the immutable attribute. *)
Definition locked : World :=
  host (in_srv (Dir (aged 1)
                  [("a.txt", File (aged 40) false);
                   ("keep.log", File (aged 90) true)]))
    (inject_Z today) demo_git.

(** A directory whose subdirectory holds a symbolic link that loops. *)
Definition looped : World :=
  host (in_srv (Dir (aged 1)
                  [("a.txt", File (aged 40) false);
                   ("sub", Dir (aged 1)
                             [("loop", LoopLink);
                              ("old2.txt", File (aged 90) false)])]))
    (inject_Z today) demo_git.

(** A directory with a symbolic link whose target is missing. *)
Definition dangling : World :=
  host (in_srv (Dir (aged 1)
                  [("gone", DanglingLink);
                   ("a.txt", File (aged 40) false)]))
    (inject_Z today) demo_git.

(** A [git] set up to show signatures: it exits with status 0 and prints a
    line about the signature before the commit time. *)
Definition signing_git (args : list string) : run_result :=
  Completed 0 ("gpg: Good signature" ++ newline ++ "1700000000" ++ newline).

Definition signing : World :=
  host (in_srv demo_data) (inject_Z today) signing_git.

Fixpoint zeros (n : nat) : string :=
  match n with
  | O => ""
  | S n' => String "0" (zeros n')
  end.

(** A [git] that prints the commit time [10 ^ 400]. *)
Definition far_git (args : list string) : run_result :=
  Completed 0 (String "1" (zeros 400) ++ newline).

Definition far : World := host (in_srv demo_data) (inject_Z today) far_git.

(** Evaluation of the definitions on the example worlds. *)
Ltac evaluate := vm_compute; reflexivity.
Ltac by_computation := vm_compute; repeat split; try reflexivity; discriminate.

(** ** The command line entry point *)

(** [posixpath.basename(p)]: what follows the last separator. *)
Fixpoint basename (p : string) : string :=
  match p with
  | EmptyString => ""
  | String a p' =>
      if has_sep p' then basename p'
      else if Ascii.eqb a posixpath.sep then p' else p
  end.

(** The [argparse.Namespace] that [parser.parse_args()] returns in [main]. *)
Module Namespace.

Record t : Type := {
directory : string;
days : Z;
dry_run : bool;
verbose : bool;
recursive : bool;
include_hidden : bool;
age_source : string;
exclude : list string
}.

End Namespace.

(** [main()] after [args = parser.parse_args()]; [file] is [__file__]. *)
Definition main (w : World) (file : string) (args : Namespace.t)
  : state * option exn :=
  let script_name := basename file in
  let defaults := [script_name; "README.md"] in
  let exclude_files := defaults ++ Namespace.exclude args in
  remove_old_files w (Namespace.directory args) exclude_files
    (Namespace.days args) (Namespace.dry_run args) (Namespace.verbose args)
    (Namespace.recursive args) (Namespace.include_hidden args)
    (Namespace.age_source args).

(** ** Notions used to state further properties *)

(** The lines that are printed whether or not [verbose] is set. *)
Definition always_printed (l : line) : bool :=
  match l with
  | Skip_excluded _ | Missing_skipped _ | Check_line _ _ _ _ => false
  | _ => true
  end.

(** The paths of the "Removed" lines of an output. *)
Definition removed_paths (o : list line) : list string :=
  flat_map (fun l => match l with Removed_line p => [p] | _ => [] end) o.

(** [w'] is [w] with some entries unlinked: same environment; whatever is
    found in [w'] was in [w], of the same kind and, unless it is a
    directory, unchanged; and every directory of [w] is still one in [w']. *)
Definition shrunk (w w' : World) : Prop :=
  same_env w w'
  /\ (forall loc c',
        os.locate loc (root w') = inr c' ->
        exists c, os.locate loc (root w) = inr c
                  /\ is_dir c = is_dir c'
                  /\ (is_dir c' = false -> c = c'))
  /\ (forall loc c,
        os.locate loc (root w) = inr c -> is_dir c = true ->
        exists c', os.locate loc (root w') = inr c' /\ is_dir c' = true).

(** Two states that differ only by the lines [verbose] adds. *)
Definition quieter (sv sq : state) : Prop :=
  world sq = world sv /\ removed sq = removed sv
  /\ considered sq = considered sv
  /\ skipped_excluded sq = skipped_excluded sv
  /\ out sq = filter always_printed (out sv).

Definition is_done (l : line) : bool :=
  match l with Done_line _ _ _ _ _ _ _ => true | _ => false end.

(** How many deletions, real or simulated, an output reports. *)
Definition reported (o : list line) : Z :=
  Z.of_nat (List.length (removed_paths o) + List.length (would_remove o)).


(** The entries of a directory that the flat enumeration keeps: regular
    files, without the hidden ones unless they are asked for. *)
Definition listed (include_hidden : bool) (e : string * node) : bool :=
  match snd e with
  | File _ _ => include_hidden || negb (Str.startswith "." (fst e))
  | _ => false
  end.

(** A line with the age source it names replaced by [source]. *)
Definition with_source (source : string) (l : line) : line :=
  match l with
  | Check_line p ts cutoff _ => Check_line p ts cutoff source
  | Done_line c r d e _ days rec => Done_line c r d e source days rec
  | _ => l
  end.

(** Two states that differ only by the age source their output names. *)
Definition relabelled (source : string) (s1 s2 : state) : Prop :=
  world s2 = world s1 /\ removed s2 = removed s1
  /\ considered s2 = considered s1
  /\ skipped_excluded s2 = skipped_excluded s1
  /\ out s2 = map (with_source source) (out s1).

(** The example tree on a machine without [git]: [subprocess.run] raises. *)
Definition no_git : World :=
  host (in_srv demo_data) (inject_Z today) (fun _ => Raised).

(** [os.path.lexists(path)]: some entry is found at [path], a broken
    symbolic link included. *)
Definition lexists (w : World) (path : string) : bool :=
  match os.lookup_path w path with inr _ => true | inl _ => false end.

(** The entry at [path] was there in [w] and is not there in [w']. *)
Definition vanished (w w' : World) (path : string) : bool :=
  lexists w path && negb (lexists w' path).

(** * Facts about [float] *)

Section FloatFacts.

Import float.

Lemma pow2_pos e : 0 < pow2 e.
Proof. apply Qpower_0_lt. reflexivity. Qed.


Lemma pow2_sub a b : pow2 (a - b) == pow2 a / pow2 b.
Proof. apply Qpower_minus. discriminate. Qed.

Lemma pow2_le a b : (a <= b)%Z -> pow2 a <= pow2 b.
Proof. intros H. apply Qpower_le_compat_l; [assumption | discriminate]. Qed.

Lemma pow2_lt a b : (a < b)%Z -> pow2 a < pow2 b.
Proof. intros H. apply Qpower_lt_compat_l; [assumption | reflexivity]. Qed.

Lemma pow2_Z e : (0 <= e)%Z -> pow2 e == inject_Z (2 ^ e).
Proof. intros H. unfold pow2. now rewrite Zpower_Qpower. Qed.

Lemma rne_floor q : (Qfloor q <= rne q <= Qfloor q + 1)%Z.
Proof.
  unfold rne. destruct (Qcompare (q - inject_Z (Qfloor q)) (1 # 2));
    [destruct (Z.even _)| |]; lia.
Qed.

Lemma rne_le q1 q2 : q1 <= q2 -> (rne q1 <= rne q2)%Z.
Proof.
  intros H. pose proof (Qfloor_resp_le _ _ H) as Hf.
  pose proof (rne_floor q1). pose proof (rne_floor q2).
  destruct (Z.eq_dec (Qfloor q1) (Qfloor q2)) as [E|E]; [|lia].
  unfold rne. rewrite E.
  assert (D : q1 - inject_Z (Qfloor q2) <= q2 - inject_Z (Qfloor q2)) by lra.
  destruct (Qcompare (q1 - inject_Z (Qfloor q2)) (1 # 2)) eqn:C1;
    destruct (Qcompare (q2 - inject_Z (Qfloor q2)) (1 # 2)) eqn:C2;
    try (destruct (Z.even (Qfloor q2))); try lia;
    repeat match goal with
           | C : Qcompare _ _ = Eq |- _ => apply Qeq_alt in C
           | C : Qcompare _ _ = Lt |- _ => apply Qlt_alt in C
           | C : Qcompare _ _ = Gt |- _ => apply Qgt_alt in C
           end; lra.
Qed.

Lemma rne_Z n : rne (inject_Z n) = n.
Proof.
  unfold rne. rewrite Qfloor_Z.
  assert (E : Qcompare (inject_Z n - inject_Z n) (1 # 2) = Lt).
  { rewrite <- Qlt_alt. lra. }
  now rewrite E.
Qed.

Lemma rne_comp q1 q2 : q1 == q2 -> rne q1 = rne q2.
Proof.
  intros E. apply Z.le_antisymm; apply rne_le; rewrite E; apply Qle_refl.
Qed.

Lemma Zdiv_lt (p r : Z) (q s : positive) :
  (p * Zpos s < r * Zpos q)%Z ->
  inject_Z p / inject_Z (Zpos q) < inject_Z r / inject_Z (Zpos s).
Proof. unfold Qlt, Qdiv, Qmult, Qinv, inject_Z. simpl. lia. Qed.

Lemma Zdiv_le (p r : Z) (q s : positive) :
  (p * Zpos s <= r * Zpos q)%Z ->
  inject_Z p / inject_Z (Zpos q) <= inject_Z r / inject_Z (Zpos s).
Proof. unfold Qle, Qdiv, Qmult, Qinv, inject_Z. simpl. lia. Qed.

Lemma pow2_Zpos e : (0 <= e)%Z -> exists p, (2 ^ e)%Z = Zpos p.
Proof.
  intros H. pose proof (Z.pow_pos_nonneg 2 e eq_refl H).
  destruct (2 ^ e)%Z as [|p|p]; try lia. now exists p.
Qed.

Lemma ilog2_spec x :
  0 < x -> pow2 (ilog2 x) <= x /\ x < pow2 (ilog2 x + 1).
Proof.
  intros Hx. destruct x as [n d]. unfold ilog2. cbn [Qnum Qden].
  assert (Hn : (0 < n)%Z) by (unfold Qlt in Hx; cbn in Hx; lia).
  set (a := Z.log2 n). set (b := Z.log2 (Z.pos d)).
  pose proof (Z.log2_spec n Hn) as [La Ua]. fold a in La, Ua.
  pose proof (Z.log2_spec (Z.pos d) eq_refl) as [Lb Ub]. fold b in Lb, Ub.
  pose proof (Z.log2_nonneg n) as Ha. fold a in Ha.
  pose proof (Z.log2_nonneg (Z.pos d)) as Hb. fold b in Hb.
  assert (X : n # d == inject_Z n / inject_Z (Z.pos d)) by apply Qmake_Qdiv.
  destruct (pow2_Zpos b Hb) as [pb Eb].
  destruct (pow2_Zpos (b + 1) ltac:(lia)) as [pb1 Eb1].
  assert (Up : n # d < pow2 (a - b + 1)).
  { replace (a - b + 1)%Z with ((a + 1) - b)%Z by lia.
    rewrite pow2_sub, X, !pow2_Z by lia. rewrite Eb.
    apply Zdiv_lt. rewrite <- Eb. unfold Z.succ in Ua. nia. }
  assert (Lo : pow2 (a - b - 1) < n # d).
  { replace (a - b - 1)%Z with (a - (b + 1))%Z by lia.
    rewrite pow2_sub, X, !pow2_Z by lia. rewrite Eb1.
    apply Zdiv_lt. rewrite <- Eb1. unfold Z.succ in Ub.
    pose proof (Z.pow_pos_nonneg 2 a eq_refl Ha). nia. }
  destruct (Qle_bool (pow2 (a - b)) (n # d)) eqn:C.
  - apply Qle_bool_iff in C. split; assumption.
  - replace (a - b - 1 + 1)%Z with (a - b)%Z by lia.
    split; [now apply Qlt_le_weak|].
    apply Qnot_le_lt. intros H. apply Qle_bool_iff in H. congruence.
Qed.









Lemma round_pos_exact x m :
  x / pow2 (ulp_exp x) == inject_Z m -> round_pos x == x.
Proof.
  intros H. unfold round_pos. rewrite (rne_comp _ _ H), rne_Z, <- H.
  field. pose proof (pow2_pos (ulp_exp x)). lra.
Qed.

Lemma ilog2_Z n k :
  (0 <= k)%Z -> (2 ^ k <= n < 2 ^ (k + 1))%Z -> ilog2 (inject_Z n) = k.
Proof.
  intros Hk [L U].
  assert (Hn : 0 < inject_Z n).
  { change 0 with (inject_Z 0). rewrite <- Zlt_Qlt.
    pose proof (Z.pow_pos_nonneg 2 k eq_refl Hk). lia. }
  destruct (ilog2_spec _ Hn) as [Lo Up].
  rewrite Zle_Qle, <- pow2_Z in L by assumption.
  rewrite Zlt_Qlt, <- pow2_Z in U by lia.
  destruct (Z_lt_le_dec (ilog2 (inject_Z n)) k) as [Lt|Ge].
  - pose proof (pow2_le (ilog2 (inject_Z n) + 1) k ltac:(lia)). lra.
  - destruct (Z_lt_le_dec k (ilog2 (inject_Z n))) as [Lt|Le]; [|lia].
    pose proof (pow2_le (k + 1) (ilog2 (inject_Z n)) ltac:(lia)). lra.
Qed.

(** An integer of at most 53 bits is a float. *)
Lemma round_pos_Z n :
  (0 < n <= 2 ^ 53)%Z -> round_pos (inject_Z n) == inject_Z n.
Proof.
  intros [Hn Hb].
  destruct (Z.eq_dec n (2 ^ 53)) as [->|Hne].
  { apply (round_pos_exact _ (2 ^ 52)).
    unfold ulp_exp. rewrite (ilog2_Z (2 ^ 53) 53) by (cbn; lia).
    vm_compute. reflexivity. }
  set (k := Z.log2 n).
  pose proof (Z.log2_spec n Hn) as [L U]. fold k in L, U.
  pose proof (Z.log2_nonneg n) as Hk. fold k in Hk.
  assert (Hk53 : (k < 53)%Z) by (apply Z.log2_lt_pow2; lia).
  apply (round_pos_exact _ (n * 2 ^ (52 - k))).
  unfold ulp_exp. rewrite (ilog2_Z n k) by (unfold Z.succ in U; lia).
  replace (Z.max k (-1022) - 52)%Z with (- (52 - k))%Z by lia.
  rewrite inject_Z_mult, <- pow2_Z by lia.
  unfold pow2. rewrite Qpower_opp. field.
  apply Qpower_not_0. discriminate.
Qed.

Lemma round_Z n :
  (Z.abs n <= 2 ^ 53)%Z -> round (inject_Z n) == inject_Z n.
Proof.
  intros H. unfold round. rewrite Qred_correct.
  destruct n as [|p|p]; cbn [inject_Z Qnum].
  - reflexivity.
  - apply (round_pos_Z (Z.pos p)). lia.
  - change (- (Z.neg p # 1)) with (inject_Z (Z.pos p)).
    rewrite (round_pos_Z (Z.pos p)) by lia. reflexivity.
Qed.

Lemma finite_comp x y : x == y -> finite x = finite y.
Proof.
  intros E. unfold finite, Qltb. f_equal.
  destruct (Qle_bool (pow2 1024) (Qabs x)) eqn:A;
    destruct (Qle_bool (pow2 1024) (Qabs y)) eqn:B; try reflexivity.
  - apply Qle_bool_iff in A. rewrite E in A. apply Qle_bool_iff in A.
    congruence.
  - apply Qle_bool_iff in B. rewrite <- E in B. apply Qle_bool_iff in B.
    congruence.
Qed.

(** [float(n)] is [n] itself up to [2^53]. *)
Lemma of_int_exact n :
  (Z.abs n <= 2 ^ 53)%Z ->
  exists x, of_int n = inr x /\ x == inject_Z n.
Proof.
  intros H. unfold of_int. pose proof (round_Z n H) as R.
  rewrite (finite_comp _ _ R).
  assert (F : finite (inject_Z n) = true).
  { unfold finite, Qltb. apply negb_true_iff.
    destruct (Qle_bool (pow2 1024) (Qabs (inject_Z n))) eqn:E;
      [|reflexivity].
    apply Qle_bool_iff in E. exfalso.
    rewrite pow2_Z in E by lia.
    assert (A : Qabs (inject_Z n) == inject_Z (Z.abs n)).
    { unfold Qabs, inject_Z. cbn. reflexivity. }
    rewrite A, <- Zle_Qle in E.
    assert ((2 ^ 53 < 2 ^ 1024)%Z) by (apply Z.pow_lt_mono_r; lia). lia. }
  rewrite F. eauto.
Qed.

(** [float(n)] raises nothing but [OverflowError]. *)
Lemma of_int_error n e : of_int n = inl e -> e = OverflowError.
Proof.
  unfold of_int. destruct (finite _); [discriminate|]. now intros [= <-].
Qed.




End FloatFacts.
(** * Facts about strings *)

Section StrFacts.

Local Open Scope string_scope.

Lemma append_assoc (a b c : string) : (a ++ b) ++ c = a ++ (b ++ c).
Proof. induction a as [|x a IH]; simpl; [reflexivity | now rewrite IH]. Qed.

Lemma append_nil_r (a : string) : a ++ "" = a.
Proof. induction a as [|x a IH]; simpl; [reflexivity | now rewrite IH]. Qed.

Lemma append_eq_nil (a b : string) : a ++ b = "" -> a = "" /\ b = "".
Proof. destruct a; simpl; [auto | discriminate]. Qed.

Lemma split_not_nil c s : Str.split c s <> [].
Proof.
  destruct s as [|a s]; simpl; [discriminate|].
  destruct (Ascii.eqb a c); [discriminate|].
  destruct (Str.split c s); discriminate.
Qed.

Lemma split_app_sep c a b :
  Str.split c (a ++ String c b) = (Str.split c a ++ Str.split c b)%list.
Proof.
  induction a as [|x a IH]; simpl.
  - now rewrite Ascii.eqb_refl.
  - destruct (Ascii.eqb x c); [now rewrite IH|].
    rewrite IH. destruct (Str.split c a) eqn:E; [|reflexivity].
    now apply split_not_nil in E.
Qed.

Lemma split_no_sep s : has_sep s = false -> Str.split posixpath.sep s = [s].
Proof.
  induction s as [|a s IH]; simpl; [reflexivity|].
  intros H. apply orb_false_iff in H as [Ha Hs].
  rewrite Ha, (IH Hs). reflexivity.
Qed.

Lemma has_sep_app a b : has_sep (a ++ b) = has_sep a || has_sep b.
Proof.
  induction a as [|x a IH]; simpl; [reflexivity|].
  now rewrite IH, orb_assoc.
Qed.

Lemma split_join (l : list string) :
  l <> [] -> Forall (fun s => has_sep s = false) l ->
  Str.split posixpath.sep (Str.join posixpath.sep l) = l.
Proof.
  induction l as [|x l IH]; [congruence|]. intros _ H.
  inversion H as [|? ? Hx Hl]; subst.
  destruct l as [|y l].
  - simpl. now apply split_no_sep.
  - change (Str.join posixpath.sep (x :: y :: l))
      with (x ++ String posixpath.sep (Str.join posixpath.sep (y :: l))).
    rewrite split_app_sep, (split_no_sep x Hx), IH; [reflexivity|discriminate|assumption].
Qed.

Lemma split_has_no_sep s :
  Forall (fun x => has_sep x = false) (Str.split posixpath.sep s).
Proof.
  induction s as [|a s IH]; simpl.
  - repeat constructor.
  - destruct (Ascii.eqb a posixpath.sep) eqn:E.
    + constructor; [reflexivity|assumption].
    + destruct (Str.split posixpath.sep s) as [|h t]; inversion IH; subst;
        constructor; simpl; try rewrite E; auto.
Qed.

Lemma endswith_inv c a :
  Str.endswith c a = true -> exists a', a = a' ++ String c "".
Proof.
  induction a as [|x a IH]; simpl; [discriminate|].
  destruct a as [|y a].
  - intros H. apply Ascii.eqb_eq in H. subst. now exists "".
  - intros H. destruct (IH H) as [a' Ha]. exists (String x a').
    simpl. now rewrite <- Ha.
Qed.

Lemma endswith_app c a b :
  b <> "" -> Str.endswith c (a ++ b) = Str.endswith c b.
Proof.
  intros Hb. induction a as [|x a IH]; simpl; [reflexivity|].
  destruct (a ++ b) eqn:E; [|assumption].
  apply append_eq_nil in E. tauto.
Qed.

Lemma startswith_char c s :
  Str.startswith (String c "") s
  = match s with String a _ => Ascii.eqb c a | EmptyString => false end.
Proof.
  destruct s as [|a s]; [reflexivity|].
  unfold Str.startswith. cbn [String.prefix].
  destruct (ascii_dec c a) as [->|n].
  - rewrite Ascii.eqb_refl. now destruct s.
  - symmetry. now apply Ascii.eqb_neq.
Qed.

Lemma startswith_app c a b :
  a <> "" ->
  Str.startswith (String c "") (a ++ b) = Str.startswith (String c "") a.
Proof.
  destruct a as [|x a]; [congruence|]. intros _.
  now rewrite !startswith_char.
Qed.

Lemma startswith_sep_has_sep s :
  Str.startswith "/" s = true -> has_sep s = true.
Proof.
  rewrite startswith_char. destruct s as [|a s]; [discriminate|].
  intros H. apply Ascii.eqb_eq in H. now subst.
Qed.

End StrFacts.

(** * Facts about [posixpath] *)

Section PathFacts.

Import posixpath.

Lemma valid_name_inv s :
  valid_name s = true ->
  s <> "" /\ s <> "." /\ s <> ".." /\ has_sep s = false.
Proof.
  unfold valid_name. rewrite !andb_true_iff, !negb_true_iff.
  intros [[[H1 H2] H3] H4]. rewrite !String.eqb_neq in *. auto.
Qed.

Lemma valid_name_not_abs s : valid_name s = true -> Str.startswith "/" s = false.
Proof.
  intros H. apply valid_name_inv in H as (_ & _ & _ & H).
  destruct (Str.startswith "/" s) eqn:E; [|reflexivity].
  apply startswith_sep_has_sep in E. congruence.
Qed.

Lemma join_rel a b :
  Str.startswith "/" b = false -> join a b = (a ++ (glue a ++ b))%string.
Proof.
  intros H. unfold join, glue. rewrite H.
  destruct ((a =? "") || Str.endswith sep a); reflexivity.
Qed.

Lemma join_not_nil a b : a <> "" -> join a b <> "".
Proof.
  intros Ha. unfold join.
  destruct (Str.startswith "/" b) eqn:E.
  - destruct b; [discriminate|discriminate].
  - destruct ((a =? "") || Str.endswith sep a); intros H;
      apply append_eq_nil in H; tauto.
Qed.

Lemma join_not_nil_r a b : b <> "" -> join a b <> "".
Proof.
  intros Hb. unfold join.
  destruct (Str.startswith "/" b); [assumption|].
  destruct ((a =? "") || Str.endswith sep a); intros H;
    apply append_eq_nil in H; destruct H as [_ H]; [tauto | discriminate].
Qed.

Lemma glue_app a b : b <> "" -> glue (a ++ b)%string = glue b.
Proof.
  intros Hb. unfold glue. rewrite (endswith_app _ _ _ Hb).
  assert (E : ((a ++ b)%string =? "") = false).
  { apply String.eqb_neq. intros H. apply append_eq_nil in H. tauto. }
  apply String.eqb_neq in Hb. now rewrite E, Hb.
Qed.

Lemma anchored_isabs cwd path :
  isabs cwd = true -> isabs (anchored cwd path) = true.
Proof.
  intros Hc. unfold anchored. destruct (isabs path) eqn:E; [assumption|].
  unfold isabs in *. rewrite (join_rel _ _ E).
  rewrite startswith_app; [assumption|]. now destruct cwd.
Qed.

Lemma anchored_join cwd d name :
  d <> "" -> valid_name name = true ->
  anchored cwd (join d name) = join (anchored cwd d) name
  /\ anchored cwd d <> "".
Proof.
  intros Hd Hn. pose proof (valid_name_not_abs _ Hn) as Hna.
  unfold anchored, isabs.
  rewrite (join_rel d name Hna), (startswith_app _ _ _ Hd).
  destruct (Str.startswith "/" d) eqn:E.
  - split; [|assumption]. now rewrite (join_rel d name Hna).
  - split; [|now apply join_not_nil_r].
    assert (Hs : Str.startswith "/" (d ++ (glue d ++ name))%string = false)
      by now rewrite (startswith_app _ _ _ Hd).
    rewrite (join_rel cwd _ Hs), (join_rel cwd d E), (join_rel _ name Hna).
    rewrite !append_assoc.
    rewrite (glue_app cwd (glue cwd ++ d)), (glue_app (glue cwd) d Hd);
      [reflexivity|].
    intros H. apply append_eq_nil in H. tauto.
Qed.

Lemma norm_step_valid n st name :
  valid_name name = true -> norm_step n st name = st ++ [name].
Proof.
  intros H. apply valid_name_inv in H as (H1 & H2 & H3 & _).
  unfold norm_step.
  apply String.eqb_neq in H1, H2, H3. now rewrite H1, H2, H3.
Qed.

Lemma fold_norm_valid n names : forall st,
  Forall (fun s => valid_name s = true) names ->
  fold_left (norm_step n) names st = st ++ names.
Proof.
  induction names as [|x names IH]; intros st H; simpl.
  - now rewrite app_nil_r.
  - inversion H; subst. rewrite norm_step_valid, IH by assumption.
    now rewrite <- app_assoc.
Qed.

Lemma norm_step_nonzero n st comp :
  n <> 0%nat -> norm_step n st comp = norm_step 1 st comp.
Proof. intros H. unfold norm_step. destruct n; [congruence|reflexivity]. Qed.

Lemma fold_norm_nonzero n comps : forall st,
  n <> 0%nat ->
  fold_left (norm_step n) comps st = fold_left (norm_step 1) comps st.
Proof.
  induction comps as [|c comps IH]; intros st H; simpl; [reflexivity|].
  now rewrite norm_step_nonzero, IH.
Qed.

Lemma Forall_removelast {A} (P : A -> Prop) (l : list A) :
  Forall P l -> Forall P (removelast l).
Proof.
  induction 1 as [|x l Hx Hl IH]; simpl; [constructor|].
  destruct l; [constructor | now constructor].
Qed.

Lemma norm_step_kept n st comp :
  Forall kept st -> has_sep comp = false -> Forall kept (norm_step n st comp).
Proof.
  intros Hst Hc. unfold norm_step.
  destruct (String.eqb_spec comp ""); simpl; [assumption|].
  destruct (comp =? "."); [assumption|].
  match goal with |- context [if ?b then _ else _] => destruct b end.
  - apply Forall_app. split; [assumption|]. now repeat constructor.
  - destruct (negb (is_nil st)); [now apply Forall_removelast|assumption].
Qed.

Lemma fold_norm_kept n comps : forall st,
  Forall kept st -> Forall (fun s => has_sep s = false) comps ->
  Forall kept (fold_left (norm_step n) comps st).
Proof.
  induction comps as [|c comps IH]; intros st Hst Hc; simpl; [assumption|].
  inversion Hc; subst. apply IH; [now apply norm_step_kept | assumption].
Qed.

Lemma filter_nonempty_kept l : Forall kept l -> filter nonempty l = l.
Proof.
  induction 1 as [|x l [Hx _] Hl IH]; simpl; [reflexivity|].
  unfold nonempty at 1. apply String.eqb_neq in Hx. now rewrite Hx, IH.
Qed.

Lemma parts_of_join_sep l :
  Forall kept l -> filter nonempty (Str.split sep (Str.join sep l)) = l.
Proof.
  intros H. destruct l as [|x l]; [reflexivity|].
  rewrite split_join; [now apply filter_nonempty_kept | discriminate |].
  eapply Forall_impl; [|exact H]. now intros a [_ Ha].
Qed.

(** The components of an absolute path are what the loop of [normpath]
    leaves on its stack. *)
Lemma parts_fold cwd path :
  isabs cwd = true ->
  parts cwd path
  = fold_left (norm_step 1) (Str.split sep (anchored cwd path)) [].
Proof.
  intros Hc. pose proof (anchored_isabs cwd path Hc) as Ha.
  unfold parts, abspath, normpath. fold (anchored cwd path).
  set (X := anchored cwd path) in *.
  assert (HX : (X =? "") = false).
  { apply String.eqb_neq. intros E. rewrite E in Ha. discriminate. }
  rewrite HX.
  assert (Hn : initial_slashes X = 1%nat \/ initial_slashes X = 2%nat).
  { unfold initial_slashes. unfold isabs in Ha. rewrite Ha.
    destruct (_ && _); auto. }
  assert (Hk : Forall kept (fold_left (norm_step 1) (Str.split sep X) [])).
  { apply fold_norm_kept; [constructor | apply split_has_no_sep]. }
  assert (S1 : forall J, Str.split sep (String sep J) = "" :: Str.split sep J).
  { intros J. apply (split_app_sep sep "" J). }
  destruct Hn as [-> | ->].
  - set (J := Str.join sep _) in *.
    change (slashes 1 ++ J)%string with (String sep J).
    cbn [String.eqb]. rewrite S1.
    cbn [filter nonempty String.eqb negb].
    now apply parts_of_join_sep.
  - rewrite (fold_norm_nonzero 2) by discriminate.
    set (J := Str.join sep _) in *.
    change (slashes 2 ++ J)%string with (String sep (String sep J)).
    cbn [String.eqb]. rewrite !S1.
    cbn [filter nonempty String.eqb negb].
    now apply parts_of_join_sep.
Qed.

Lemma fold_norm_join n X name :
  X <> "" -> valid_name name = true ->
  fold_left (norm_step n) (Str.split sep (join X name)) []
  = fold_left (norm_step n) (Str.split sep X) [] ++ [name].
Proof.
  intros HX Hn. pose proof (valid_name_not_abs _ Hn) as Hna.
  pose proof (valid_name_inv _ Hn) as (_ & _ & _ & Hs).
  rewrite (join_rel _ _ Hna). unfold glue.
  apply String.eqb_neq in HX. rewrite HX. simpl orb.
  destruct (Str.endswith sep X) eqn:E.
  - apply endswith_inv in E as [X' ->].
    rewrite append_assoc. cbn [String.append].
    rewrite !split_app_sep, !fold_left_app, (split_no_sep _ Hs).
    cbn [Str.split fold_left]. rewrite (norm_step_valid _ _ _ Hn).
    reflexivity.
  - cbn [String.append].
    rewrite (split_app_sep sep), fold_left_app, (split_no_sep _ Hs).
    cbn [fold_left]. now rewrite (norm_step_valid _ _ _ Hn).
Qed.


Lemma startswith_join_all rel : forall X,
  X <> "" -> Forall (fun s => valid_name s = true) rel ->
  Str.startswith "/" (join_all X rel) = Str.startswith "/" X.
Proof.
  induction rel as [|x rel IH]; intros X HX H; [reflexivity|].
  inversion H; subst. change (join_all X (x :: rel))
    with (join_all (join X x) rel).
  rewrite IH by (auto using join_not_nil).
  rewrite (join_rel _ _ (valid_name_not_abs _ H2)).
  now apply startswith_app.
Qed.






Lemma parts_join cwd d name :
  isabs cwd = true -> d <> "" -> valid_name name = true ->
  parts cwd (join d name) = parts cwd d ++ [name].
Proof.
  intros Hc Hd Hn. rewrite !parts_fold by assumption.
  destruct (anchored_join cwd d name Hd Hn) as [-> HX].
  now apply fold_norm_join.
Qed.

Lemma parts_join_all cwd rel : forall d,
  isabs cwd = true -> d <> "" ->
  Forall (fun s => valid_name s = true) rel ->
  parts cwd (join_all d rel) = parts cwd d ++ rel.
Proof.
  induction rel as [|x rel IH]; intros d Hc Hd H; simpl.
  - now rewrite app_nil_r.
  - inversion H; subst. unfold join_all in *. rewrite IH; auto.
    + rewrite parts_join by assumption. now rewrite <- app_assoc.
    + now apply join_not_nil.
Qed.

Lemma commonprefix_app l r : commonprefix l (l ++ r) = l.
Proof.
  induction l as [|x l IH]; simpl; [now destruct r|].
  now rewrite String.eqb_refl, IH.
Qed.

Lemma skipn_length_app {A} (l r : list A) : skipn (List.length l) (l ++ r) = r.
Proof. induction l; simpl; auto. Qed.

(** Below [start], [relpath] is the list of components that were joined. *)
Lemma relpath_below cwd path start rel :
  parts cwd path = parts cwd start ++ rel -> rel <> [] ->
  Forall (fun s => valid_name s = true) rel ->
  Str.split sep (relpath cwd path start) = rel.
Proof.
  intros Hp Hr Hv. unfold relpath. rewrite Hp, commonprefix_app.
  rewrite Nat.sub_diag, skipn_length_app. simpl.
  destruct rel as [|x rel]; [congruence|]. simpl is_nil. cbv iota.
  apply split_join; [discriminate|].
  eapply Forall_impl; [|exact Hv].
  intros a Ha. now apply valid_name_inv in Ha.
Qed.

End PathFacts.

(** * Facts about the file system *)

Section OsFacts.

Import os.

Lemma lookup_remove_same name es : lookup name (remove_entry name es) = None.
Proof.
  induction es as [|[k n] es IH]; simpl; [reflexivity|].
  destruct (k =? name) eqn:E; [assumption|]. simpl. now rewrite E.
Qed.

Lemma lookup_remove_other name name' es :
  name <> name' -> lookup name' (remove_entry name es) = lookup name' es.
Proof.
  intros H. induction es as [|[k n] es IH]; simpl; [reflexivity|].
  destruct (String.eqb_spec k name) as [->|Hk]; simpl.
  - apply String.eqb_neq in H. now rewrite H.
  - now rewrite IH.
Qed.

Lemma lookup_replace_same name c c' es :
  lookup name es = Some c -> lookup name (replace_entry name c' es) = Some c'.
Proof.
  induction es as [|[k n] es IH]; simpl; [discriminate|].
  destruct (k =? name) eqn:E; simpl; rewrite E; auto.
Qed.

Lemma lookup_replace_other name name' c' es :
  name <> name' -> lookup name' (replace_entry name c' es) = lookup name' es.
Proof.
  intros H. induction es as [|[k n] es IH]; simpl; [reflexivity|].
  destruct (String.eqb_spec k name) as [->|Hk]; simpl.
  - apply String.eqb_neq in H. now rewrite H.
  - now rewrite IH.
Qed.

Lemma locate_app a : forall b n,
  locate (a ++ b) n
  = match locate a n with inl e => inl e | inr c => locate b c end.
Proof.
  induction a as [|x a IH]; intros b n; simpl; [reflexivity|].
  destruct n as [| | |t es]; try reflexivity.
  destruct (lookup x es); [apply IH | reflexivity].
Qed.

Lemma locate_below_leaf c r :
  is_dir c = false -> r <> [] -> exists e, locate r c = inl e.
Proof.
  destruct r as [|x r]; [congruence|]. intros Hc _.
  destruct c; simpl; try discriminate; eauto.
Qed.

(** Two entries that are not directories never lie one below the other. *)
Lemma leaves_incomparable n a b ca cb :
  locate a n = inr ca -> is_dir ca = false ->
  locate b n = inr cb -> is_dir cb = false ->
  a <> b -> incomparable a b.
Proof.
  intros Ha Hca Hb Hcb Hne. split; intros r E; subst.
  - rewrite locate_app, Ha in Hb. cbv beta iota in Hb.
    destruct r as [|x r]; [now rewrite app_nil_r in Hne|].
    destruct (locate_below_leaf ca (x :: r) Hca) as [e He];
      [discriminate | congruence].
  - rewrite locate_app, Hb in Ha. cbv beta iota in Ha.
    destruct r as [|x r]; [now rewrite app_nil_r in Hne|].
    destruct (locate_below_leaf cb (x :: r) Hcb) as [e He];
      [discriminate | congruence].
Qed.

(** Whether [unlink] succeeds is decided by what [locate] finds. *)
Lemma unlink_locate loc : forall n,
  loc <> [] ->
  match locate loc n with
  | inl e => unlink loc n = inl e
  | inr (Dir _ _) => unlink loc n = inl IsADirectoryError
  | inr (File _ true) => unlink loc n = inl PermissionError
  | inr _ => exists n', unlink loc n = inr n'
  end.
Proof.
  induction loc as [|x loc IH]; intros n H; [congruence|].
  destruct n as [| | |t es]; simpl; try reflexivity.
  destruct (lookup x es) as [c|]; [|reflexivity].
  destruct loc as [|y loc].
  - simpl. destruct c as [? [|]| | |]; eauto.
  - specialize (IH c ltac:(discriminate)).
    destruct (locate (y :: loc) c) as [e|[? [|]| | |]];
      try (rewrite IH; reflexivity);
      destruct IH as [n' ->]; eauto.
Qed.

Lemma unlink_gone loc : forall n n',
  unlink loc n = inr n' -> locate loc n' = inl FileNotFoundError.
Proof.
  induction loc as [|x loc IH]; intros n n' H; [discriminate|].
  destruct n as [| | |t es]; simpl in H; try discriminate.
  destruct (lookup x es) as [c|] eqn:L; [|discriminate].
  destruct loc as [|y loc].
  - assert (n' = Dir t (remove_entry x es)) as ->
        by (destruct c as [? [|]| | |]; congruence).
    simpl. now rewrite lookup_remove_same.
  - destruct (unlink (y :: loc) c) as [e|c'] eqn:U; [discriminate|].
    injection H as <-. cbn [locate].
    rewrite (lookup_replace_same _ _ _ _ L). now apply (IH c).
Qed.

Lemma unlink_other loc : forall n n' loc',
  unlink loc n = inr n' -> incomparable loc loc' ->
  locate loc' n' = locate loc' n.
Proof.
  induction loc as [|x loc IH]; intros n n' loc' H I; [discriminate|].
  destruct n as [| | |t es]; simpl in H; try discriminate.
  destruct (lookup x es) as [c|] eqn:L; [|discriminate].
  destruct loc' as [|x' loc'].
  { destruct I as [_ I]. now specialize (I (x :: loc)). }
  destruct loc as [|y loc].
  - assert (n' = Dir t (remove_entry x es)) as ->
        by (destruct c as [? [|]| | |]; congruence).
    simpl. rewrite lookup_remove_other; [reflexivity|].
    intros ->. destruct I as [I _]. now specialize (I loc').
  - destruct (unlink (y :: loc) c) as [e|c'] eqn:U; [discriminate|].
    injection H as <-. cbn [locate].
    destruct (String.eqb_spec x x') as [<-|Hx].
    + rewrite (lookup_replace_same _ _ _ _ L), L.
      apply (IH c); [assumption|].
      destruct I as [I1 I2].
      split; intros r E; [apply (I1 r) | apply (I2 r)];
        rewrite E; reflexivity.
    + now rewrite lookup_replace_other.
Qed.

End OsFacts.

(** * What the enumerator yields *)

Section WalkFacts.

Import os.

Lemma node_induction (P : node -> Prop) :
  (forall t i, P (File t i)) -> P DanglingLink -> P LoopLink ->
  (forall t es, Forall (fun e => P (snd e)) es -> P (Dir t es)) ->
  forall n, P n.
Proof.
  intros HF HD HL HDir.
  fix IH 1. intros [t i| | |t es];
    [apply HF | apply HD | apply HL | apply HDir].
  induction es as [|[k c] es IHes]; constructor; [apply IH | apply IHes].
Qed.

Lemma wf_Dir t es :
  wf (Dir t es) = true ->
  Forall (fun s => valid_name s = true) (map fst es)
  /\ nodupb (map fst es) = true
  /\ forall name c, In (name, c) es -> wf c = true.
Proof.
  cbn [wf]. rewrite !andb_true_iff. intros [[Hv Hn] Ha].
  split; [now apply Forall_forall, forallb_forall|]. split; [assumption|].
  clear Hv Hn. induction es as [|[k c'] es IH]; intros name c H; [easy|].
  apply andb_true_iff in Ha as [Hc Ha].
  destruct H as [H|H]; [congruence | eauto].
Qed.

Lemma mem_false_iff x l : mem x l = false <-> ~ In x l.
Proof.
  unfold mem. split.
  - intros H Hin. assert (existsb (String.eqb x) l = true); [|congruence].
    apply existsb_exists. exists x. split; [assumption|apply String.eqb_refl].
  - intros H. destruct (existsb (String.eqb x) l) eqn:E; [|reflexivity].
    apply existsb_exists in E as (y & Hy & Exy).
    apply String.eqb_eq in Exy. now subst.
Qed.

Lemma mem_true_iff x l : mem x l = true <-> In x l.
Proof.
  destruct (mem x l) eqn:E.
  - split; [intros _|reflexivity].
    apply existsb_exists in E as (y & Hy & Exy).
    apply String.eqb_eq in Exy. now subst.
  - apply mem_false_iff in E. split; [discriminate | tauto].
Qed.

Lemma lookup_In name c es : lookup name es = Some c -> In (name, c) es.
Proof.
  induction es as [|[k n] es IH]; simpl; [discriminate|].
  destruct (String.eqb_spec k name) as [->|]; [|auto].
  intros [= ->]. now left.
Qed.

Lemma In_lookup name c es :
  nodupb (map fst es) = true -> In (name, c) es -> lookup name es = Some c.
Proof.
  induction es as [|[k n] es IH]; simpl; [easy|].
  rewrite andb_true_iff, negb_true_iff, mem_false_iff. intros [Hk Hn] [H|H].
  - injection H as -> ->. now rewrite String.eqb_refl.
  - destruct (String.eqb_spec k name) as [->|]; [|auto].
    exfalso. apply Hk. apply in_map_iff. now exists (name, c).
Qed.

Lemma wf_locate loc : forall n c,
  wf n = true -> locate loc n = inr c -> wf c = true.
Proof.
  induction loc as [|x loc IH]; intros n c Hn H; simpl in H.
  - congruence.
  - destruct n as [| | |t es]; try discriminate.
    destruct (lookup x es) as [c'|] eqn:L; [|discriminate].
    apply (IH c'); [|assumption].
    apply wf_Dir in Hn as (_ & _ & Hn). eapply Hn, lookup_In, L.
Qed.

Lemma names_where_In f name es :
  In name (names_where f es) <-> exists c, In (name, c) es /\ f c = true.
Proof.
  unfold names_where. rewrite in_map_iff. split.
  - intros [[k c] [<- H]]. apply filter_In in H. simpl in *. eauto.
  - intros [c [H Hf]]. exists (name, c). split; [reflexivity|].
    apply filter_In. auto.
Qed.

Lemma join_all_not_nil rel : forall top, top <> "" -> join_all top rel <> "".
Proof.
  induction rel as [|x rel IH]; intros top H; [assumption|].
  apply (IH (posixpath.join top x)). now apply join_not_nil.
Qed.

Lemma join_all_snoc top rel name :
  join_all top (rel ++ [name]) = posixpath.join (join_all top rel) name.
Proof. unfold join_all. now rewrite fold_left_app. Qed.

Section Walk.

Variables (prune : list string -> list string) (Q : string -> Prop).
Hypothesis prune_Q : forall dirs d, In d (prune dirs) -> Q d.

(** Every triple of the walk comes from a directory of the tree, reached
    through entries the consumer left in [dirs]. *)
Lemma walk_from_sound : forall n top r ds fs,
  wf n = true -> In (r, ds, fs) (walk_from prune top n) ->
  exists rel t es,
    r = join_all top rel
    /\ locate rel n = inr (Dir t es)
    /\ fs = names_where (fun c => negb (is_dir c)) es
    /\ Forall (fun s => valid_name s = true) rel
    /\ Forall Q rel.
Proof.
  induction n as [| | |t es IH] using node_induction;
    intros top r ds fs Hwf Hin; try contradiction.
  cbn [walk_from] in Hin. destruct Hin as [Hin|Hin].
  { injection Hin as <- <- <-. exists [], t, es. repeat split; constructor. }
  pose proof (wf_Dir _ _ Hwf) as (Hv & Hn & Hc).
  set (dirs := names_where is_dir es) in *.
  assert (Hd : exists name c,
             In (name, c) es /\ In name (prune dirs)
             /\ In (r, ds, fs) (walk_from prune (posixpath.join top name) c)).
  { match type of Hin with
    | In _ (?descend es) =>
        assert (G : forall l, In (r, ds, fs) (descend l) ->
                  exists name c,
                    In (name, c) l /\ In name (prune dirs)
                    /\ In (r, ds, fs)
                         (walk_from prune (posixpath.join top name) c))
    end; [|now apply G].
    induction l as [|[k c] l IHl]; intros Hl; [contradiction|].
    apply in_app_or in Hl as [Hl|Hl].
    - destruct (is_dir c && existsb (String.eqb k) (prune dirs)) eqn:E;
        [|contradiction].
      apply andb_true_iff in E as [_ E].
      exists k, c. split; [now left|]. split; [|assumption].
      now apply (mem_true_iff k).
    - destruct (IHl Hl) as (name & c' & H1 & H2).
      exists name, c'. split; [now right | assumption]. }
  destruct Hd as (name & c & Hes & Hp & Hw).
  rewrite Forall_forall in IH.
  destruct (IH (name, c) Hes _ _ _ _ (Hc _ _ Hes) Hw)
    as (rel & t' & es' & -> & Hl & -> & Hvr & Hq).
  exists (name :: rel), t', es'. repeat split.
  - cbn [locate]. now rewrite (In_lookup _ _ _ Hn Hes).
  - constructor; [|assumption].
    rewrite Forall_forall in Hv. apply Hv, in_map_iff. now exists (name, c).
  - constructor; [eapply prune_Q, Hp | assumption].
Qed.

End Walk.

Lemma wf_world_inv w :
  wf_world w = true -> wf (root w) = true /\ posixpath.isabs (cwd w) = true.
Proof. unfold wf_world. now rewrite andb_true_iff. Qed.

Lemma lookup_path_inr w p n :
  lookup_path w p = inr n -> p <> "" /\ locate (resolve w p) (root w) = inr n.
Proof.
  unfold lookup_path. destruct (String.eqb_spec p ""); [discriminate|auto].
Qed.

Lemma lookup_path_locate w p :
  p <> "" -> lookup_path w p = locate (resolve w p) (root w).
Proof.
  intros H. unfold lookup_path. apply String.eqb_neq in H. now rewrite H.
Qed.

Lemma existsb_false_Forall {A} (f : A -> bool) l :
  existsb f l = false <-> Forall (fun x => f x = false) l.
Proof.
  induction l as [|x l IH]; simpl.
  - split; constructor.
  - rewrite orb_false_iff, IH. split.
    + intros [? ?]. now constructor.
    + intros H. inversion H. auto.
Qed.

(** Below [directory], [is_hidden] looks at the names that were joined. *)
Lemma is_hidden_below w directory p rel :
  wf_world w = true -> below w directory p rel ->
  is_hidden w directory p = existsb (Str.startswith ".") rel.
Proof.
  intros Hw (Hne & Hv & _ & Hr & _). unfold is_hidden.
  now rewrite (relpath_below _ _ _ rel Hr Hne Hv).
Qed.

Lemma below_intro w directory n rel c :
  wf_world w = true ->
  lookup_path w directory = inr n ->
  rel <> [] -> Forall (fun s => valid_name s = true) rel ->
  locate rel n = inr c -> is_dir c = false ->
  below w directory (join_all directory rel) rel.
Proof.
  intros Hw Hd Hne Hv Hl Hc.
  apply wf_world_inv in Hw as [_ Hcwd].
  apply lookup_path_inr in Hd as [Hd Hn].
  assert (Hr : resolve w (join_all directory rel) = resolve w directory ++ rel)
    by now apply parts_join_all.
  repeat split; try assumption.
  - now apply join_all_not_nil.
  - exists c. split; [|assumption].
    now rewrite Hr, locate_app, Hn.
Qed.

Lemma iter_files_flat_sound w directory hid files p :
  wf_world w = true ->
  iter_files w directory false hid = inr files -> In p files ->
  exists name t imm,
    below w directory p [name]
    /\ locate (resolve w p) (root w) = inr (File t imm)
    /\ (hid = false -> no_dot name).
Proof.
  intros Hw Hit Hp. unfold iter_files in Hit. cbn [negb] in Hit.
  unfold listdir in Hit.
  destruct (lookup_path w directory) as [e|[| | |t es]] eqn:Hd;
    try discriminate.
  injection Hit as <-.
  apply in_flat_map in Hp as (name & Hname & Hp).
  set (q := posixpath.join directory name) in *.
  destruct (genericpath.isfile w q) eqn:Hf; [|contradiction].
  pose proof (wf_world_inv _ Hw) as [Hroot Hcwd].
  pose proof (lookup_path_inr _ _ _ Hd) as [Hdne Hloc].
  pose proof (wf_locate _ _ _ Hroot Hloc) as Hwd.
  apply wf_Dir in Hwd as (Hv & Hn & _).
  rewrite Forall_forall in Hv. specialize (Hv _ Hname).
  apply in_map_iff in Hname as ([k c] & Hk & Hin). simpl in Hk. subst k.
  pose proof (In_lookup _ _ _ Hn Hin) as Hlk.
  assert (Hq : resolve w q = resolve w directory ++ [name])
    by now apply parts_join.
  assert (Hqne : q <> "") by now apply join_not_nil.
  assert (Hlq : locate (resolve w q) (root w) = inr c).
  { rewrite Hq, locate_app, Hloc. cbn [locate]. now rewrite Hlk. }
  unfold genericpath.isfile, stat in Hf.
  rewrite (lookup_path_locate _ _ Hqne), Hlq in Hf.
  destruct c as [tc imm| | |]; try discriminate.
  assert (Hb : below w directory q [name]).
  { repeat split; try assumption; [discriminate | now repeat constructor|].
    now exists (File tc imm). }
  assert (Hh : hid = false -> no_dot name /\ p = q).
  { intros ->. cbn [negb andb] in Hp.
    rewrite (is_hidden_below _ _ _ _ Hw Hb) in Hp. simpl in Hp.
    rewrite orb_false_r in Hp. unfold no_dot.
    destruct (Str.startswith "." name); [contradiction|].
    destruct Hp as [<-|[]]. auto. }
  assert (Hpq : p = q).
  { destruct hid; [|now apply Hh]. now destruct Hp as [<-|[]]. }
  subst p. exists name, tc, imm. repeat split; try apply Hb; [assumption|].
  intros H. now apply Hh.
Qed.

Lemma iter_files_walk_sound w directory hid files p :
  wf_world w = true ->
  iter_files w directory true hid = inr files -> In p files ->
  exists rel, below w directory p rel /\ (hid = false -> Forall no_dot rel).
Proof.
  intros Hw Hit Hp. unfold iter_files in Hit. cbn [negb] in Hit.
  injection Hit as <-.
  apply in_flat_map in Hp as ([[r ds] fs] & Htr & Hp).
  apply in_flat_map in Hp as (name & Hname & Hp).
  set (q := posixpath.join r name) in *.
  unfold walk in Htr.
  destruct (lookup_path w directory) as [e|n] eqn:Hd; [contradiction|].
  pose proof (wf_world_inv _ Hw) as [Hroot Hcwd].
  pose proof (lookup_path_inr _ _ _ Hd) as [Hdne Hloc].
  pose proof (wf_locate _ _ _ Hroot Hloc) as Hwn.
  set (Q := fun s => hid = false -> no_dot s).
  apply (walk_from_sound _ Q) in Htr; [| |assumption].
  2:{ intros dirs d Hin Hh. subst hid. cbn [negb] in Hin.
      apply filter_In in Hin as [_ Hin]. now apply negb_true_iff in Hin. }
  destruct Htr as (rel & t & es & -> & Hl & -> & Hv & Hq).
  apply names_where_In in Hname as (c & Hin & Hc).
  apply negb_true_iff in Hc.
  pose proof (wf_locate _ _ _ Hwn Hl) as Hwd.
  apply wf_Dir in Hwd as (Hvn & Hn & _).
  assert (Hvname : valid_name name = true).
  { rewrite Forall_forall in Hvn. apply Hvn, in_map_iff. now exists (name, c). }
  assert (Hb : below w directory q (rel ++ [name])).
  { unfold q. rewrite <- join_all_snoc.
    apply (below_intro _ _ n _ c); try assumption.
    - now destruct rel.
    - apply Forall_app. split; [assumption | now repeat constructor].
    - rewrite locate_app, Hl. cbn [locate].
      now rewrite (In_lookup _ _ _ Hn Hin). }
  destruct hid.
  - destruct Hp as [<-|[]]. exists (rel ++ [name]). split; [assumption|easy].
  - cbn [negb andb] in Hp. rewrite (is_hidden_below _ _ _ _ Hw Hb) in Hp.
    destruct (existsb (Str.startswith ".") (rel ++ [name])) eqn:E;
      [contradiction|].
    destruct Hp as [<-|[]]. exists (rel ++ [name]). split; [assumption|].
    intros _. now apply existsb_false_Forall.
Qed.

(** Every path the enumerator yields names an entry below [directory] that
    is not a directory. *)
Lemma iter_files_below w directory recursive hid files p :
  wf_world w = true ->
  iter_files w directory recursive hid = inr files -> In p files ->
  exists rel, below w directory p rel /\ (hid = false -> Forall no_dot rel).
Proof.
  intros Hw Hit Hp. destruct recursive.
  - eapply iter_files_walk_sound; eassumption.
  - destruct (iter_files_flat_sound _ _ _ _ _ Hw Hit Hp)
      as (name & t & imm & Hb & _ & Hd).
    exists [name]. split; [assumption|]. intros H. repeat constructor. auto.
Qed.

Lemma iter_files_dir w directory recursive hid files p :
  iter_files w directory recursive hid = inr files -> In p files ->
  directory <> "".
Proof.
  intros Hit Hp ->. unfold iter_files, listdir, walk, lookup_path in Hit.
  cbn [String.eqb] in Hit. destruct recursive; cbn in Hit; [|discriminate].
  injection Hit as <-. contradiction.
Qed.

Lemma below_leaf w directory p rel : below w directory p rel -> leaf w p.
Proof. now intros (_ & _ & _ & _ & H). Qed.

(** Two yielded paths that resolve to the same location are the same
    path. *)
Lemma below_inj w directory p q rp rq :
  below w directory p rp -> below w directory q rq ->
  resolve w p = resolve w q -> p = q.
Proof.
  intros (_ & _ & -> & Hp & _) (_ & _ & -> & Hq & _) H.
  rewrite Hp, Hq in H. apply app_inv_head in H. now subst.
Qed.

End WalkFacts.

(** * The loop of the driver *)

Section LoopFacts.

Import os.

Lemma Qltb_lt x y : Qltb x y = true <-> x < y.
Proof.
  unfold Qltb. rewrite negb_true_iff. split.
  - intros H. apply Qnot_le_lt. intros L.
    apply Qle_bool_iff in L. congruence.
  - intros H. destruct (Qle_bool y x) eqn:E; [|reflexivity].
    apply Qle_bool_iff in E. exfalso. now apply (Qlt_not_le x y).
Qed.

Lemma Qltb_ge x y : Qltb x y = false <-> y <= x.
Proof.
  unfold Qltb. rewrite negb_false_iff. apply Qle_bool_iff.
Qed.

Lemma same_env_refl w : same_env w w.
Proof. now repeat split. Qed.

Lemma same_env_trans w1 w2 w3 :
  same_env w1 w2 -> same_env w2 w3 -> same_env w1 w3.
Proof. unfold same_env. intuition congruence. Qed.

Lemma same_env_resolve w1 w2 p :
  same_env w1 w2 -> resolve w1 p = resolve w2 p.
Proof. intros [H _]. unfold resolve. now rewrite H. Qed.

Lemma stat_same w1 w2 p :
  lookup_path w1 p = lookup_path w2 p -> stat w1 p = stat w2 p.
Proof. intros H. unfold stat. now rewrite H. Qed.

Lemma get_timestamp_same w1 w2 p src :
  same_env w1 w2 -> lookup_path w1 p = lookup_path w2 p ->
  get_timestamp w1 p src = get_timestamp w2 p src.
Proof.
  intros (_ & _ & Hs & _ & Hi) H. apply stat_same in H.
  unfold get_timestamp, git_last_commit_timestamp,
    genericpath.getmtime, genericpath.getatime, genericpath.getctime.
  now rewrite H, Hs, Hi.
Qed.

Lemma dates_error_same w1 w2 ts cutoff :
  same_env w1 w2 -> dates_error w1 ts cutoff = dates_error w2 ts cutoff.
Proof. intros (_ & _ & _ & H & _). unfold dates_error. now rewrite H. Qed.

Lemma check_passes_same w1 w2 verbose ts cutoff :
  same_env w1 w2 ->
  check_passes w1 verbose ts cutoff -> check_passes w2 verbose ts cutoff.
Proof.
  intros H. unfold check_passes. now rewrite (dates_error_same _ _ _ _ H).
Qed.

Lemma same_env_sym w1 w2 : same_env w1 w2 -> same_env w2 w1.
Proof. unfold same_env. intuition congruence. Qed.

Lemma remove_ok_iff w p :
  (exists w', remove w p = inr w')
  <-> resolve w p <> []
      /\ exists c, lookup_path w p = inr c /\ removable c = true.
Proof.
  unfold remove, lookup_path.
  destruct (String.eqb_spec p "") as [->|Hp].
  { split; [intros [? ?]; discriminate | intros (_ & c & ? & _); discriminate]. }
  destruct (resolve w p) as [|x loc] eqn:R.
  { split; [intros [? ?]; discriminate | intros [? _]; congruence]. }
  pose proof (unlink_locate (x :: loc) (root w) ltac:(discriminate)) as U.
  destruct (locate (x :: loc) (root w)) as [e|c].
  - rewrite U. split; [intros [? ?]; discriminate|].
    intros (_ & c & ? & _); discriminate.
  - split.
    + intros [w' H]. split; [discriminate|]. exists c. split; [reflexivity|].
      destruct c as [? [|]| | |]; try reflexivity; rewrite U in H; discriminate.
    + intros (_ & c' & [= <-] & Hc).
      destruct c as [? [|]| | |]; try discriminate;
        destruct U as [n' ->]; eauto.
Qed.

Lemma remove_effect w p w' :
  remove w p = inr w' ->
  same_env w w'
  /\ lookup_path w' p = inl FileNotFoundError
  /\ forall q, incomparable (resolve w p) (resolve w q) ->
               lookup_path w' q = lookup_path w q.
Proof.
  unfold remove. destruct (String.eqb_spec p "") as [->|Hp]; [discriminate|].
  destruct (unlink (resolve w p) (root w)) as [e|r] eqn:U; [discriminate|].
  intros [= <-]. split; [now repeat split|]. split.
  - rewrite lookup_path_locate by assumption. apply (unlink_gone _ _ _ U).
  - intros q I. unfold lookup_path. destruct (q =? ""); [reflexivity|].
    apply (unlink_other _ _ _ _ U I).
Qed.

Lemma unlink_backward loc : forall n n' loc' c',
  unlink loc n = inr n' -> locate loc' n' = inr c' ->
  exists c, locate loc' n = inr c
            /\ is_dir c = is_dir c'
            /\ (is_dir c' = false -> c = c').
Proof.
  induction loc as [|x loc IH]; intros n n' loc' c' H L; [discriminate|].
  destruct n as [| | |t es]; simpl in H; try discriminate.
  destruct (lookup x es) as [cx|] eqn:Lx; [|discriminate].
  destruct loc as [|y loc].
  - assert (n' = Dir t (remove_entry x es)) as ->
        by (destruct cx as [? [|]| | |]; congruence).
    destruct loc' as [|x' loc'].
    + injection L as <-. exists (Dir t es). repeat split. discriminate.
    + cbn [locate] in *.
      destruct (String.eqb_spec x x') as [<-|Hx].
      * rewrite lookup_remove_same in L. discriminate.
      * rewrite lookup_remove_other in L by assumption.
        exists c'. repeat split. exact L.
  - destruct (unlink (y :: loc) cx) as [e|cx'] eqn:U; [discriminate|].
    injection H as <-.
    destruct loc' as [|x' loc'].
    + injection L as <-. exists (Dir t es). repeat split. discriminate.
    + cbn [locate] in *.
      destruct (String.eqb_spec x x') as [<-|Hx].
      * rewrite (lookup_replace_same _ _ _ _ Lx) in L. rewrite Lx.
        exact (IH _ _ _ _ U L).
      * rewrite lookup_replace_other in L by assumption.
        exists c'. repeat split. exact L.
Qed.

Lemma unlink_keeps_dirs loc : forall n n' loc' c,
  unlink loc n = inr n' -> locate loc' n = inr c -> is_dir c = true ->
  exists c', locate loc' n' = inr c' /\ is_dir c' = true.
Proof.
  induction loc as [|x loc IH]; intros n n' loc' c H L D; [discriminate|].
  destruct n as [| | |t es]; simpl in H; try discriminate.
  destruct (lookup x es) as [cx|] eqn:Lx; [|discriminate].
  destruct loc as [|y loc].
  - assert (n' = Dir t (remove_entry x es) /\ is_dir cx = false) as [-> Dx]
        by (destruct cx as [? [|]| | |]; split; simpl; congruence).
    destruct loc' as [|x' loc'].
    + eexists. split; reflexivity.
    + cbn [locate] in *.
      destruct (String.eqb_spec x x') as [<-|Hx].
      * rewrite Lx in L. destruct loc' as [|z loc'].
        { injection L as <-. congruence. }
        { destruct cx; discriminate. }
      * rewrite lookup_remove_other by assumption. eauto.
  - destruct (unlink (y :: loc) cx) as [e|cx'] eqn:U; [discriminate|].
    injection H as <-.
    destruct loc' as [|x' loc'].
    + eexists. split; reflexivity.
    + cbn [locate] in *.
      destruct (String.eqb_spec x x') as [<-|Hx].
      * rewrite (lookup_replace_same _ _ _ _ Lx). rewrite Lx in L.
        exact (IH _ _ _ _ U L D).
      * rewrite lookup_replace_other by assumption. eauto.
Qed.

Lemma shrunk_refl w : shrunk w w.
Proof.
  split; [apply same_env_refl|]. split.
  - intros loc c' H. exists c'. auto.
  - intros loc c H D. eauto.
Qed.

Lemma shrunk_trans w1 w2 w3 : shrunk w1 w2 -> shrunk w2 w3 -> shrunk w1 w3.
Proof.
  intros (E1 & B1 & D1) (E2 & B2 & D2).
  split; [eapply same_env_trans; eassumption|]. split.
  - intros loc c3 H3.
    destruct (B2 _ _ H3) as (c2 & H2 & K2 & F2).
    destruct (B1 _ _ H2) as (c1 & H1 & K1 & F1).
    exists c1. split; [assumption|]. split; [congruence|].
    intros N. rewrite <- (F2 N). apply F1. congruence.
  - intros loc c1 H1 K1.
    destruct (D1 _ _ H1 K1) as (c2 & H2 & K2). eauto.
Qed.

Lemma remove_shrinks w p w' : remove w p = inr w' -> shrunk w w'.
Proof.
  unfold remove. destruct (p =? ""); [discriminate|].
  destruct (unlink (resolve w p) (root w)) as [e|r] eqn:U; [discriminate|].
  intros [= <-]. split; [now repeat split|]. split.
  - intros loc c' L. exact (unlink_backward _ _ _ _ _ U L).
  - intros loc c L D. exact (unlink_keeps_dirs _ _ _ _ _ U L D).
Qed.

Lemma shrunk_lookup_path w w' p c' :
  shrunk w w' -> lookup_path w' p = inr c' ->
  exists c, lookup_path w p = inr c
            /\ is_dir c = is_dir c'
            /\ (is_dir c' = false -> c = c').
Proof.
  intros (E & B & _) H. unfold lookup_path in *.
  destruct (p =? ""); [discriminate|].
  rewrite <- (same_env_resolve _ _ _ E) in H. eauto.
Qed.

Lemma shrunk_dir_stays w w' p c :
  shrunk w w' -> lookup_path w p = inr c -> is_dir c = true ->
  exists c', lookup_path w' p = inr c' /\ is_dir c' = true.
Proof.
  intros (E & _ & D) H K. unfold lookup_path in *.
  destruct (p =? ""); [discriminate|].
  rewrite <- (same_env_resolve _ _ _ E). eauto.
Qed.




Section Body.

Variables (cutoff : Q) (excluded : list string).
Variables (dry_run verbose : bool) (age_source : string).

Local Abbreviation body := (loop_body cutoff excluded dry_run verbose age_source).
Local Abbreviation dooms w :=
  (doomed w cutoff excluded dry_run verbose age_source).

Lemma doomed_same w1 w2 p :
  same_env w1 w2 -> lookup_path w1 p = lookup_path w2 p ->
  dooms w1 p -> dooms w2 p.
Proof.
  intros He Hl (Hd & Hm & ts & w' & Ht & Hc & Hr & Hk).
  split; [assumption|]. split; [assumption|].
  assert (Hok : exists w'', remove w2 p = inr w'').
  { apply remove_ok_iff.
    rewrite <- (same_env_resolve _ _ _ He), <- Hl.
    apply remove_ok_iff. eauto. }
  destruct Hok as [w'' Hok]. exists ts, w''.
  rewrite <- (get_timestamp_same _ _ _ _ He Hl).
  repeat split; try assumption.
  eapply check_passes_same; eassumption.
Qed.

(** The body changes the world exactly when [doomed] holds of the
    current world, and then by [os.remove]. *)
Lemma loop_body_world s p s' r :
  body s p = (s', r) ->
  (dooms (world s) p /\ remove (world s) p = inr (world s') /\ r = None)
  \/ (~ dooms (world s) p /\ world s' = world s).
Proof.
  unfold loop_body.
  change (world (incr_considered s)) with (world s).
  destruct (mem (posixpath.normpath p) excluded) eqn:Hm.
  { intros [= <- <-]. right. split; [|now destruct verbose].
    intros (_ & H & _). congruence. }
  destruct (get_timestamp (world s) p age_source) as [e|ts] eqn:Ht.
  { intros H. right. split.
    - intros (_ & _ & ? & ? & H' & _). congruence.
    - destruct (is_FileNotFoundError e); injection H as <- <-;
        now destruct verbose. }
  destruct (if verbose then dates_error (world s) ts cutoff else None)
    as [e|] eqn:Hk.
  { intros [= <- <-]. right. split; [|reflexivity].
    intros (_ & _ & ts' & w' & Ht' & _ & _ & Hk').
    unfold check_passes in Hk'. rewrite Ht in Ht'. injection Ht' as <-.
    rewrite Hk in Hk'. discriminate. }
  set (s1 := if verbose then _ else _).
  assert (Hw1 : world s1 = world s) by (unfold s1; now destruct verbose).
  destruct (Qltb ts cutoff) eqn:Hc.
  2:{ intros [= <- <-]. right. split; [|assumption].
      intros (_ & _ & ? & ? & H' & Hc' & _). congruence. }
  destruct dry_run eqn:Hdry.
  { intros [= <- <-]. right. split; [|assumption].
    intros (H & _). discriminate. }
  rewrite Hw1.
  destruct (remove (world s) p) as [e|w'] eqn:Hr.
  - intros [= <- <-]. right. split; [|assumption].
    intros (_ & _ & ? & ? & _ & _ & H' & _). congruence.
  - intros [= <- <-]. left. split; [|split; reflexivity].
    split; [reflexivity|]. split; [assumption|]. now exists ts, w'.
Qed.

Lemma loop_body_shrinks s p s' r :
  body s p = (s', r) -> shrunk (world s) (world s').
Proof.
  intros B. destruct (loop_body_world _ _ _ _ B)
    as [(_ & Hr & _) | (_ & ->)];
    [eapply remove_shrinks, Hr | apply shrunk_refl].
Qed.

Lemma loop_shrinks files : forall s s' r,
  loop cutoff excluded dry_run verbose age_source s files = (s', r) ->
  shrunk (world s) (world s').
Proof.
  induction files as [|p files IH]; intros s s' r H; simpl in H.
  - injection H as <- <-. apply shrunk_refl.
  - destruct (body s p) as [s1 r1] eqn:B.
    pose proof (loop_body_shrinks _ _ _ _ B) as S1.
    destruct r1 as [e|].
    + now injection H as <- <-.
    + eapply shrunk_trans; [exact S1 | eapply IH, H].
Qed.

Lemma lookup_path_resolve_eq w p q :
  p <> "" -> q <> "" -> resolve w p = resolve w q ->
  lookup_path w p = lookup_path w q.
Proof.
  intros Hp Hq H. rewrite !lookup_path_locate by assumption. now rewrite H.
Qed.

Variable w0 : World.

Local Abbreviation inv :=
  (sweep_inv w0 cutoff excluded dry_run verbose age_source).

Lemma leaves_apart w p q :
  same_env w0 w -> leaf w0 p -> leaf w0 q ->
  resolve w0 q <> resolve w0 p ->
  incomparable (resolve w p) (resolve w q).
Proof.
  intros He (_ & cp & Hp & Hcp) (_ & cq & Hq & Hcq) Hne.
  rewrite <- !(same_env_resolve _ _ _ He).
  eapply leaves_incomparable; eauto.
Qed.

Lemma loop_body_inv done s p s' r :
  inv done (world s) -> leaf w0 p -> body s p = (s', r) ->
  inv (p :: done) (world s').
Proof.
  intros (He & Hleaf & Hb & Hc) Hp H.
  assert (Hleaf' : forall q, In q (p :: done) -> leaf w0 q).
  { intros q [<-|Hq]; auto. }
  destruct (loop_body_world _ _ _ _ H)
    as [(Hd & Hr & _) | (Hnd & Hw)].
  - (* the body unlinks [p] *)
    destruct (remove_effect _ _ _ Hr) as (He' & Hgone & Hother).
    assert (Hsame : lookup_path (world s) p = lookup_path w0 p).
    { destruct (Hb p Hp) as [E | [E _]]; [assumption|].
      destruct Hd as (_ & _ & ts & w' & _ & _ & Hrm & _).
      assert (Hok : exists w'', remove (world s) p = inr w'') by eauto.
      apply remove_ok_iff in Hok as (_ & c & Hl & _). congruence. }
    assert (Hd0 : dooms w0 p)
      by (eapply doomed_same; [apply same_env_sym, He | | ]; eassumption).
    assert (Heq : forall q, leaf w0 q -> resolve w0 q = resolve w0 p ->
                            lookup_path (world s') q = inl FileNotFoundError).
    { intros q Hq E. rewrite <- Hgone.
      apply lookup_path_resolve_eq; [apply Hq | apply Hp |].
      pose proof (same_env_trans _ _ _ He He') as He2.
      now rewrite <- !(same_env_resolve _ _ _ He2). }
    split; [eapply same_env_trans; eassumption|].
    split; [assumption|]. split.
    + intros q Hq.
      destruct (list_eq_dec string_dec (resolve w0 q) (resolve w0 p)) as [E|E].
      * right. split; [now apply Heq|]. exists p. split; [now left|]. auto.
      * rewrite (Hother q) by (eapply leaves_apart; eassumption).
        destruct (Hb q Hq) as [L | (L & q' & Hq' & Hres & Hdq)]; [now left|].
        right. split; [assumption|]. exists q'. split; [now right|]. auto.
    + intros q Hq Hdq.
      destruct (list_eq_dec string_dec (resolve w0 q) (resolve w0 p)) as [E|E].
      * apply Heq; auto.
      * destruct Hq as [<-|Hq]; [congruence|].
        rewrite (Hother q) by (eapply leaves_apart; eauto).
        now apply Hc.
  - (* the body leaves the world as it is *)
    rewrite Hw. split; [assumption|]. split; [assumption|]. split.
    + intros q Hq.
      destruct (Hb q Hq) as [L | (L & q' & Hq' & Hres & Hdq)]; [now left|].
      right. split; [assumption|]. exists q'. split; [now right|]. auto.
    + intros q [<-|Hq] Hdq; [|now apply Hc].
      destruct (Hb p Hp) as [L | [L _]]; [|assumption].
      exfalso. apply Hnd. eapply doomed_same; [exact He | | exact Hdq].
      now symmetry.
Qed.

Lemma inv_equiv d1 d2 w :
  (forall q, In q d1 <-> In q d2) -> inv d1 w -> inv d2 w.
Proof.
  intros E (He & Hl & Hb & Hc). split; [assumption|]. split; [|split].
  - intros q Hq. apply Hl. now apply E.
  - intros q Hq.
    destruct (Hb q Hq) as [L | (L & q' & Hq' & Hres & Hdq)]; [now left|].
    right. split; [assumption|]. exists q'. split; [now apply E | auto].
  - intros q Hq. apply Hc. now apply E.
Qed.

Local Abbreviation pulled :=
  (consumed cutoff excluded dry_run verbose age_source).

Lemma consumed_incl files : forall s q, In q (pulled s files) -> In q files.
Proof.
  induction files as [|p files IH]; intros s q; simpl; [easy|].
  destruct (body s p) as [s1 [e|]].
  - intros [<-|[]]. now left.
  - intros [<-|H]; [now left | right; eauto].
Qed.

Lemma consumed_all files : forall s s',
  loop cutoff excluded dry_run verbose age_source s files = (s', None) ->
  pulled s files = files.
Proof.
  induction files as [|p files IH]; intros s s' H; simpl in *; [reflexivity|].
  destruct (body s p) as [s1 [e|]]; [discriminate|].
  now rewrite (IH _ _ H).
Qed.

Lemma loop_inv files : forall done s s' r,
  inv done (world s) -> (forall p, In p files -> leaf w0 p) ->
  loop cutoff excluded dry_run verbose age_source s files = (s', r) ->
  inv (pulled s files ++ done) (world s').
Proof.
  induction files as [|p files IH]; intros done s s' r Hi Hl H; simpl in *.
  - now injection H as <- <-.
  - assert (Hp : leaf w0 p) by (apply Hl; now left).
    pose proof (fun s1 r1 => loop_body_inv done s p s1 r1 Hi Hp) as Hstep.
    destruct (body s p) as [s1 [e|]].
    + injection H as <- <-. now apply (Hstep s1 (Some e)).
    + specialize (Hstep s1 None eq_refl).
      apply (IH _ _ _ _ Hstep (fun q Hq => Hl q (or_intror Hq))) in H.
      eapply inv_equiv; [|exact H].
      intros q. simpl. rewrite !in_app_iff. simpl. tauto.
Qed.

Lemma inv_initial : inv [] w0.
Proof.
  split; [apply same_env_refl|]. split; [intros ? []|].
  split; [now left | intros ? []].
Qed.

Lemma would_remove_app o1 o2 :
  would_remove (o1 ++ o2) = would_remove o1 ++ would_remove o2.
Proof. unfold would_remove. apply flat_map_app. Qed.

(** One iteration moves [considered] by one and at most one of the two
    other counters by one. *)
Lemma loop_body_counters s p s' r :
  body s p = (s', r) ->
  considered s' = (considered s + 1)%Z
  /\ ((removed s' = removed s /\ skipped_excluded s' = skipped_excluded s)
      \/ (removed s' = (removed s + 1)%Z
          /\ skipped_excluded s' = skipped_excluded s)
      \/ (removed s' = removed s
          /\ skipped_excluded s' = (skipped_excluded s + 1)%Z)).
Proof.
  unfold loop_body.
  destruct (mem (posixpath.normpath p) excluded).
  { intros [= <- <-]. destruct verbose; simpl; auto. }
  destruct (get_timestamp _ p age_source) as [e|ts].
  { destruct (is_FileNotFoundError e); intros [= <- <-];
      destruct verbose; simpl; auto. }
  destruct (if verbose then dates_error _ ts cutoff else None);
    [intros [= <- <-]; simpl; auto|].
  destruct (Qltb ts cutoff); [|intros [= <- <-]; destruct verbose; simpl; auto].
  destruct dry_run; [intros [= <- <-]; destruct verbose; simpl; auto|].
  destruct (remove _ p); intros [= <- <-]; destruct verbose; simpl; auto.
Qed.

(** An iteration raises what [get_timestamp] raises, unless that is
    [FileNotFoundError], or what the dates of the "Check" line raise. *)
Lemma loop_body_raises s p s' e :
  body s p = (s', Some e) ->
  s' = incr_considered s
  /\ mem (posixpath.normpath p) excluded = false
  /\ ((get_timestamp (world s) p age_source = inl e
       /\ e <> FileNotFoundError)
      \/ (exists ts,
            get_timestamp (world s) p age_source = inr ts
            /\ verbose = true
            /\ dates_error (world s) ts cutoff = Some e)).
Proof.
  unfold loop_body.
  change (world (incr_considered s)) with (world s).
  destruct (mem (posixpath.normpath p) excluded); [discriminate|].
  destruct (get_timestamp (world s) p age_source) as [e'|ts].
  - destruct e'; cbn [is_FileNotFoundError]; intros [= <- <-];
      repeat split; left; split; try reflexivity; discriminate.
  - destruct verbose.
    + destruct (dates_error (world s) ts cutoff) as [e'|] eqn:Hk.
      * intros [= <- <-]. repeat split. right. exists ts. auto.
      * destruct (Qltb ts cutoff); [|discriminate].
        destruct dry_run; [discriminate|].
        cbn [print world incr_considered].
        destruct (remove _ p); discriminate.
    + destruct (Qltb ts cutoff); [|discriminate].
      destruct dry_run; [discriminate|].
      destruct (remove _ p); discriminate.
Qed.

Lemma loop_raises files : forall s s' e,
  loop cutoff excluded dry_run verbose age_source s files = (s', Some e) ->
  exists p,
    In p files
    /\ mem (posixpath.normpath p) excluded = false
    /\ ((get_timestamp (world s') p age_source = inl e
         /\ e <> FileNotFoundError)
        \/ (exists ts,
              get_timestamp (world s') p age_source = inr ts
              /\ verbose = true
              /\ dates_error (world s') ts cutoff = Some e)).
Proof.
  induction files as [|p files IH]; intros s s' e H; simpl in H;
    [discriminate|].
  destruct (body s p) as [s1 [e1|]] eqn:B.
  - injection H as <- <-.
    apply loop_body_raises in B as (-> & Hm & Ht).
    exists p. split; [now left | auto].
  - destruct (IH _ _ _ H) as (q & Hq & Hrest).
    exists q. split; [now right | assumption].
Qed.




End Body.

Section DryRun.

Variables (cutoff : Q) (excluded : list string).
Variables (verbose : bool) (age_source : string).

Local Abbreviation old w := (old_enough w cutoff excluded age_source).

Lemma loop_body_dry s p s' r :
  loop_body cutoff excluded true verbose age_source s p = (s', r) ->
  world s' = world s
  /\ (r = None ->
      removed s' = (removed s + if old (world s) p then 1 else 0)%Z
      /\ would_remove (out s')
         = would_remove (out s) ++ if old (world s) p then [p] else []).
Proof.
  unfold loop_body, old_enough.
  change (world (incr_considered s)) with (world s).
  destruct (mem (posixpath.normpath p) excluded).
  { intros [= <- <-]. destruct verbose; simpl;
      rewrite ?would_remove_app, ?app_nil_r, ?Z.add_0_r; simpl;
      rewrite ?app_nil_r; auto. }
  destruct (get_timestamp (world s) p age_source) as [e|ts].
  { destruct (is_FileNotFoundError e); intros [= <- <-];
      [|split; [reflexivity | discriminate]].
    destruct verbose; simpl;
      rewrite ?would_remove_app, ?app_nil_r, ?Z.add_0_r; simpl;
      rewrite ?app_nil_r; auto. }
  destruct (if verbose then dates_error (world s) ts cutoff else None).
  { intros [= <- <-]. split; [reflexivity | discriminate]. }
  destruct (Qltb ts cutoff); intros [= <- <-]; destruct verbose; simpl;
    rewrite ?would_remove_app, ?app_nil_r, ?Z.add_0_r; simpl;
    rewrite ?app_nil_r; auto.
Qed.

Lemma loop_dry files : forall s s' r,
  loop cutoff excluded true verbose age_source s files = (s', r) ->
  world s' = world s
  /\ (r = None ->
      removed s'
      = (removed s + Z.of_nat (List.length (filter (old (world s)) files)))%Z
      /\ would_remove (out s')
         = would_remove (out s) ++ filter (old (world s)) files).
Proof.
  induction files as [|p files IH]; intros s s' r H; simpl in H.
  - injection H as <- <-. simpl. rewrite Z.add_0_r, app_nil_r. auto.
  - destruct (loop_body _ _ _ _ _ s p) as [s1 [e|]] eqn:B.
    + injection H as <- <-.
      apply loop_body_dry in B as [Hw _]. split; [assumption|discriminate].
    + apply loop_body_dry in B as [Hw B]. destruct (B eq_refl) as [Br Bo].
      apply IH in H as [Hw' H]. split; [congruence|].
      intros Hr. destruct (H Hr) as [Hr' Ho']. rewrite Hw in Hr', Ho'.
      rewrite Hr', Ho', Br, Bo. simpl filter.
      destruct (old (world s) p); simpl List.length;
        rewrite <- ?app_assoc, ?app_nil_r; simpl; split; try reflexivity; lia.
Qed.

End DryRun.

(** A cutoff that cannot be computed ends the sweep before the listing. *)
Lemma sweep_overflow w directory exclude_filenames days dry_run verbose
    recursive include_hidden age_source e :
  cutoff_of w days = inl e ->
  remove_old_files w directory exclude_filenames days dry_run verbose
    recursive include_hidden age_source = (initial w, Some e).
Proof. intros H. unfold remove_old_files. now rewrite H. Qed.

Lemma sweep_shrinks w directory exclude_filenames days dry_run verbose
    recursive include_hidden age_source s r :
  remove_old_files w directory exclude_filenames days dry_run verbose
    recursive include_hidden age_source = (s, r) ->
  shrunk w (world s).
Proof.
  unfold remove_old_files.
  destruct (cutoff_of w days) as [e|cutoff];
    [intros [= <- _]; apply shrunk_refl|].
  destruct (iter_files w directory recursive include_hidden) as [e|files];
    [intros [= <- _]; apply shrunk_refl|].
  cbv zeta.
  destruct (loop _ _ dry_run verbose age_source (initial w) files)
    as [s1 r1] eqn:L.
  apply loop_shrinks in L. cbn [initial world] in L.
  destruct r1; intros [= <- _]; exact L.
Qed.

(** What [git_last_commit_timestamp] answers does not depend on the
    tree. *)
Lemma git_same w1 w2 p :
  same_env w1 w2 ->
  git_last_commit_timestamp w1 p = git_last_commit_timestamp w2 p.
Proof.
  intros (_ & _ & Hs & _ & Hi). unfold git_last_commit_timestamp.
  now rewrite Hs, Hi.
Qed.


Lemma cutoff_of_error w days e :
  cutoff_of w days = inl e -> e = OverflowError.
Proof.
  unfold cutoff_of. cbv zeta.
  destruct (float.of_int (days * 86400)) as [e'|x] eqn:E; [|discriminate].
  intros [= <-]. eapply of_int_error, E.
Qed.

Section Whole.

Context {w : World} {directory : string} {exclude_filenames : list string}.
Context {days : Z} {dry_run verbose recursive include_hidden : bool}.
Context {age_source : string} {files : list string}.
Context {s : state} {r : option exn} {cutoff : Q}.

Local Abbreviation excluded := (excluded_of directory exclude_filenames).
Local Abbreviation pulled :=
  (consumed cutoff excluded dry_run verbose age_source (initial w) files).

Hypothesis well_formed : wf_world w = true.
Hypothesis enumerated :
  iter_files w directory recursive include_hidden = inr files.
Hypothesis swept :
  remove_old_files w directory exclude_filenames days dry_run verbose
    recursive include_hidden age_source = (s, r).
Hypothesis in_range : cutoff_of w days = inr cutoff.

Lemma sweep_loop :
  exists s1,
    loop cutoff excluded dry_run verbose age_source (initial w) files = (s1, r)
    /\ world s = world s1 /\ removed s = removed s1
    /\ considered s = considered s1
    /\ skipped_excluded s = skipped_excluded s1.
Proof.
  pose proof swept as H.
  unfold remove_old_files in H. rewrite in_range, enumerated in H.
  cbv zeta in H.
  destruct (loop cutoff excluded dry_run verbose age_source (initial w) files)
    as [s1 [e|]]; injection H as Hs Hr; exists s1;
    rewrite <- Hs, <- Hr; auto.
Qed.

Lemma files_are_leaves p : In p files -> leaf w p.
Proof.
  intros Hp.
  destruct (iter_files_below _ _ _ _ _ _ well_formed enumerated Hp)
    as (rel & Hb & _).
  eapply below_leaf, Hb.
Qed.

Lemma files_resolve_inj p q :
  In p files -> In q files -> resolve w p = resolve w q -> p = q.
Proof.
  intros Hp Hq.
  destruct (iter_files_below _ _ _ _ _ _ well_formed enumerated Hp)
    as (rp & Hbp & _).
  destruct (iter_files_below _ _ _ _ _ _ well_formed enumerated Hq)
    as (rq & Hbq & _).
  eapply below_inj; eassumption.
Qed.

Lemma sweep_invariant :
  sweep_inv w cutoff excluded dry_run verbose age_source pulled (world s).
Proof.
  destruct sweep_loop as (s1 & Hl & Hw & _). rewrite Hw.
  rewrite <- (app_nil_r pulled).
  eapply loop_inv; [apply inv_initial | apply files_are_leaves | exact Hl].
Qed.

(** An entry that is not a directory is untouched unless a path the loop
    pulled resolves to it and was [doomed]. *)
Lemma sweep_keeps p :
  leaf w p ->
  (forall q, In q pulled -> resolve w q = resolve w p ->
             ~ doomed w cutoff excluded dry_run verbose age_source q) ->
  lookup_path (world s) p = lookup_path w p.
Proof.
  intros Hp Hno. destruct sweep_invariant as (_ & _ & Hb & _).
  destruct (Hb p Hp) as [L | (_ & q & Hq & Hres & Hd)]; [assumption|].
  now destruct (Hno q Hq Hres).
Qed.

Lemma sweep_keeps_file p :
  In p files -> ~ doomed w cutoff excluded dry_run verbose age_source p ->
  lookup_path (world s) p = lookup_path w p.
Proof.
  intros Hp Hno. apply sweep_keeps; [now apply files_are_leaves|].
  intros q Hq Hres Hd. apply consumed_incl in Hq.
  now rewrite (files_resolve_inj _ _ Hq Hp Hres) in Hd.
Qed.




End Whole.

End LoopFacts.

(** * Facts shared by the claims *)

Lemma exists_of_lookup_error (w : World) (p : string) (e : exn) :
  os.lookup_path w p = inl e -> genericpath.exists_ w p = false.
Proof. intros H. unfold genericpath.exists_, os.stat. now rewrite H. Qed.

Lemma exists_of_lookup_same (w w' : World) (p : string) :
  os.lookup_path w' p = os.lookup_path w p ->
  genericpath.exists_ w' p = genericpath.exists_ w p.
Proof. intros H. unfold genericpath.exists_, os.stat. now rewrite H. Qed.


Lemma mem_excluded_iff (directory : string) (exclude_filenames : list string)
    (p : string) :
  mem (posixpath.normpath p) (excluded_of directory exclude_filenames) = true
  <-> exists name,
        In name exclude_filenames
        /\ posixpath.normpath p
           = posixpath.normpath (posixpath.join directory name).
Proof.
  rewrite mem_true_iff. unfold excluded_of. rewrite in_map_iff. split.
  - intros (name & E & H). exists name. auto.
  - intros (name & H & E). exists name. auto.
Qed.

Lemma excluded_is_not_doomed (w : World) (cutoff : Q) (excluded : list string)
    (dry_run verbose : bool) (age_source p : string) :
  mem (posixpath.normpath p) excluded = true ->
  ~ doomed w cutoff excluded dry_run verbose age_source p.
Proof. intros H (_ & H' & _). congruence. Qed.


(** What [get_timestamp] raises: the error of [os.stat], or with source
    ["git"] the [OverflowError] of [float(ts)]. *)
Lemma get_timestamp_error (w : World) (p age_source : string) (e : exn) :
  get_timestamp w p age_source = inl e ->
  os.stat w p = inl e
  \/ (age_source = "git" /\ e = OverflowError
      /\ exists n, git_last_commit_timestamp w p = Some n
                   /\ float.of_int n = inl e).
Proof.
  unfold get_timestamp, genericpath.getmtime, genericpath.getatime,
    genericpath.getctime.
  destruct (age_source =? "mtime");
    [destruct (os.stat w p); [intros [= <-]; now left | discriminate]|].
  destruct (age_source =? "atime");
    [destruct (os.stat w p); [intros [= <-]; now left | discriminate]|].
  destruct (age_source =? "ctime");
    [destruct (os.stat w p); [intros [= <-]; now left | discriminate]|].
  destruct (String.eqb_spec age_source "git") as [Hg|_];
    [|destruct (os.stat w p); [intros [= <-]; now left | discriminate]].
  destruct (git_last_commit_timestamp w p) as [n|];
    [|destruct (os.stat w p); [intros [= <-]; now left | discriminate]].
  intros H. right. split; [assumption|].
  split; [eapply of_int_error, H|]. now exists n.
Qed.

(** * The claims *)




(** C2, as the code has it.  A dry run leaves the world as it was.  One
    iteration of a dry run on a candidate that is old enough and not
    excluded leaves the world alone; when the dates of its "Check" line can
    be formatted (or [verbose] is off) it ends normally, raises [removed] by
    one and prints "Would remove"; when one of them cannot, the iteration
    raises that error with [removed] as it was.  When the sweep returns,
    [removed] is the number of such candidates and the "Would remove" lines
    name exactly them, in order.  A second dry run with the same arguments
    on the world the first one left, read at the same clock value, returns
    the same result. *)
Theorem dry_run_only_reports
    (w : World) (directory : string) (exclude_filenames : list string)
    (days : Z) (verbose recursive include_hidden : bool)
    (age_source : string) (s : state) (r : option exn) :
  remove_old_files w directory exclude_filenames days true verbose recursive
    include_hidden age_source = (s, r) ->
  let excluded := excluded_of directory exclude_filenames in
  world s = w
  /\ (forall cutoff s0 p ts,
         mem (posixpath.normpath p) excluded = false ->
         get_timestamp (world s0) p age_source = inr ts -> ts < cutoff ->
         let step := loop_body cutoff excluded true verbose age_source s0 p in
         world (fst step) = world s0
         /\ (check_passes (world s0) verbose ts cutoff ->
             snd step = None
             /\ removed (fst step) = (removed s0 + 1)%Z
             /\ would_remove (out (fst step)) = would_remove (out s0) ++ [p])
         /\ (forall e,
                verbose = true -> dates_error (world s0) ts cutoff = Some e ->
                step = (incr_considered s0, Some e)))
  /\ (forall cutoff files,
         cutoff_of w days = inr cutoff ->
         iter_files w directory recursive include_hidden = inr files ->
         r = None ->
         removed s
         = Z.of_nat (List.length
                       (filter (old_enough w cutoff excluded age_source) files))
         /\ would_remove (out s)
            = filter (old_enough w cutoff excluded age_source) files)
  /\ remove_old_files (world s) directory exclude_filenames days true verbose
       recursive include_hidden age_source = (s, r).
Proof.
  intros H excluded.
  assert (Hw : world s = w).
  { unfold remove_old_files in H.
    destruct (cutoff_of w days) as [e|cutoff]; [now injection H as <- <-|].
    destruct (iter_files w directory recursive include_hidden) as [e|files].
    - now injection H as <- <-.
    - cbv zeta in H.
      destruct (loop _ _ true verbose age_source (initial w) files)
        as [s1 [e|]] eqn:L; injection H as <- <-;
        apply loop_dry in L as [L _]; exact L. }
  split; [assumption|]. split; [|split].
  - intros cutoff s0 p ts Hm Ht Hlt step. subst step.
    apply Qltb_lt in Hlt.
    destruct (loop_body cutoff excluded true verbose age_source s0 p)
      as [s1 r1] eqn:B.
    pose proof (loop_body_dry _ _ _ _ _ _ _ _ B) as [Bw Br].
    cbn [fst snd]. split; [exact Bw|]. split.
    + intros Hk.
      assert (Hr1 : r1 = None).
      { destruct r1 as [e|]; [|reflexivity].
        apply loop_body_raises in B as (_ & _ & [[Hr _] | (ts' & Ht' & Hv & He)]).
        - congruence.
        - rewrite Ht in Ht'. injection Ht' as <-.
          unfold check_passes in Hk. rewrite Hv in Hk. congruence. }
      split; [exact Hr1|]. destruct (Br Hr1) as [Br1 Br2].
      unfold old_enough in Br1, Br2. rewrite Hm, Ht, Hlt in Br1, Br2.
      now split.
    + intros e Hv He. revert B. unfold loop_body.
      change (world (incr_considered s0)) with (world s0).
      rewrite Hm, Ht, Hv, He. now intros [= <- <-].
  - intros cutoff files Hc Hf ->. unfold remove_old_files in H.
    rewrite Hc, Hf in H. cbv zeta in H.
    destruct (loop _ _ true verbose age_source (initial w) files)
      as [s1 [e|]] eqn:L; [discriminate|]. injection H as <-.
    apply loop_dry in L as [_ L]. destruct (L eq_refl) as [L1 L2].
    cbn [initial world removed out] in L1, L2.
    cbn [print removed out]. rewrite would_remove_app, app_nil_r.
    now rewrite L1, L2.
  - now rewrite Hw.
Qed.

Lemma dry_run_only_reports_witness :
  let result :=
    remove_old_files demo "data" ["remove_old_files.py"; "README.md"] 30
      true false false false "mtime" in
  world (fst result) = demo
  /\ removed (fst result) = 1%Z
  /\ would_remove (out (fst result)) = ["data/a.txt"].
Proof.
  intros result.
  destruct (dry_run_only_reports demo "data"
              ["remove_old_files.py"; "README.md"] 30 false false false
              "mtime" (fst result) (snd result))
    as (H1 & _ & H3 & _); [evaluate|].
  split; [exact H1|].
  apply (H3 (inject_Z (today - 30 * day))
            ["data/a.txt"; "data/b.txt"; "data/c.txt";
             "data/remove_old_files.py"; "data/README.md"]); evaluate.
Defined.

(** C2, as stated, fails in its last part: nothing in the configuration
    fixes the clock.  The same configuration swept twice over the same
    directory, which the first dry run left as it was, names a different set
    of files when a file crosses the threshold between the two runs. *)
Lemma dry_runs_differ_when_the_clock_moves :
  let first :=
    remove_old_files demo "data" ["remove_old_files.py"; "README.md"] 30
      true false false false "mtime" in
  let second :=
    remove_old_files demo_later "data" ["remove_old_files.py"; "README.md"]
      30 true false false false "mtime" in
  world (fst first) = demo
  /\ root demo_later = root demo
  /\ cwd demo_later = cwd demo
  /\ subprocess_run demo_later = subprocess_run demo
  /\ would_remove (out (fst first)) = ["data/a.txt"]
  /\ would_remove (out (fst second)) = ["data/a.txt"; "data/c.txt"].
Proof. by_computation. Qed.



(** C4.  With [include_hidden = false], recursive or not, every path the
    enumerator yields is built from [directory] by joining names of the
    tree, these names are the segments of the path relative to [directory],
    and none of them starts with a dot; so [is_hidden] is false of it, and
    nothing under a directory whose name starts with a dot is yielded. *)
Theorem hidden_entries_are_not_yielded
    (w : World) (directory : string) (recursive : bool)
    (files : list string) (p : string) :
  wf_world w = true ->
  iter_files w directory recursive false = inr files ->
  In p files ->
  is_hidden w directory p = false
  /\ exists rel,
       rel <> []
       /\ p = join_all directory rel
       /\ os.resolve w p = os.resolve w directory ++ rel
       /\ Str.split posixpath.sep (posixpath.relpath (cwd w) p directory) = rel
       /\ Forall no_dot rel.
Proof.
  intros Hw Hf Hp.
  destruct (iter_files_below _ _ _ _ _ _ Hw Hf Hp) as (rel & Hb & Hd).
  specialize (Hd eq_refl).
  assert (Hh : is_hidden w directory p = false).
  { rewrite (is_hidden_below _ _ _ _ Hw Hb). now apply existsb_false_Forall. }
  split; [assumption|]. exists rel.
  pose proof Hb as (Hne & Hv & Hj & Hr & _).
  repeat split; try assumption.
  now apply relpath_below.
Qed.

Lemma hidden_entries_are_not_yielded_witness :
  wf_world demo = true
  /\ iter_files demo "data" true false
     = inr ["data/a.txt"; "data/b.txt"; "data/c.txt";
            "data/remove_old_files.py"; "data/README.md";
            "data/sub/old2.txt"; "data/sub/README.md"]
  /\ iter_files demo "data" true true
     = inr ["data/a.txt"; "data/b.txt"; "data/c.txt";
            "data/remove_old_files.py"; "data/README.md";
            "data/sub/old2.txt"; "data/sub/README.md";
            "data/sub/.hidden/old.txt"]
  /\ is_hidden demo "data" "data/sub/old2.txt" = false.
Proof.
  split; [evaluate|]. split; [evaluate|]. split; [evaluate|].
  eapply (hidden_entries_are_not_yielded demo "data" true
            ["data/a.txt"; "data/b.txt"; "data/c.txt";
             "data/remove_old_files.py"; "data/README.md";
             "data/sub/old2.txt"; "data/sub/README.md"]);
    [evaluate | evaluate | do 5 right; now left].
Defined.

(** C5.  With [recursive = false] every path the enumerator yields is
    [join(directory, name)] for a direct entry [name] of [directory] that is
    a regular file.  No path that lies in a subdirectory is yielded, and the
    sweep leaves every entry that lies in a subdirectory as it was, whatever
    its age. *)
Theorem flat_sweep_stays_at_the_top
    (w : World) (directory : string) (include_hidden : bool)
    (files : list string) :
  wf_world w = true ->
  iter_files w directory false include_hidden = inr files ->
  (forall p,
      In p files ->
      exists name t immutable,
        p = posixpath.join directory name
        /\ os.resolve w p = os.resolve w directory ++ [name]
        /\ os.lookup_path w p = inr (File t immutable))
  /\ (forall q sub rest,
         os.resolve w q = os.resolve w directory ++ sub :: rest ->
         rest <> [] ->
         ~ In q files
         /\ forall exclude_filenames days dry_run verbose age_source s r,
              leaf w q ->
              remove_old_files w directory exclude_filenames days dry_run
                verbose false include_hidden age_source = (s, r) ->
              os.lookup_path (world s) q = os.lookup_path w q).
Proof.
  intros Hw Hf.
  assert (Top : forall p, In p files ->
                  exists name t immutable,
                    p = posixpath.join directory name
                    /\ os.resolve w p = os.resolve w directory ++ [name]
                    /\ os.lookup_path w p = inr (File t immutable)).
  { intros p Hp.
    destruct (iter_files_flat_sound _ _ _ _ _ Hw Hf Hp)
      as (name & t & imm & (_ & _ & Hj & Hr & Hne & _) & Hl & _).
    exists name, t, imm. split; [exact Hj|]. split; [exact Hr|].
    now rewrite lookup_path_locate. }
  assert (Deep : forall p q sub rest,
             In p files ->
             os.resolve w q = os.resolve w directory ++ sub :: rest ->
             rest <> [] -> os.resolve w p <> os.resolve w q).
  { intros p q sub rest Hp Hq Hrest E.
    destruct (Top p Hp) as (name & _ & _ & _ & Hr & _).
    rewrite Hr, Hq in E. apply app_inv_head in E. injection E as _ <-.
    now apply Hrest. }
  split; [exact Top|].
  intros q sub rest Hq Hrest. split.
  - intros Hin. now apply (Deep q q sub rest Hin Hq Hrest).
  - intros ex days dry_run verbose src s r Hleaf Hs.
    destruct (cutoff_of w days) as [e|cutoff] eqn:Hc.
    + rewrite (sweep_overflow _ _ _ _ _ _ _ _ _ _ Hc) in Hs.
      now injection Hs as <- _.
    + apply (sweep_keeps Hw Hf Hs Hc q Hleaf).
      intros p Hp E _. apply consumed_incl in Hp.
      now apply (Deep p q sub rest Hp Hq Hrest).
Qed.

Lemma flat_sweep_stays_at_the_top_witness :
  let result :=
    remove_old_files demo "data" [] 30 false false false false "mtime" in
  wf_world demo = true
  /\ iter_files demo "data" false false
     = inr ["data/a.txt"; "data/b.txt"; "data/c.txt";
            "data/remove_old_files.py"; "data/README.md"]
  /\ genericpath.exists_ (world (fst result)) "data/README.md" = false
  /\ os.lookup_path (world (fst result)) "data/sub/old2.txt"
     = inr (File (aged 90) false).
Proof.
  intros result.
  destruct (flat_sweep_stays_at_the_top demo "data" false
              ["data/a.txt"; "data/b.txt"; "data/c.txt";
               "data/remove_old_files.py"; "data/README.md"])
    as (_ & Hdeep); [evaluate | evaluate |].
  split; [evaluate|]. split; [evaluate|]. split; [evaluate|].
  destruct (Hdeep "data/sub/old2.txt" "sub" ["old2.txt"])
    as (_ & Hkeep); [evaluate | discriminate |].
  rewrite (Hkeep [] 30%Z false false "mtime" (fst result) (snd result));
    [evaluate | | evaluate].
  split; [discriminate|]. eexists. split; evaluate.
Defined.

(** C6, as the code has it.  With source ["git"], when the tool exits with
    status 0 and its stripped output is a non-empty integer literal [n] that
    [int] accepts, [get_timestamp] answers as [float(n)] does: with [n]
    rounded to a double, which is [n] itself up to [2 ^ 53], or with
    [OverflowError] when [n] is beyond the doubles.  When the tool exits with
    another status, prints nothing, or the call raises, it returns what
    [os.path.getmtime] returns, and so it does when the output is not an
    integer literal.  The call fails only as [os.path.getmtime] fails, or
    with the [OverflowError] of [float]. *)
Theorem git_timestamp_or_mtime (w : World) (path : string) :
  let run := subprocess_run w ["git"; "log"; "-1"; "--format=%ct"; "--"; path] in
  (forall stdout n,
      run = Completed 0 stdout -> Str.strip stdout <> "" ->
      Str.int (int_max_str_digits w) (Str.strip stdout) = Some n ->
      get_timestamp w path "git" = float.of_int n
      /\ ((Z.abs n <= 2 ^ 53)%Z ->
          exists ts, get_timestamp w path "git" = inr ts /\ ts == inject_Z n)
      /\ (forall e, get_timestamp w path "git" = inl e -> e = OverflowError))
  /\ (forall returncode stdout,
         run = Completed returncode stdout ->
         returncode <> 0%Z \/ Str.strip stdout = "" ->
         get_timestamp w path "git" = genericpath.getmtime w path)
  /\ (run = Raised ->
      get_timestamp w path "git" = genericpath.getmtime w path)
  /\ (forall stdout,
         run = Completed 0 stdout ->
         Str.int (int_max_str_digits w) (Str.strip stdout) = None ->
         get_timestamp w path "git" = genericpath.getmtime w path)
  /\ (forall e,
         get_timestamp w path "git" = inl e ->
         (git_last_commit_timestamp w path = None
          /\ genericpath.getmtime w path = inl e)
         \/ (e = OverflowError
             /\ exists n, git_last_commit_timestamp w path = Some n
                          /\ float.of_int n = inl e)).
Proof.
  intros run.
  assert (Parsed : forall stdout n,
             run = Completed 0 stdout -> Str.strip stdout <> "" ->
             Str.int (int_max_str_digits w) (Str.strip stdout) = Some n ->
             get_timestamp w path "git" = float.of_int n).
  { intros stdout n Hrun Hne Hint. apply String.eqb_neq in Hne.
    unfold get_timestamp, git_last_commit_timestamp.
    cbn [String.eqb Ascii.eqb Bool.eqb]. fold run. rewrite Hrun.
    cbn [Z.eqb negb]. cbv zeta. now rewrite Hne, Hint. }
  split; [|split; [|split; [|split]]].
  - intros stdout n Hrun Hne Hint.
    pose proof (Parsed stdout n Hrun Hne Hint) as G.
    split; [exact G|]. rewrite G. split.
    + intros Hn. now apply of_int_exact.
    + intros e He. eapply of_int_error, He.
  - intros rc stdout Hrun [Hrc | Hout];
      unfold get_timestamp, git_last_commit_timestamp;
      cbn [String.eqb Ascii.eqb Bool.eqb]; fold run; rewrite Hrun.
    + apply Z.eqb_neq in Hrc. now rewrite Hrc.
    + destruct (rc =? 0)%Z; cbn [negb]; [|reflexivity].
      cbv zeta. now rewrite Hout.
  - intros Hrun. unfold get_timestamp, git_last_commit_timestamp.
    cbn [String.eqb Ascii.eqb Bool.eqb]. fold run. now rewrite Hrun.
  - intros stdout Hrun Hint. unfold get_timestamp, git_last_commit_timestamp.
    cbn [String.eqb Ascii.eqb Bool.eqb]. fold run. rewrite Hrun.
    cbn [Z.eqb negb]. cbv zeta. rewrite Hint.
    now destruct (Str.strip stdout =? "").
  - intros e He.
    destruct (get_timestamp_error _ _ _ _ He) as [Hstat | (_ & Ho & n & Hg & Hf)].
    + destruct (git_last_commit_timestamp w path) as [n|] eqn:Hg.
      * right. unfold get_timestamp in He.
        cbn [String.eqb Ascii.eqb Bool.eqb] in He. rewrite Hg in He.
        split; [eapply of_int_error, He | now exists n].
      * left. split; [reflexivity|].
        unfold genericpath.getmtime. now rewrite Hstat.
    + right. split; [exact Ho | now exists n].
Qed.

Lemma git_timestamp_or_mtime_witness :
  get_timestamp demo "data/b.txt" "git" = inr (inject_Z 1700000000)
  /\ get_timestamp demo "data/a.txt" "git"
     = genericpath.getmtime demo "data/a.txt"
  /\ genericpath.getmtime demo "data/a.txt" = inr (inject_Z (today - 40 * day)).
Proof.
  split; [|split; [|evaluate]].
  - destruct (proj1 (git_timestamp_or_mtime demo "data/b.txt")
                ("1700000000" ++ newline)%string 1700000000%Z) as [-> _];
      [evaluate | vm_compute; discriminate | evaluate | evaluate].
  - apply (proj1 (proj2 (git_timestamp_or_mtime demo "data/a.txt")) 128%Z "");
      [evaluate | left; discriminate].
Defined.

(** C6, as stated, fails twice.  A tool that succeeds with non-empty output
    does not always give the commit time: when the output is not an integer
    literal (here a line about the signature comes first) [int] raises, the
    same [except] catches it, and the modification time is returned.  And an
    error does reach the caller: when the tool prints an integer beyond the
    doubles, [float(ts)], which is outside the [try], raises
    [OverflowError]. *)
Lemma git_output_is_not_always_a_timestamp :
  subprocess_run signing ["git"; "log"; "-1"; "--format=%ct"; "--"; "data/a.txt"]
  = Completed 0 ("gpg: Good signature" ++ newline ++ "1700000000" ++ newline)
  /\ get_timestamp signing "data/a.txt" "git"
     = inr (inject_Z (today - 40 * day))
  /\ genericpath.getmtime signing "data/a.txt"
     = inr (inject_Z (today - 40 * day))
  /\ subprocess_run far ["git"; "log"; "-1"; "--format=%ct"; "--"; "data/a.txt"]
     = Completed 0 (String "1" (zeros 400) ++ newline)
  /\ git_last_commit_timestamp far "data/a.txt" = Some (10 ^ 400)%Z
  /\ genericpath.getmtime far "data/a.txt" = inr (inject_Z (today - 40 * day))
  /\ get_timestamp far "data/a.txt" "git" = inl OverflowError.
Proof. by_computation. Qed.

(** C7, as the code has it.  [get_timestamp] fails with the error of the
    [os.stat] call on the path ([FileNotFoundError] when the path does not
    exist, another [OSError] otherwise) or, with source ["git"], with the
    [OverflowError] of [float(ts)].  The loop handles [FileNotFoundError]
    locally: the candidate is skipped and only [considered] changes.  Every
    other error of the resolution leaves the loop and ends the sweep, and so
    does an error of the dates of the "Check" line of a verbose sweep.  So a
    sweep raises the [OverflowError] of its cutoff, or the error of the first
    step of the enumeration (the directory cannot be listed), or the error,
    other than [FileNotFoundError], of one timestamp resolution, or the
    error of one "Check" line; a failed deletion never ends it. *)
Theorem timestamp_errors_skip_or_abort :
  (forall w p age_source e,
      get_timestamp w p age_source = inl e ->
      os.stat w p = inl e
      \/ (age_source = "git" /\ e = OverflowError
          /\ exists n, git_last_commit_timestamp w p = Some n
                       /\ float.of_int n = inl e))
  /\ (forall cutoff excluded dry_run verbose age_source s p,
         mem (posixpath.normpath p) excluded = false ->
         get_timestamp (world s) p age_source = inl FileNotFoundError ->
         exists s',
           loop_body cutoff excluded dry_run verbose age_source s p
           = (s', None)
           /\ world s' = world s /\ removed s' = removed s
           /\ skipped_excluded s' = skipped_excluded s
           /\ considered s' = (considered s + 1)%Z)
  /\ (forall cutoff excluded dry_run verbose age_source s p e rest,
         mem (posixpath.normpath p) excluded = false ->
         get_timestamp (world s) p age_source = inl e ->
         e <> FileNotFoundError ->
         loop cutoff excluded dry_run verbose age_source s (p :: rest)
         = (incr_considered s, Some e))
  /\ (forall cutoff excluded dry_run age_source s p ts e rest,
         mem (posixpath.normpath p) excluded = false ->
         get_timestamp (world s) p age_source = inr ts ->
         dates_error (world s) ts cutoff = Some e ->
         loop cutoff excluded dry_run true age_source s (p :: rest)
         = (incr_considered s, Some e))
  /\ (forall w directory exclude_filenames days dry_run verbose recursive
             include_hidden age_source s e,
         remove_old_files w directory exclude_filenames days dry_run verbose
           recursive include_hidden age_source = (s, Some e) ->
         (cutoff_of w days = inl e /\ e = OverflowError)
         \/ exists cutoff,
              cutoff_of w days = inr cutoff
              /\ (iter_files w directory recursive include_hidden = inl e
                  \/ exists files p,
                       iter_files w directory recursive include_hidden
                       = inr files
                       /\ In p files
                       /\ ((get_timestamp (world s) p age_source = inl e
                            /\ e <> FileNotFoundError)
                           \/ (exists ts,
                                 get_timestamp (world s) p age_source = inr ts
                                 /\ verbose = true
                                 /\ dates_error (world s) ts cutoff
                                    = Some e)))).
Proof.
  split; [|split; [|split; [|split]]].
  - intros w p src e. apply get_timestamp_error.
  - intros cutoff excluded dry_run verbose src s p Hm Ht.
    unfold loop_body. change (world (incr_considered s)) with (world s).
    rewrite Hm, Ht. cbn [is_FileNotFoundError].
    eexists. split; [reflexivity|]. now destruct verbose.
  - intros cutoff excluded dry_run verbose src s p e rest Hm Ht He.
    cbn [loop]. unfold loop_body.
    change (world (incr_considered s)) with (world s).
    rewrite Hm, Ht. now destruct e.
  - intros cutoff excluded dry_run src s p ts e rest Hm Ht He.
    cbn [loop]. unfold loop_body.
    change (world (incr_considered s)) with (world s).
    now rewrite Hm, Ht, He.
  - intros w directory ex days dry_run verbose recursive hid src s e H.
    unfold remove_old_files in H.
    destruct (cutoff_of w days) as [e0|cutoff] eqn:Hc.
    { left. injection H as _ <-. split; [reflexivity|].
      eapply cutoff_of_error, Hc. }
    right. exists cutoff. split; [reflexivity|].
    destruct (iter_files w directory recursive hid) as [e'|files].
    + left. congruence.
    + right. exists files. cbv zeta in H.
      destruct (loop _ _ dry_run verbose src (initial w) files)
        as [s1 [e1|]] eqn:L; [|discriminate].
      injection H as <- <-.
      destruct (loop_raises _ _ _ _ _ _ _ _ _ L) as (p & Hp & _ & Ht).
      exists p. auto.
Qed.

Lemma timestamp_errors_skip_or_abort_witness :
  (exists s',
      loop_body (inject_Z (today - 30 * day)) [] false false "mtime"
        (initial dangling) "data/gone" = (s', None)
      /\ world s' = dangling /\ removed s' = 0%Z /\ skipped_excluded s' = 0%Z
      /\ considered s' = 1%Z)
  /\ loop (inject_Z (today - 30 * day)) [] false false "mtime"
       (initial looped) ["data/sub/loop"; "data/sub/old2.txt"]
     = (incr_considered (initial looped), Some OSError_ELOOP).
Proof.
  split.
  - apply (proj1 (proj2 timestamp_errors_skip_or_abort)); evaluate.
  - apply (proj1 (proj2 (proj2 timestamp_errors_skip_or_abort)));
      [evaluate | evaluate | discriminate].
Defined.

(** C7, as stated, fails.  The directory to sweep exists and is listed; one
    of its entries is a symbolic link that loops.  The entry is there
    ([os.walk] yields it), resolving its timestamp fails with an [OSError]
    that is not [FileNotFoundError], the loop does not handle it, and the
    sweep ends with that exception before it reaches the next file. *)
Lemma loop_link_aborts_the_sweep :
  let result :=
    remove_old_files looped "data" [] 30 false false true false "mtime" in
  iter_files looped "data" true false
  = inr ["data/a.txt"; "data/sub/loop"; "data/sub/old2.txt"]
  /\ os.lookup_path looped "data/sub/loop" = inr LoopLink
  /\ get_timestamp looped "data/sub/loop" "mtime" = inl OSError_ELOOP
  /\ snd result = Some OSError_ELOOP
  /\ considered (fst result) = 2%Z
  /\ genericpath.exists_ (world (fst result)) "data/sub/old2.txt" = true.
Proof. by_computation. Qed.

(** C8.  In a sweep that is not a dry run, when the iteration reaches the
    deletion of a candidate that is old enough and not excluded (the dates
    of its "Check" line, if [verbose], are formatted) and [os.remove]
    raises, the iteration prints the error and ends normally: the file
    system is as before, [removed] and [skipped_excluded] keep their values,
    [considered] has gone up by one, and the loop goes on with the next
    candidate. *)
Theorem deletion_failure_is_logged_and_skipped
    (cutoff : Q) (excluded : list string) (verbose : bool)
    (age_source : string) (s : state) (p : string) (ts : Q) (e : exn)
    (rest : list string) :
  mem (posixpath.normpath p) excluded = false ->
  get_timestamp (world s) p age_source = inr ts ->
  check_passes (world s) verbose ts cutoff ->
  ts < cutoff ->
  os.remove (world s) p = inl e ->
  exists s',
    loop_body cutoff excluded false verbose age_source s p = (s', None)
    /\ world s' = world s
    /\ removed s' = removed s
    /\ skipped_excluded s' = skipped_excluded s
    /\ considered s' = (considered s + 1)%Z
    /\ out s'
       = out s
         ++ (if verbose then [Check_line p ts cutoff age_source] else [])
         ++ [Could_not_remove p e]
    /\ loop cutoff excluded false verbose age_source s (p :: rest)
       = loop cutoff excluded false verbose age_source s' rest.
Proof.
  intros Hm Ht Hk Hc Hr. apply Qltb_lt in Hc. unfold check_passes in Hk.
  cbn [loop]. unfold loop_body.
  change (world (incr_considered s)) with (world s).
  rewrite Hm, Ht, Hk, Hc.
  destruct verbose; cbn [world print incr_considered]; rewrite Hr;
    eexists; (split; [reflexivity|]); cbn; rewrite <- ?app_assoc;
    repeat split; reflexivity.
Qed.

Lemma deletion_failure_is_logged_and_skipped_witness :
  exists s',
    loop_body (inject_Z (today - 30 * day)) [] false true "mtime"
      (initial locked) "data/keep.log" = (s', None)
    /\ world s' = locked /\ removed s' = 0%Z /\ skipped_excluded s' = 0%Z
    /\ considered s' = 1%Z
    /\ out s'
       = [Check_line "data/keep.log" (inject_Z (today - 90 * day))
            (inject_Z (today - 30 * day)) "mtime";
          Could_not_remove "data/keep.log" PermissionError].
Proof.
  destruct (deletion_failure_is_logged_and_skipped
              (inject_Z (today - 30 * day)) [] true "mtime" (initial locked)
              "data/keep.log" (inject_Z (today - 90 * day)) PermissionError [])
    as (s' & H1 & H2 & H3 & H4 & H5 & H6 & _);
    [evaluate | evaluate | evaluate | evaluate | evaluate |].
  exists s'. repeat split; assumption.
Defined.

(** C9.  The counters of the loop.  After every prefix of the candidates
    (so at every point of the loop, and at its end) [removed] and
    [skipped_excluded] are not negative, their sum is at most [considered],
    and [considered] is the number of candidates the loop has pulled; the
    state after a prefix is the state the loop passes through; and one
    iteration raises [considered] by one and at most one of [removed] and
    [skipped_excluded] by one. *)
Theorem counters_invariant
    (cutoff : Q) (excluded : list string) (dry_run verbose : bool)
    (age_source : string) (w : World) :
  (forall files,
      let s := fst (loop cutoff excluded dry_run verbose age_source
                      (initial w) files) in
      counters_ok s
      /\ considered s
         = Z.of_nat (List.length
                       (consumed cutoff excluded dry_run verbose age_source
                          (initial w) files))
      /\ (snd (loop cutoff excluded dry_run verbose age_source
                 (initial w) files) = None ->
          considered s = Z.of_nat (List.length files)))
  /\ (forall s0 pre post,
         loop cutoff excluded dry_run verbose age_source s0 (pre ++ post)
         = match loop cutoff excluded dry_run verbose age_source s0 pre with
           | (s1, None) =>
               loop cutoff excluded dry_run verbose age_source s1 post
           | (s1, Some e) => (s1, Some e)
           end)
  /\ (forall s0 p,
         let s1 := fst (loop_body cutoff excluded dry_run verbose age_source
                          s0 p) in
         considered s1 = (considered s0 + 1)%Z
         /\ ((removed s1 = removed s0
              /\ skipped_excluded s1 = skipped_excluded s0)
             \/ (removed s1 = (removed s0 + 1)%Z
                 /\ skipped_excluded s1 = skipped_excluded s0)
             \/ (removed s1 = removed s0
                 /\ skipped_excluded s1 = (skipped_excluded s0 + 1)%Z))).
Proof.
  assert (Step : forall s0 p,
             let s1 := fst (loop_body cutoff excluded dry_run verbose
                              age_source s0 p) in
             considered s1 = (considered s0 + 1)%Z
             /\ ((removed s1 = removed s0
                  /\ skipped_excluded s1 = skipped_excluded s0)
                 \/ (removed s1 = (removed s0 + 1)%Z
                     /\ skipped_excluded s1 = skipped_excluded s0)
                 \/ (removed s1 = removed s0
                     /\ skipped_excluded s1 = (skipped_excluded s0 + 1)%Z))).
  { intros s0 p s1. subst s1.
    destruct (loop_body cutoff excluded dry_run verbose age_source s0 p)
      as [s1 r] eqn:B.
    exact (loop_body_counters _ _ _ _ _ _ _ _ _ B). }
  assert (Gen : forall files s0,
             let s := fst (loop cutoff excluded dry_run verbose age_source
                             s0 files) in
             let n := Z.of_nat (List.length
                                  (consumed cutoff excluded dry_run verbose
                                     age_source s0 files)) in
             considered s = (considered s0 + n)%Z
             /\ (removed s0 <= removed s)%Z
             /\ (skipped_excluded s0 <= skipped_excluded s)%Z
             /\ (removed s + skipped_excluded s
                 <= removed s0 + skipped_excluded s0 + n)%Z
             /\ (snd (loop cutoff excluded dry_run verbose age_source
                        s0 files) = None ->
                 n = Z.of_nat (List.length files))).
  { induction files as [|p files IH]; intros s0; cbn [loop consumed].
    - cbn. repeat split; try lia.
    - pose proof (Step s0 p) as St. cbv zeta in St.
      destruct (loop_body cutoff excluded dry_run verbose age_source s0 p)
        as [s1 [e|]]; cbn [fst snd] in *.
      + cbn [List.length]. repeat split; try lia. discriminate.
      + specialize (IH s1). cbv zeta in IH.
        cbn [List.length]. rewrite !Nat2Z.inj_succ.
        destruct IH as (I1 & I2 & I3 & I4 & I5).
        repeat split; try lia. intros H. specialize (I5 H). lia. }
  split; [|split; [|exact Step]].
  - intros files s. subst s. specialize (Gen files (initial w)).
    cbv zeta in Gen. cbn [initial considered removed skipped_excluded] in Gen.
    destruct Gen as (G1 & G2 & G3 & G4 & G5).
    unfold counters_ok. repeat split; try lia. intros H. specialize (G5 H). lia.
  - intros s0 pre. revert s0.
    induction pre as [|p pre IH]; intros s0 post; cbn [app loop]; [reflexivity|].
    destruct (loop_body cutoff excluded dry_run verbose age_source s0 p)
      as [s1 [e|]]; [reflexivity | apply IH].
Qed.

(** C10.  [get_timestamp] accepts every source string: a source that is
    none of ["mtime"], ["atime"], ["ctime"], ["git"] is answered with the
    modification time of the file, exactly as [os.path.getmtime] answers. *)
Theorem get_timestamp_unknown_source (w : World) (path source : string) :
  source <> "mtime" -> source <> "atime" -> source <> "ctime" ->
  source <> "git" ->
  get_timestamp w path source = genericpath.getmtime w path.
Proof.
  intros H1 H2 H3 H4. unfold get_timestamp.
  apply String.eqb_neq in H1, H2, H3, H4. now rewrite H1, H2, H3, H4.
Qed.

Lemma get_timestamp_unknown_source_witness :
  "birthtime" <> "mtime" /\ "birthtime" <> "atime" /\ "birthtime" <> "ctime"
  /\ "birthtime" <> "git"
  /\ get_timestamp demo "data/a.txt" "birthtime"
     = genericpath.getmtime demo "data/a.txt"
  /\ genericpath.getmtime demo "data/a.txt" = inr (inject_Z (today - 40 * day)).
Proof.
  repeat (split; [discriminate|]).
  split; [apply get_timestamp_unknown_source; discriminate | reflexivity].
Defined.

(** The error paths of the driver on the example tree: a cutoff beyond the
    years [time.localtime] can represent stops the verbose sweep at its
    first "Check" line, with nothing deleted, while the same sweep without
    [verbose] returns; and a number of days whose seconds do not fit a
    float stops the sweep before the enumeration. *)
Example sweep_error_paths :
  let loud := remove_old_files demo "data" [] (- 10 ^ 12) false true false
                false "mtime" in
  let quiet := remove_old_files demo "data" [] (- 10 ^ 12) false false false
                 false "mtime" in
  let lost := remove_old_files demo "data" [] (10 ^ 400) false false false
                false "mtime" in
  cutoff_of demo (- 10 ^ 12) = inr (inject_Z 86400001728000000)
  /\ loud = (incr_considered (initial demo), Some OSError_EOVERFLOW)
  /\ snd quiet = None
  /\ removed (fst quiet) = 5%Z
  /\ cutoff_of demo (10 ^ 400) = inl OverflowError
  /\ lost = (initial demo, Some OverflowError).
Proof. by_computation. Qed.
(** * Further properties of the program *)

Section VerboseFacts.

Variables (cutoff : Q) (excluded : list string).
Variables (dry_run : bool) (age_source : string).

Lemma quieter_print_hidden l sv sq :
  always_printed l = false -> quieter sv sq -> quieter (print l sv) sq.
Proof.
  intros Hl (H1 & H2 & H3 & H4 & H5). repeat split; try assumption.
  cbn [print out]. rewrite filter_app. cbn [filter]. rewrite Hl.
  now rewrite app_nil_r.
Qed.

Lemma quieter_print_shown l sv sq :
  always_printed l = true -> quieter sv sq ->
  quieter (print l sv) (print l sq).
Proof.
  intros Hl (H1 & H2 & H3 & H4 & H5). repeat split; try assumption.
  cbn [print out]. rewrite filter_app. cbn [filter]. rewrite Hl.
  now rewrite H5.
Qed.

(** The output only grows. *)
Lemma loop_body_out verbose s p :
  exists rest,
    out (fst (loop_body cutoff excluded dry_run verbose age_source s p))
    = out s ++ rest.
Proof.
  unfold loop_body.
  destruct (mem (posixpath.normpath p) excluded).
  { destruct verbose; cbn; eauto using app_nil_r. }
  destruct (get_timestamp _ p age_source) as [e|ts].
  { destruct (is_FileNotFoundError e); destruct verbose; cbn;
      eauto using app_nil_r. }
  destruct (if verbose then dates_error _ ts cutoff else None);
    [cbn; eauto using app_nil_r|].
  destruct (Qltb ts cutoff);
    [|destruct verbose; cbn; eauto using app_nil_r].
  destruct dry_run.
  { destruct verbose; cbn; rewrite <- ?app_assoc; eauto. }
  destruct (os.remove _ p); destruct verbose; cbn; rewrite <- ?app_assoc;
    eauto.
Qed.

Lemma loop_out verbose files : forall s,
  exists rest,
    out (fst (loop cutoff excluded dry_run verbose age_source s files))
    = out s ++ rest.
Proof.
  induction files as [|p files IH]; intros s; cbn [loop].
  - exists []. cbn. now rewrite app_nil_r.
  - destruct (loop_body_out verbose s p) as [r1 H1].
    destruct (loop_body cutoff excluded dry_run verbose age_source s p)
      as [s1 [e|]]; cbn [fst] in *; [eauto|].
    destruct (IH s1) as [r2 H2]. rewrite H2, H1, <- app_assoc. eauto.
Qed.

(** One iteration with and without [verbose]: the two agree but for the
    lines that [verbose] adds, unless the dates of the "Check" line
    raise. *)
Lemma loop_body_quieter sv sq p :
  quieter sv sq ->
  (quieter (fst (loop_body cutoff excluded dry_run true age_source sv p))
           (fst (loop_body cutoff excluded dry_run false age_source sq p))
   /\ snd (loop_body cutoff excluded dry_run true age_source sv p)
      = snd (loop_body cutoff excluded dry_run false age_source sq p))
  \/ (exists e ts,
        loop_body cutoff excluded dry_run true age_source sv p
        = (incr_considered sv, Some e)
        /\ mem (posixpath.normpath p) excluded = false
        /\ get_timestamp (world sv) p age_source = inr ts
        /\ dates_error (world sv) ts cutoff = Some e).
Proof.
  intros Q. pose proof Q as (H1 & H2 & H3 & H4 & H5).
  assert (Qc : quieter (incr_considered sv) (incr_considered sq)).
  { repeat split; cbn; congruence. }
  unfold loop_body.
  change (world (incr_considered sq)) with (world sq).
  change (world (incr_considered sv)) with (world sv).
  rewrite H1.
  destruct (mem (posixpath.normpath p) excluded) eqn:Hm.
  { left. split; [|reflexivity]. cbn [fst].
    apply quieter_print_hidden; [reflexivity|].
    destruct Qc as (C1 & C2 & C3 & C4 & C5). repeat split; cbn; congruence. }
  destruct (get_timestamp (world sv) p age_source) as [e|ts] eqn:Ht.
  { left. destruct (is_FileNotFoundError e); split; try reflexivity;
      cbn [fst]; [now apply quieter_print_hidden | assumption]. }
  destruct (dates_error (world sv) ts cutoff) as [e|] eqn:He.
  { right. exists e, ts. repeat split; first [reflexivity | assumption]. }
  left.
  assert (Qk : quieter
                 (print (Check_line p ts cutoff age_source) (incr_considered sv))
                 (incr_considered sq))
    by now apply quieter_print_hidden.
  destruct (Qltb ts cutoff); [|now split].
  destruct dry_run.
  { split; [|reflexivity]. cbn [fst].
    pose proof (quieter_print_shown (Would_remove p) _ _ eq_refl Qk)
      as (C1 & C2 & C3 & C4 & C5).
    repeat split; cbn in *; congruence. }
  cbn [world print incr_considered].
  destruct (os.remove (world sv) p) as [e|w']; split; try reflexivity;
    cbn [fst].
  - now apply quieter_print_shown.
  - assert (Qw : quieter
                   (set_world w' (print (Check_line p ts cutoff age_source)
                                    (incr_considered sv)))
                   (set_world w' (incr_considered sq))).
    { destruct Qk as (C1 & C2 & C3 & C4 & C5). repeat split; cbn in *;
        congruence. }
    pose proof (quieter_print_shown (Removed_line p) _ _ eq_refl Qw)
      as (C1 & C2 & C3 & C4 & C5).
    repeat split; cbn in *; congruence.
Qed.

Lemma loop_quieter files : forall sv sq,
  quieter sv sq ->
  let loud := loop cutoff excluded dry_run true age_source sv files in
  let quiet := loop cutoff excluded dry_run false age_source sq files in
  (quieter (fst loud) (fst quiet) /\ snd loud = snd quiet)
  \/ (exists e p ts,
        snd loud = Some e /\ In p files
        /\ mem (posixpath.normpath p) excluded = false
        /\ get_timestamp (world (fst loud)) p age_source = inr ts
        /\ dates_error (world (fst loud)) ts cutoff = Some e
        /\ exists rest,
             out (fst quiet) = filter always_printed (out (fst loud)) ++ rest).
Proof.
  induction files as [|p files IH]; intros sv sq Q; cbv zeta.
  - left. now split.
  - destruct (loop_body_quieter sv sq p Q)
      as [[Q1 E] | (e & ts & Hb & Hm & Ht & He)].
    + cbn [loop].
      destruct (loop_body cutoff excluded dry_run true age_source sv p)
        as [sv1 rv].
      destruct (loop_body cutoff excluded dry_run false age_source sq p)
        as [sq1 rq].
      cbn [fst snd] in *. subst rq. destruct rv as [e|]; [left; now split|].
      destruct (IH sv1 sq1 Q1) as [A | (e & q & ts & A1 & A2 & A3)];
        [now left|].
      right. exists e, q, ts. split; [exact A1|]. split; [now right|].
      exact A3.
    + right. exists e, p, ts.
      destruct (loop_out false (p :: files) sq) as [rest Hrest].
      cbn [loop] in *. rewrite Hb. cbn [fst snd].
      change (world (incr_considered sv)) with (world sv).
      split; [reflexivity|]. split; [now left|]. split; [exact Hm|].
      split; [exact Ht|]. split; [exact He|].
      exists rest. rewrite Hrest.
      destruct Q as (_ & _ & _ & _ & ->). reflexivity.
Qed.

End VerboseFacts.

(** X1.  [verbose] adds lines, and the exceptions of the dates it prints.
    When the sweep with [verbose] returns, the sweep without it returns too.
    Either the two sweeps end alike, with the same file system, the same
    counters and the same exception if any, the output without [verbose]
    being the output with it less the "Skip excluded", "Missing" and "Check"
    lines; or the sweep with [verbose] raises the error of the dates of a
    "Check" line, and the output without [verbose] starts with what the
    other one had printed, less those lines. *)
Theorem verbose_only_adds_lines
    (w : World) (directory : string) (exclude_filenames : list string)
    (days : Z) (dry_run recursive include_hidden : bool)
    (age_source : string) :
  let loud := remove_old_files w directory exclude_filenames days dry_run
                true recursive include_hidden age_source in
  let quiet := remove_old_files w directory exclude_filenames days dry_run
                 false recursive include_hidden age_source in
  let alike :=
    world (fst quiet) = world (fst loud)
    /\ removed (fst quiet) = removed (fst loud)
    /\ considered (fst quiet) = considered (fst loud)
    /\ skipped_excluded (fst quiet) = skipped_excluded (fst loud)
    /\ snd quiet = snd loud
    /\ out (fst quiet) = filter always_printed (out (fst loud)) in
  (snd loud = None -> alike)
  /\ (alike
      \/ exists e cutoff files p ts,
           snd loud = Some e
           /\ cutoff_of w days = inr cutoff
           /\ iter_files w directory recursive include_hidden = inr files
           /\ In p files
           /\ get_timestamp (world (fst loud)) p age_source = inr ts
           /\ dates_error (world (fst loud)) ts cutoff = Some e
           /\ exists rest,
                out (fst quiet)
                = filter always_printed (out (fst loud)) ++ rest).
Proof.
  intros loud quiet alike.
  cut (alike
       \/ exists e cutoff files p ts,
            snd loud = Some e
            /\ cutoff_of w days = inr cutoff
            /\ iter_files w directory recursive include_hidden = inr files
            /\ In p files
            /\ get_timestamp (world (fst loud)) p age_source = inr ts
            /\ dates_error (world (fst loud)) ts cutoff = Some e
            /\ exists rest,
                 out (fst quiet)
                 = filter always_printed (out (fst loud)) ++ rest).
  { intros H. split; [|exact H]. intros Hr.
    destruct H as [H | (e & _ & _ & _ & _ & He & _)]; [exact H | congruence]. }
  subst alike loud quiet. unfold remove_old_files.
  destruct (cutoff_of w days) as [e|cutoff] eqn:Hc.
  { left. cbn. repeat split; reflexivity. }
  destruct (iter_files w directory recursive include_hidden) as [e|files] eqn:Hf.
  { left. cbn. repeat split; reflexivity. }
  cbv zeta.
  assert (Q0 : quieter (initial w) (initial w)) by (repeat split; reflexivity).
  destruct (loop_quieter cutoff
              (excluded_of directory exclude_filenames) dry_run age_source
              files _ _ Q0) as [[Q E] | (e & p & ts & He & Hp & _ & Ht & Hd & Ho)].
  - left.
    destruct (loop _ _ dry_run true age_source (initial w) files) as [sv rv].
    destruct (loop _ _ dry_run false age_source (initial w) files) as [sq rq].
    cbn [fst snd] in Q, E. subst rq.
    destruct Q as (H1 & H2 & H3 & H4 & H5).
    destruct rv as [e|]; cbn [fst snd].
    + repeat split; assumption.
    + cbn [print world removed considered skipped_excluded out].
      rewrite filter_app. cbn [filter always_printed].
      rewrite H1, H2, H3, H4, H5. repeat split; reflexivity.
  - right. exists e, cutoff, files, p, ts.
    destruct (loop _ _ dry_run true age_source (initial w) files) as [sv rv].
    cbn [fst snd] in He, Ht, Hd, Ho. subst rv. cbn [fst snd].
    repeat (split; [first [reflexivity | assumption]|]).
    destruct Ho as [rest Ho].
    destruct (loop _ _ dry_run false age_source (initial w) files)
      as [sq [eq|]]; cbn [fst snd] in *.
    + now exists rest.
    + exists (rest ++ [Done_line (considered sq) (removed sq) dry_run
                         (skipped_excluded sq) age_source days recursive]).
      cbn [print out]. now rewrite Ho, app_assoc.
Qed.

(** X2.  A sweep only unlinks entries that are not directories.  Whatever
    the arguments and however the sweep ends: a path that exists afterwards
    existed before; a path that is a regular file afterwards was the same
    regular file before, with the same timestamps; and a path that was a
    directory before is a directory afterwards. *)
Theorem sweep_only_unlinks_files
    (w : World) (directory : string) (exclude_filenames : list string)
    (days : Z) (dry_run verbose recursive include_hidden : bool)
    (age_source : string) (q : string) :
  let result := remove_old_files w directory exclude_filenames days dry_run
                  verbose recursive include_hidden age_source in
  let w' := world (fst result) in
  (genericpath.exists_ w' q = true -> genericpath.exists_ w q = true)
  /\ (genericpath.isfile w' q = true ->
      os.lookup_path w q = os.lookup_path w' q
      /\ os.stat w q = os.stat w' q)
  /\ (forall c,
         os.lookup_path w q = inr c -> is_dir c = true ->
         exists c', os.lookup_path w' q = inr c' /\ is_dir c' = true).
Proof.
  intros result w'.
  assert (S : shrunk w w').
  { unfold w', result.
    destruct (remove_old_files w directory exclude_filenames days dry_run
                verbose recursive include_hidden age_source) as [s r] eqn:H.
    exact (sweep_shrinks _ _ _ _ _ _ _ _ _ _ _ H). }
  split; [|split].
  - unfold genericpath.exists_, os.stat.
    destruct (os.lookup_path w' q) as [e|c'] eqn:L; [discriminate|].
    destruct (shrunk_lookup_path _ _ _ _ S L) as (c & -> & K & F).
    destruct c' as [? ?| | |]; try discriminate; intros _.
    + now rewrite (F eq_refl).
    + now destruct c.
  - unfold genericpath.isfile, os.stat.
    destruct (os.lookup_path w' q) as [e|c'] eqn:L; [discriminate|].
    destruct (shrunk_lookup_path _ _ _ _ S L) as (c & Hc & K & F).
    destruct c' as [? ?| | |]; try discriminate.
    + intros _. rewrite Hc, (F eq_refl). auto.
  - intros c L K. exact (shrunk_dir_stays _ _ _ _ S L K).
Qed.

Lemma stat_of_lookup_error (w : World) (p : string) (e : exn) :
  os.lookup_path w p = inl e -> os.stat w p = inl e.
Proof. intros H. unfold os.stat. now rewrite H. Qed.

(** X3.  What a sweep that is not recursive can raise once the directory
    has been listed.  Its candidates are regular files, and the only way
    [os.stat] can fail on one during the loop is that the file is gone,
    which the loop skips.  So the sweep raises nothing but the
    [OverflowError] of its cutoff, the [OverflowError] of [float(ts)] with
    source ["git"], and the error of the dates of a "Check" line with
    [verbose]; without [verbose], with another source and a cutoff that can
    be computed, it returns. *)
Theorem flat_sweep_raises_no_file_error
    (w : World) (directory : string) (exclude_filenames : list string)
    (days : Z) (dry_run verbose include_hidden : bool) (age_source : string)
    (files : list string) (s : state) (r : option exn) :
  wf_world w = true ->
  iter_files w directory false include_hidden = inr files ->
  remove_old_files w directory exclude_filenames days dry_run verbose false
    include_hidden age_source = (s, r) ->
  (forall e,
      r = Some e ->
      (cutoff_of w days = inl e /\ e = OverflowError)
      \/ (age_source = "git" /\ e = OverflowError
          /\ exists p n,
               In p files
               /\ git_last_commit_timestamp w p = Some n
               /\ float.of_int n = inl e)
      \/ (verbose = true
          /\ exists cutoff p ts,
               cutoff_of w days = inr cutoff
               /\ In p files
               /\ get_timestamp (world s) p age_source = inr ts
               /\ dates_error w ts cutoff = Some e))
  /\ (verbose = false -> age_source <> "git" ->
      (exists cutoff, cutoff_of w days = inr cutoff) ->
      r = None).
Proof.
  intros Hw Hf Hs.
  assert (Raise : forall e,
             r = Some e ->
             (cutoff_of w days = inl e /\ e = OverflowError)
             \/ (age_source = "git" /\ e = OverflowError
                 /\ exists p n,
                      In p files
                      /\ git_last_commit_timestamp w p = Some n
                      /\ float.of_int n = inl e)
             \/ (verbose = true
                 /\ exists cutoff p ts,
                      cutoff_of w days = inr cutoff
                      /\ In p files
                      /\ get_timestamp (world s) p age_source = inr ts
                      /\ dates_error w ts cutoff = Some e)).
  { intros e Hr. rewrite Hr in Hs.
    destruct (cutoff_of w days) as [e0|cutoff] eqn:Hc.
    { left. rewrite (sweep_overflow _ _ _ _ _ _ _ _ _ _ Hc) in Hs.
      injection Hs as _ <-. split; [reflexivity|].
      eapply cutoff_of_error, Hc. }
    right.
    destruct (sweep_loop Hf Hs Hc) as (s1 & Hl & Hws & _).
    pose proof (sweep_shrinks _ _ _ _ _ _ _ _ _ _ _ Hs) as (Env & _).
    destruct (loop_raises _ _ _ _ _ _ _ _ _ Hl)
      as (p & Hp & _ & [[Ht He] | (ts & Ht & Hv & Hd)]).
    - rewrite <- Hws in Ht.
      destruct (get_timestamp_error _ _ _ _ Ht)
        as [Hstat | (Hg & Ho & n & Hn & Hfl)].
      + exfalso.
        destruct (iter_files_flat_sound _ _ _ _ _ Hw Hf Hp)
          as (name & t & imm & Hb & Hloc & _).
        pose proof (below_leaf _ _ _ _ Hb) as Hleaf.
        destruct (sweep_invariant Hw Hf Hs Hc) as (_ & _ & Hinv & _).
        destruct (Hinv p Hleaf) as [L | (L & _)].
        * unfold os.stat in Hstat. rewrite L in Hstat.
          rewrite (lookup_path_locate _ _ (proj1 Hleaf)), Hloc in Hstat.
          discriminate.
        * apply stat_of_lookup_error in L. congruence.
      + left. split; [exact Hg|]. split; [exact Ho|]. exists p, n.
        split; [exact Hp|]. split; [|exact Hfl].
        now rewrite (git_same _ _ p Env).
    - right. split; [exact Hv|]. exists cutoff, p, ts.
      rewrite <- Hws in Ht, Hd.
      split; [reflexivity|]. split; [exact Hp|]. split; [exact Ht|].
      now rewrite (dates_error_same _ _ ts cutoff Env). }
  split; [exact Raise|].
  intros Hv Hg [cutoff Hc]. destruct r as [e|]; [exfalso|reflexivity].
  destruct (Raise e eq_refl) as [[Ho _] | [(Hg' & _) | (Hv' & _)]];
    congruence.
Qed.

Lemma flat_sweep_raises_no_file_error_witness :
  wf_world dangling = true
  /\ iter_files dangling "data" false false = inr ["data/a.txt"]
  /\ snd (remove_old_files dangling "data" [] 30 false false false false
            "mtime") = None.
Proof.
  split; [evaluate|]. split; [evaluate|].
  apply (flat_sweep_raises_no_file_error dangling "data" [] 30 false false
           false "mtime" ["data/a.txt"]
           (fst (remove_old_files dangling "data" [] 30 false false false
                   false "mtime")));
    [evaluate | evaluate | evaluate | reflexivity | discriminate |].
  eexists. evaluate.
Defined.



Section ReportFacts.

Variables (cutoff : Q) (excluded : list string).
Variables (dry_run verbose : bool) (age_source : string).

Local Abbreviation body :=
  (loop_body cutoff excluded dry_run verbose age_source).
Local Abbreviation is_excluded :=
  (fun p => mem (posixpath.normpath p) excluded).

Lemma removed_paths_app o1 o2 :
  removed_paths (o1 ++ o2) = removed_paths o1 ++ removed_paths o2.
Proof. unfold removed_paths. apply flat_map_app. Qed.

Lemma reported_app o l :
  reported (o ++ [l])
  = (reported o
     + match l with Removed_line _ | Would_remove _ => 1 | _ => 0 end)%Z.
Proof.
  unfold reported. rewrite removed_paths_app, would_remove_app, !length_app.
  destruct l; cbn; lia.
Qed.

(** What one iteration adds to the output and to the counters. *)
Lemma loop_body_report s p s' r :
  body s p = (s', r) ->
  (removed s' - reported (out s') = removed s - reported (out s))%Z
  /\ skipped_excluded s'
     = (skipped_excluded s + if is_excluded p then 1 else 0)%Z
  /\ (existsb is_done (out s') = existsb is_done (out s)).
Proof.
  unfold loop_body.
  destruct (mem (posixpath.normpath p) excluded).
  { intros [= <- <-]. destruct verbose; cbn [print out removed
      skipped_excluded incr_considered incr_skipped_excluded];
      rewrite ?reported_app, ?existsb_app; cbn; rewrite ?orb_false_r;
      repeat split; lia. }
  destruct (get_timestamp _ p age_source) as [e|ts].
  { destruct (is_FileNotFoundError e); intros [= <- <-];
      destruct verbose; cbn [print out removed skipped_excluded
        incr_considered];
      rewrite ?reported_app, ?existsb_app; cbn; rewrite ?orb_false_r;
      repeat split; lia. }
  destruct (if verbose then dates_error _ ts cutoff else None).
  { intros [= <- <-]. cbn. repeat split; lia. }
  destruct (Qltb ts cutoff).
  2:{ intros [= <- <-]. destruct verbose; cbn [print out removed
        skipped_excluded incr_considered];
        rewrite ?reported_app, ?existsb_app; cbn; rewrite ?orb_false_r;
        repeat split; lia. }
  destruct dry_run.
  { intros [= <- <-]. destruct verbose; cbn [print out removed
      skipped_excluded incr_considered incr_removed];
      rewrite ?reported_app, ?existsb_app; cbn; rewrite ?orb_false_r;
      repeat split; lia. }
  destruct (os.remove _ p); intros [= <- <-]; destruct verbose;
    cbn [print out removed skipped_excluded incr_considered incr_removed
           set_world];
    rewrite ?reported_app, ?existsb_app; cbn; rewrite ?orb_false_r;
    repeat split; lia.
Qed.

Lemma loop_report files : forall s s' r,
  loop cutoff excluded dry_run verbose age_source s files = (s', r) ->
  (removed s' - reported (out s') = removed s - reported (out s))%Z
  /\ existsb is_done (out s') = existsb is_done (out s)
  /\ skipped_excluded s'
     = (skipped_excluded s
        + Z.of_nat (List.length
                      (filter is_excluded
                         (consumed cutoff excluded dry_run verbose
                            age_source s files))))%Z
  /\ considered s'
     = (considered s
        + Z.of_nat (List.length
                      (consumed cutoff excluded dry_run verbose
                         age_source s files)))%Z.
Proof.
  induction files as [|p files IH]; intros s s' r H; cbn [loop consumed] in *.
  - injection H as <- <-. cbn. repeat split; lia.
  - destruct (body s p) as [s1 r1] eqn:B.
    destruct (loop_body_report _ _ _ _ B) as (B1 & B2 & B3).
    destruct (loop_body_counters _ _ _ _ _ _ _ _ _ B) as (B4 & _).
    destruct r1 as [e|].
    + injection H as <- <-. split; [assumption|]. split; [assumption|].
      rewrite B2, B4. cbn [filter].
      destruct (is_excluded p); cbn; split; lia.
    + destruct (IH _ _ _ H) as (I1 & I2 & I3 & I4).
      split; [lia|]. split; [congruence|].
      rewrite I3, I4, B2, B4. cbn [filter].
      destruct (is_excluded p); cbn [List.length];
        rewrite ?Nat2Z.inj_succ; split; lia.
Qed.

End ReportFacts.

(** X5.  The summary tells the truth.  When the sweep returns, the last line
    printed is the summary, it is the only summary, and it carries the
    counters; when the sweep raises, no summary is printed.  In both cases
    [removed] is the number of "Removed" and "Would remove" lines; and when
    the sweep returns, [considered] is the number of enumerated paths and
    [skipped_excluded] the number of those whose normalised path is
    excluded. *)
Theorem summary_is_truthful
    (w : World) (directory : string) (exclude_filenames : list string)
    (days : Z) (dry_run verbose recursive include_hidden : bool)
    (age_source : string) :
  let result := remove_old_files w directory exclude_filenames days dry_run
                  verbose recursive include_hidden age_source in
  let s := fst result in
  let excluded := excluded_of directory exclude_filenames in
  removed s = reported (out s)
  /\ (snd result <> None -> existsb is_done (out s) = false)
  /\ (snd result = None ->
      (exists o,
          out s = o ++ [Done_line (considered s) (removed s) dry_run
                          (skipped_excluded s) age_source days recursive]
          /\ existsb is_done o = false)
      /\ forall files,
           iter_files w directory recursive include_hidden = inr files ->
           considered s = Z.of_nat (List.length files)
           /\ skipped_excluded s
              = Z.of_nat (List.length
                            (filter (fun p => mem (posixpath.normpath p)
                                                excluded) files))).
Proof.
  intros result s excluded. subst s result. unfold remove_old_files.
  destruct (cutoff_of w days) as [e|cutoff].
  { cbn. repeat split; try reflexivity; discriminate. }
  destruct (iter_files w directory recursive include_hidden) as [e|files].
  { cbn. repeat split; try reflexivity; discriminate. }
  cbv zeta. fold excluded.
  destruct (loop _ excluded dry_run verbose age_source (initial w) files)
    as [s1 r1] eqn:L.
  destruct (loop_report _ _ _ _ _ _ _ _ _ L) as (R1 & R2 & R3 & R4).
  cbn [initial removed out skipped_excluded considered] in R1, R2, R3, R4.
  change (reported []) with 0%Z in R1. cbn [existsb] in R2.
  destruct r1 as [e|]; cbn [fst snd].
  - split; [lia|]. split; [auto | discriminate].
  - cbn [print out removed considered skipped_excluded].
    split; [rewrite reported_app; lia|]. split; [congruence|].
    intros _. split; [exists (out s1); split; [reflexivity | assumption]|].
    intros files' [= <-].
    pose proof (consumed_all _ _ _ _ _ _ _ _ L) as Hc.
    rewrite Hc in R3, R4. split; lia.
Qed.

Section LogFacts.

Import os.

Variables (cutoff : Q) (excluded : list string).
Variables (dry_run verbose : bool) (age_source : string).
Variable w0 : World.

Local Abbreviation body :=
  (loop_body cutoff excluded dry_run verbose age_source).
Local Abbreviation dooms w :=
  (doomed w cutoff excluded dry_run verbose age_source).
Local Abbreviation inv :=
  (sweep_inv w0 cutoff excluded dry_run verbose age_source).
Local Abbreviation pulled :=
  (consumed cutoff excluded dry_run verbose age_source).

(** An iteration prints "Removed" exactly when it unlinks. *)
Lemma loop_body_removed_paths s p s' r :
  body s p = (s', r) ->
  (dooms (world s) p
   /\ removed_paths (out s') = removed_paths (out s) ++ [p])
  \/ (~ dooms (world s) p
      /\ removed_paths (out s') = removed_paths (out s)).
Proof.
  unfold loop_body.
  change (world (incr_considered s)) with (world s).
  destruct (mem (posixpath.normpath p) excluded) eqn:Hm.
  { intros [= <- <-]. right. split.
    - intros (_ & H & _). congruence.
    - destruct verbose; cbn; rewrite ?removed_paths_app; cbn;
        now rewrite ?app_nil_r. }
  destruct (get_timestamp (world s) p age_source) as [e|ts] eqn:Ht.
  { intros H. right. split.
    - intros (_ & _ & ? & ? & H' & _). congruence.
    - destruct (is_FileNotFoundError e); injection H as <- <-;
        destruct verbose; cbn; rewrite ?removed_paths_app; cbn;
        now rewrite ?app_nil_r. }
  destruct (if verbose then dates_error (world s) ts cutoff else None)
    as [e|] eqn:Hk.
  { intros [= <- <-]. right. split; [|reflexivity].
    intros (_ & _ & ts' & w' & Ht' & _ & _ & Hk').
    unfold check_passes in Hk'. rewrite Ht in Ht'. injection Ht' as <-.
    rewrite Hk in Hk'. discriminate. }
  destruct (Qltb ts cutoff) eqn:Hc.
  2:{ intros [= <- <-]. right. split.
      - intros (_ & _ & ? & ? & H' & Hc' & _). congruence.
      - destruct verbose; cbn; rewrite ?removed_paths_app; cbn;
          now rewrite ?app_nil_r. }
  destruct dry_run eqn:Hdry.
  { intros [= <- <-]. right. split.
    - intros (H & _). discriminate.
    - destruct verbose; cbn; rewrite ?removed_paths_app; cbn;
        now rewrite ?app_nil_r. }
  assert (Hw1 : forall l, world (if verbose then print l (incr_considered s)
                                 else incr_considered s) = world s)
    by (intros l; now destruct verbose).
  rewrite Hw1.
  destruct (remove (world s) p) as [e|w'] eqn:Hr.
  - intros [= <- <-]. right. split.
    + intros (_ & _ & ? & ? & _ & _ & H' & _). congruence.
    + destruct verbose; cbn; rewrite ?removed_paths_app; cbn;
        now rewrite ?app_nil_r.
  - intros [= <- <-]. left. split.
    + split; [reflexivity|]. split; [assumption|]. now exists ts, w'.
    + destruct verbose; cbn; rewrite ?removed_paths_app; cbn;
        now rewrite ?app_nil_r.
Qed.

Lemma loop_log files : forall done s s' r,
  inv done (world s) ->
  (forall p, In p files -> leaf w0 p) ->
  (forall p q, In p (files ++ done) -> In q (files ++ done) ->
               resolve w0 p = resolve w0 q -> p = q) ->
  loop cutoff excluded dry_run verbose age_source s files = (s', r) ->
  (forall p, In p (removed_paths (out s)) <-> In p done /\ dooms w0 p) ->
  forall p,
    In p (removed_paths (out s'))
    <-> In p (pulled s files ++ done) /\ dooms w0 p.
Proof.
  induction files as [|p files IH]; intros done s s' r I Hl Hinj H R;
    cbn [loop consumed] in *.
  - now injection H as <- <-.
  - assert (Hp : leaf w0 p) by (apply Hl; now left).
    pose proof (fun s1 r1 =>
                  loop_body_inv cutoff excluded dry_run verbose age_source
                    w0 done s p s1 r1 I Hp)
      as Hstep.
    pose proof (fun s1 r1 => loop_body_removed_paths s p s1 r1) as Hout.
    destruct (body s p) as [s1 r1].
    specialize (Hstep s1 r1 eq_refl). specialize (Hout s1 r1 eq_refl).
    destruct I as (He & Hleaf & Hb & Hc).
    assert (R1 : forall x, In x (removed_paths (out s1))
                           <-> In x (p :: done) /\ dooms w0 x).
    { intros x. destruct Hout as [(Hd & ->) | (Hnd & ->)].
      - assert (Hsame : lookup_path (world s) p = lookup_path w0 p).
        { destruct (Hb p Hp) as [E | [E _]]; [assumption|].
          destruct Hd as (_ & _ & ts & w' & _ & _ & Hrm & _).
          assert (Hok : exists w'', remove (world s) p = inr w'') by eauto.
          apply remove_ok_iff in Hok as (_ & c & L & _). congruence. }
        assert (Hd0 : dooms w0 p)
          by (eapply doomed_same; [apply same_env_sym, He | | ];
              eassumption).
        rewrite in_app_iff, R. cbn [In]. split.
        + intros [[H1 H2] | [<- | []]]; auto.
        + intros [[<- | H1] H2]; auto.
      - rewrite R. cbn [In]. split; [intros [H1 H2]; auto|].
        intros [[<- | H1] H2]; [|auto].
        destruct (Hb p Hp) as [L | (_ & q & Hq & Hres & Hdq)].
        + exfalso. apply Hnd.
          eapply doomed_same; [exact He | | exact H2]. now symmetry.
        + assert (q = p) as ->; [|auto].
          apply Hinj; [| |assumption].
          * right. apply in_or_app. now right.
          * now left. }
    destruct r1 as [e|].
    + injection H as <- <-. exact R1.
    + intros x.
      rewrite (IH (p :: done) s1 s' r Hstep
                 (fun q Hq => Hl q (or_intror Hq))); [| |exact H|exact R1].
      * cbn [app In]. rewrite !in_app_iff. cbn [In]. tauto.
      * intros a b Ha Hb'. apply Hinj; cbn [app In];
          rewrite in_app_iff in *; cbn [In] in *; tauto.
Qed.

End LogFacts.

(** The "Removed" lines of a sweep name the pulled paths that were
    [doomed] in the initial world. *)
Lemma sweep_log
    (w : World) (directory : string) (exclude_filenames : list string)
    (days : Z) (dry_run verbose recursive include_hidden : bool)
    (age_source : string) (files : list string) (s : state) (r : option exn)
    (cutoff : Q) (p : string) :
  wf_world w = true ->
  iter_files w directory recursive include_hidden = inr files ->
  remove_old_files w directory exclude_filenames days dry_run verbose
    recursive include_hidden age_source = (s, r) ->
  cutoff_of w days = inr cutoff ->
  In p (removed_paths (out s))
  <-> In p (consumed cutoff
              (excluded_of directory exclude_filenames) dry_run verbose
              age_source (initial w) files)
      /\ doomed w cutoff
           (excluded_of directory exclude_filenames) dry_run verbose
           age_source p.
Proof.
  intros Hw Hf Hs Hc.
  destruct (sweep_loop Hf Hs Hc) as (s1 & Hl & Hws & _).
  assert (Ho : removed_paths (out s) = removed_paths (out s1)).
  { unfold remove_old_files in Hs. rewrite Hc, Hf in Hs. cbv zeta in Hs.
    rewrite Hl in Hs. destruct r; injection Hs as <-; [reflexivity|].
    cbn [print out]. rewrite removed_paths_app. cbn. now rewrite app_nil_r. }
  rewrite Ho.
  rewrite <- (app_nil_r (consumed _ _ _ _ _ _ files)).
  apply (loop_log _ _ _ _ _ w files [] (initial w) s1 r).
  - apply inv_initial.
  - intros q Hq. exact (files_are_leaves Hw Hf q Hq).
  - intros a b Ha Hb E. rewrite app_nil_r in Ha, Hb.
    exact (files_resolve_inj Hw Hf a b Ha Hb E).
  - exact Hl.
  - intros x. cbn. tauto.
Qed.

(** X6.  The log of deletions is faithful.  Every "Removed" line names an
    enumerated path that does not exist after the sweep; and every
    enumerated path that existed before the sweep and does not exist after
    it has its "Removed" line. *)
Theorem removed_lines_are_the_deletions
    (w : World) (directory : string) (exclude_filenames : list string)
    (days : Z) (dry_run verbose recursive include_hidden : bool)
    (age_source : string) (files : list string) (s : state) (r : option exn)
    (p : string) :
  wf_world w = true ->
  iter_files w directory recursive include_hidden = inr files ->
  remove_old_files w directory exclude_filenames days dry_run verbose
    recursive include_hidden age_source = (s, r) ->
  (In p (removed_paths (out s)) ->
   In p files /\ genericpath.exists_ (world s) p = false)
  /\ (In p files -> genericpath.exists_ w p = true ->
      genericpath.exists_ (world s) p = false ->
      In p (removed_paths (out s))).
Proof.
  intros Hw Hf Hs.
  destruct (cutoff_of w days) as [e|cutoff] eqn:Hc.
  { rewrite (sweep_overflow _ _ _ _ _ _ _ _ _ _ Hc) in Hs.
    injection Hs as <- _. cbn. split; [contradiction | congruence]. }
  pose proof (sweep_log _ _ _ _ _ _ _ _ _ _ _ _ _ p Hw Hf Hs Hc) as Log.
  pose proof (sweep_invariant Hw Hf Hs Hc) as (_ & _ & B & C).
  split.
  - intros H. apply Log in H as [Hin Hd].
    split; [eapply consumed_incl; eassumption|].
    eapply exists_of_lookup_error. now apply C.
  - intros Hp E0 E1. apply Log.
    pose proof (files_are_leaves Hw Hf p Hp) as Hleaf.
    destruct (B p Hleaf) as [L | (_ & q & Hq & Hres & Hdq)].
    + rewrite (exists_of_lookup_same _ _ _ L) in E1. congruence.
    + pose proof (consumed_incl _ _ _ _ _ _ _ _ Hq) as Hq'.
      rewrite (files_resolve_inj Hw Hf _ _ Hq' Hp Hres) in Hq, Hdq.
      auto.
Qed.

Lemma removed_lines_are_the_deletions_witness :
  let result := remove_old_files demo "data" [] 30 false true true false
                  "mtime" in
  removed_paths (out (fst result))
  = ["data/a.txt"; "data/remove_old_files.py"; "data/README.md";
     "data/sub/old2.txt"; "data/sub/README.md"]
  /\ In "data/sub/old2.txt" (removed_paths (out (fst result)))
  /\ genericpath.exists_ (world (fst result)) "data/a.txt" = false.
Proof.
  intros result. split; [evaluate|].
  destruct (removed_lines_are_the_deletions demo "data" [] 30 false true
              true false "mtime"
              ["data/a.txt"; "data/b.txt"; "data/c.txt";
               "data/remove_old_files.py"; "data/README.md";
               "data/sub/old2.txt"; "data/sub/README.md"]
              (fst result) (snd result) "data/sub/old2.txt")
    as [_ Hlog]; [evaluate | evaluate | evaluate |].
  split; [apply Hlog; [vm_compute; tauto | evaluate | evaluate]|].
  destruct (removed_lines_are_the_deletions demo "data" [] 30 false true
              true false "mtime"
              ["data/a.txt"; "data/b.txt"; "data/c.txt";
               "data/remove_old_files.py"; "data/README.md";
               "data/sub/old2.txt"; "data/sub/README.md"]
              (fst result) (snd result) "data/a.txt")
    as [Hgone _]; [evaluate | evaluate | evaluate |].
  apply Hgone. vm_compute. tauto.
Defined.

Section EnumFacts.

Import os.

Lemma locate_valid rel : forall n c,
  wf n = true -> locate rel n = inr c ->
  Forall (fun s => valid_name s = true) rel.
Proof.
  induction rel as [|x rel IH]; intros n c Hn H; [constructor|].
  cbn [locate] in H. destruct n as [| | |t es]; try discriminate.
  destruct (lookup x es) as [c'|] eqn:L; [|discriminate].
  apply lookup_In in L. apply wf_Dir in Hn as (Hv & _ & Hc).
  constructor; [|eapply IH; [eapply Hc, L | exact H]].
  rewrite Forall_forall in Hv. apply Hv, in_map_iff. now exists (x, c').
Qed.

Lemma locate_through_dir x rel n t es :
  locate (x :: rel) n = inr (Dir t es) ->
  exists t0 es0 c,
    n = Dir t0 es0 /\ lookup x es0 = Some c /\ is_dir c = true
    /\ locate rel c = inr (Dir t es).
Proof.
  cbn [locate]. destruct n as [| | |t0 es0]; try discriminate.
  destruct (lookup x es0) as [c|] eqn:L; [|discriminate].
  intros H. exists t0, es0, c.
  split; [reflexivity|]. split; [exact L|]. split; [|exact H].
  destruct rel as [|y rel]; [cbn in H; now injection H as ->|].
  destruct c; cbn in H; try discriminate. reflexivity.
Qed.

Section Walk.

Variables (prune : list string -> list string) (Q : string -> Prop).
Hypothesis Q_prune : forall dirs d, In d dirs -> Q d -> In d (prune dirs).

(** The walk reaches every directory that lies behind names the consumer
    leaves in [dirs]. *)
Lemma walk_from_complete rel : forall n top t es,
  locate rel n = inr (Dir t es) -> Forall Q rel ->
  In (join_all top rel, names_where is_dir es,
      names_where (fun c => negb (is_dir c)) es)
    (walk_from prune top n).
Proof.
  induction rel as [|x rel IH]; intros n top t es Hl Hq.
  { cbn in Hl. injection Hl as ->. cbn [walk_from join_all fold_left].
    now left. }
  apply locate_through_dir in Hl as (t0 & es0 & c & -> & L & Hc & Hl).
  inversion Hq as [|? ? Hx Hrel]; subst.
  specialize (IH c (posixpath.join top x) t es Hl Hrel).
  change (join_all top (x :: rel)) with (join_all (posixpath.join top x) rel).
  cbn [walk_from]. right.
  set (dirs := names_where is_dir es0).
  assert (Hp : In x (prune dirs)).
  { apply Q_prune; [|assumption]. apply names_where_In.
    exists c. split; [now apply lookup_In | assumption]. }
  apply lookup_In in L.
  match goal with
  | |- In ?tr (?descend es0) =>
      assert (G : forall l, In (x, c) l -> In tr (descend l))
  end; [|now apply G].
  induction l as [|[k c'] l IHl]; intros Hin; [contradiction|].
  apply in_or_app. destruct Hin as [Hin|Hin].
  - injection Hin as -> ->. left. rewrite Hc. cbn [andb].
    replace (existsb (String.eqb x) (prune dirs)) with true; [exact IH|].
    symmetry. now apply (mem_true_iff x).
  - right. now apply IHl.
Qed.

End Walk.

Lemma split_last {A} (l : list A) :
  l <> [] -> exists l' x, l = l' ++ [x].
Proof.
  intros H. destruct (exists_last H) as (l' & x & ->). eauto.
Qed.

Lemma locate_last rel name n c :
  locate (rel ++ [name]) n = inr c ->
  exists t es, locate rel n = inr (Dir t es) /\ lookup name es = Some c.
Proof.
  rewrite locate_app. destruct (locate rel n) as [e|d]; [discriminate|].
  cbn [locate]. destruct d as [| | |t es]; try discriminate.
  destruct (lookup name es) as [c'|] eqn:L; [|discriminate].
  intros [= ->]. eauto.
Qed.

(** The recursive enumeration yields every entry below [directory] that is
    not a directory, unless a hidden name lies on the way and hidden
    entries are left out. *)
Lemma iter_files_walk_complete w directory hid files n rel c :
  wf_world w = true ->
  lookup_path w directory = inr n ->
  iter_files w directory true hid = inr files ->
  rel <> [] -> locate rel n = inr c -> is_dir c = false ->
  (hid = false -> Forall no_dot rel) ->
  In (join_all directory rel) files.
Proof.
  intros Hw Hd Hit Hne Hl Hc Hh.
  pose proof (wf_world_inv _ Hw) as [Hroot _].
  pose proof (lookup_path_inr _ _ _ Hd) as [_ Hloc].
  pose proof (wf_locate _ _ _ Hroot Hloc) as Hwn.
  pose proof (locate_valid _ _ _ Hwn Hl) as Hv.
  pose proof (below_intro _ _ _ _ _ Hw Hd Hne Hv Hl Hc) as Hb.
  destruct (split_last _ Hne) as (rel' & name & ->).
  apply locate_last in Hl as (t & es & Hl & L).
  unfold iter_files in Hit. cbn [negb] in Hit. injection Hit as <-.
  apply in_flat_map.
  exists (join_all directory rel', names_where is_dir es,
          names_where (fun c => negb (is_dir c)) es).
  split.
  - unfold walk. rewrite Hd.
    apply (walk_from_complete _ (fun s => hid = false -> no_dot s))
      with (t := t); [|assumption|].
    + intros dirs d Hin Hq. destruct hid; cbn [negb]; [assumption|].
      apply filter_In. split; [assumption|].
      apply negb_true_iff. now apply Hq.
    + apply Forall_forall. intros x Hx E.
      specialize (Hh E). rewrite Forall_forall in Hh.
      apply Hh, in_or_app. now left.
  - apply in_flat_map. exists name. split.
    + apply names_where_In. exists c. split; [now apply lookup_In|].
      now rewrite Hc.
    + rewrite <- join_all_snoc.
      destruct hid; cbn [negb andb]; [now left|].
      rewrite (is_hidden_below _ _ _ _ Hw Hb).
      replace (existsb (Str.startswith ".") (rel' ++ [name])) with false;
        [now left|].
      symmetry. apply existsb_false_Forall. now apply Hh.
Qed.

(** The flat enumeration yields every regular file of [directory], unless
    its name is hidden and hidden entries are left out. *)
Lemma iter_files_flat_complete w directory hid files t es name tc imm :
  wf_world w = true ->
  lookup_path w directory = inr (Dir t es) ->
  iter_files w directory false hid = inr files ->
  lookup name es = Some (File tc imm) ->
  (hid = false -> no_dot name) ->
  In (posixpath.join directory name) files.
Proof.
  intros Hw Hd Hit L Hh.
  pose proof (wf_world_inv _ Hw) as [Hroot _].
  pose proof (lookup_path_inr _ _ _ Hd) as [Hdne Hloc].
  pose proof (wf_locate _ _ _ Hroot Hloc) as Hwn.
  assert (Hl : locate [name] (Dir t es) = inr (File tc imm))
    by (cbn [locate]; now rewrite L).
  pose proof (locate_valid _ _ _ Hwn Hl) as Hv.
  assert (Hb : below w directory (posixpath.join directory name) [name]).
  { apply (below_intro w directory (Dir t es) [name] (File tc imm) Hw Hd);
      [discriminate | assumption | exact Hl | reflexivity]. }
  unfold iter_files in Hit. cbn [negb] in Hit. unfold listdir in Hit.
  rewrite Hd in Hit. injection Hit as <-.
  apply in_flat_map. exists name. split.
  - apply in_map_iff. exists (name, File tc imm).
    split; [reflexivity | now apply lookup_In].
  - destruct Hb as (_ & _ & _ & Hr & Hne & _).
    replace (genericpath.isfile w (posixpath.join directory name)) with true.
    2:{ unfold genericpath.isfile, stat.
        rewrite (lookup_path_locate _ _ Hne), Hr, locate_app, Hloc.
        cbn [locate]. now rewrite L. }
    destruct hid; cbn [negb andb]; [now left|].
    unfold is_hidden.
    rewrite (relpath_below _ _ _ [name] Hr); [|discriminate|assumption].
    cbn [existsb]. rewrite (Hh eq_refl). now left.
Qed.

End EnumFacts.

(** X7.  What the flat enumeration yields.  When [iter_files] without
    [recursive] yields at all, [directory] is a directory and the paths are,
    in the order of the listing, [directory] joined with the name of each
    entry that is a regular file, the names that start with a dot left out
    unless [include_hidden] is set. *)
Theorem flat_enumeration_is_the_listing
    (w : World) (directory : string) (include_hidden : bool)
    (files : list string) :
  wf_world w = true ->
  iter_files w directory false include_hidden = inr files ->
  exists t es,
    os.lookup_path w directory = inr (Dir t es)
    /\ files = map (fun e => posixpath.join directory (fst e))
                 (filter (listed include_hidden) es).
Proof.
  intros Hw Hit. pose proof Hit as Hit0.
  unfold iter_files in Hit. cbn [negb] in Hit. unfold os.listdir in Hit.
  destruct (os.lookup_path w directory) as [e|[| | |t es]] eqn:Hd;
    try discriminate.
  exists t, es. split; [reflexivity|]. injection Hit as <-.
  pose proof (wf_world_inv _ Hw) as [Hroot _].
  pose proof (lookup_path_inr _ _ _ Hd) as [Hdne Hloc].
  pose proof (wf_locate _ _ _ Hroot Hloc) as Hwn.
  pose proof (wf_Dir _ _ Hwn) as (_ & Hn & _).
  pose (f := fun name =>
               let p := posixpath.join directory name in
               if genericpath.isfile w p then
                 if negb include_hidden && is_hidden w directory p then []
                 else [p]
               else []).
  assert (G : forall l, (forall k c, In (k, c) l -> os.lookup k es = Some c) ->
              flat_map f (map fst l)
              = map (fun e => posixpath.join directory (fst e))
                  (filter (listed include_hidden) l)).
  { induction l as [|[k c] l IH]; intros Hl; [reflexivity|].
    cbn [map flat_map filter fst].
    rewrite IH by (intros k' c' H; apply Hl; now right).
    unfold f. cbn beta zeta.
    assert (L : os.lookup k es = Some c) by (apply Hl; now left).
    assert (Hk : os.locate [k] (Dir t es) = inr c)
      by (cbn [os.locate]; now rewrite L).
    pose proof (locate_valid _ _ _ Hwn Hk) as Hv.
    assert (Hr : os.resolve w (posixpath.join directory k)
                 = os.resolve w directory ++ [k]).
    { pose proof (wf_world_inv _ Hw) as [_ Hcwd].
      inversion Hv; subst. now apply parts_join. }
    assert (Hne : posixpath.join directory k <> "") by now apply join_not_nil.
    assert (Hf : genericpath.isfile w (posixpath.join directory k)
                 = match c with File _ _ => true | _ => false end).
    { unfold genericpath.isfile, os.stat.
      rewrite (lookup_path_locate _ _ Hne), Hr, locate_app, Hloc, Hk.
      now destruct c. }
    rewrite Hf. unfold listed. cbn [fst snd].
    destruct c as [tc imm| | |]; try reflexivity.
    unfold is_hidden.
    rewrite (relpath_below _ _ _ [k] Hr); [|discriminate|assumption].
    cbn [existsb]. rewrite orb_false_r.
    destruct include_hidden, (Str.startswith "." k); reflexivity. }
  apply G. intros k c. now apply In_lookup.
Qed.

Lemma flat_enumeration_is_the_listing_witness :
  exists t es,
    os.lookup_path demo "data" = inr (Dir t es)
    /\ ["data/a.txt"; "data/b.txt"; "data/c.txt"; "data/remove_old_files.py";
        "data/README.md"]
       = map (fun e => posixpath.join "data" (fst e)) (filter (listed false) es).
Proof.
  apply (flat_enumeration_is_the_listing demo "data" false); evaluate.
Defined.

(** X8.  What the recursive enumeration yields.  [os.walk] ignores errors,
    so when [directory] cannot be looked up nothing is yielded.  Otherwise
    the yielded paths are exactly [directory] joined, name after name, along
    every non-empty chain of entries that ends in an entry that is not a
    directory (a regular file or a symbolic link); unless [include_hidden]
    is set, the chains with a name that starts with a dot are left out. *)
Theorem recursive_enumeration_is_exact
    (w : World) (directory : string) (include_hidden : bool)
    (files : list string) :
  wf_world w = true ->
  iter_files w directory true include_hidden = inr files ->
  (forall e, os.lookup_path w directory = inl e -> files = [])
  /\ (forall n p,
        os.lookup_path w directory = inr n ->
        In p files
        <-> exists rel c,
              rel <> [] /\ p = join_all directory rel
              /\ os.locate rel n = inr c /\ is_dir c = false
              /\ (include_hidden = false -> Forall no_dot rel)).
Proof.
  intros Hw Hit. split.
  - intros e He. unfold iter_files, os.walk in Hit. cbn [negb] in Hit.
    rewrite He in Hit. now injection Hit as <-.
  - intros n p Hd. split.
    + intros Hp.
      destruct (iter_files_walk_sound _ _ _ _ _ Hw Hit Hp)
        as (rel & (Hne & Hv & -> & Hr & _ & c & Hl & Hc) & Hh).
      exists rel, c. repeat split; try assumption.
      apply lookup_path_inr in Hd as [_ Hloc].
      now rewrite Hr, locate_app, Hloc in Hl.
    + intros (rel & c & Hne & -> & Hl & Hc & Hh).
      eapply iter_files_walk_complete; eassumption.
Qed.

Lemma recursive_enumeration_is_exact_witness :
  In "data/sub/old2.txt"
    ["data/a.txt"; "data/b.txt"; "data/c.txt"; "data/remove_old_files.py";
     "data/README.md"; "data/sub/old2.txt"; "data/sub/README.md"].
Proof.
  destruct (recursive_enumeration_is_exact demo "data" false
              ["data/a.txt"; "data/b.txt"; "data/c.txt";
               "data/remove_old_files.py"; "data/README.md";
               "data/sub/old2.txt"; "data/sub/README.md"])
    as [_ H]; [evaluate | evaluate |].
  apply (H demo_data); [evaluate|].
  exists ["sub"; "old2.txt"], (File (aged 90) false).
  split; [discriminate|]. split; [evaluate|]. split; [evaluate|].
  split; [reflexivity|]. intros _.
  repeat constructor.
Defined.

Lemma has_sep_basename (p : string) : has_sep (basename p) = false.
Proof.
  induction p as [|a p IH]; [reflexivity|]. cbn [basename].
  destruct (has_sep p) eqn:E; [assumption|].
  destruct (Ascii.eqb a posixpath.sep) eqn:Ea; [assumption|].
  cbn [has_sep]. now rewrite Ea, E.
Qed.

(** An enumerated path that no cutoff dooms is, after the sweep, what it
    was before. *)
Lemma sweep_spares
    (w : World) (directory : string) (exclude_filenames : list string)
    (days : Z) (dry_run verbose recursive include_hidden : bool)
    (age_source : string) (files : list string) (s : state) (r : option exn)
    (p : string) :
  wf_world w = true ->
  iter_files w directory recursive include_hidden = inr files ->
  remove_old_files w directory exclude_filenames days dry_run verbose
    recursive include_hidden age_source = (s, r) ->
  In p files ->
  (forall cutoff,
      ~ doomed w cutoff (excluded_of directory exclude_filenames) dry_run
          verbose age_source p) ->
  os.lookup_path (world s) p = os.lookup_path w p.
Proof.
  intros Hw Hf Hs Hp Hno.
  destruct (cutoff_of w days) as [e|cutoff] eqn:Hc.
  - rewrite (sweep_overflow _ _ _ _ _ _ _ _ _ _ Hc) in Hs.
    now injection Hs as <- _.
  - apply (sweep_keeps_file Hw Hf Hs Hc p Hp). apply Hno.
Qed.

(** X9.  What [main] always protects.  The name [main] takes from
    [__file__] never holds a separator.  And whatever the arguments, an
    enumerated path that is [args.directory] joined with that name, with
    [README.md] or with a name given by [--exclude] is, after the run, the
    entry it was before, however old it is. *)
Theorem main_spares_script_and_readme
    (w : World) (file : string) (args : Namespace.t) (files : list string)
    (s : state) (r : option exn) (name : string) :
  wf_world w = true ->
  iter_files w (Namespace.directory args) (Namespace.recursive args)
    (Namespace.include_hidden args) = inr files ->
  main w file args = (s, r) ->
  name = basename file \/ name = "README.md"
  \/ In name (Namespace.exclude args) ->
  In (posixpath.join (Namespace.directory args) name) files ->
  has_sep (basename file) = false
  /\ os.lookup_path (world s) (posixpath.join (Namespace.directory args) name)
     = os.lookup_path w (posixpath.join (Namespace.directory args) name).
Proof.
  intros Hw Hf Hs Hname Hin. split; [apply has_sep_basename|].
  unfold main in Hs.
  eapply sweep_spares; [exact Hw | exact Hf | exact Hs | exact Hin |].
  intros cutoff. apply excluded_is_not_doomed, mem_excluded_iff.
  exists name. split; [|reflexivity].
  cbn [app In]. destruct Hname as [-> | [-> | H]]; auto.
Qed.

Lemma main_spares_script_and_readme_witness :
  let args :=
    {| Namespace.directory := "data"; Namespace.days := 30;
       Namespace.dry_run := false; Namespace.verbose := false;
       Namespace.recursive := true; Namespace.include_hidden := false;
       Namespace.age_source := "mtime"; Namespace.exclude := [] |} in
  let result := main demo "/opt/tools/remove_old_files.py" args in
  has_sep (basename "/opt/tools/remove_old_files.py") = false
  /\ os.lookup_path (world (fst result)) "data/remove_old_files.py"
     = os.lookup_path demo "data/remove_old_files.py".
Proof.
  intros args result.
  apply (main_spares_script_and_readme demo "/opt/tools/remove_old_files.py"
           args
           ["data/a.txt"; "data/b.txt"; "data/c.txt";
            "data/remove_old_files.py"; "data/README.md";
            "data/sub/old2.txt"; "data/sub/README.md"]
           (fst result) (snd result) "remove_old_files.py").
  - evaluate.
  - evaluate.
  - evaluate.
  - left. evaluate.
  - vm_compute. tauto.
Defined.

Section AgainFacts.

Import os.











Section Idle.

Variables (cutoff : Q) (excluded : list string).
Variables (verbose : bool) (age_source : string).



End Idle.

End AgainFacts.



Lemma startswith_join_kept (st : list string) :
  Forall kept st -> Str.startswith "/" (Str.join posixpath.sep st) = false.
Proof.
  intros H. destruct st as [|x st]; [reflexivity|].
  inversion H as [|? ? [Hx Hs] _]; subst.
  assert (Hx' : Str.startswith "/" x = false).
  { destruct (Str.startswith "/" x) eqn:E; [|reflexivity].
    apply startswith_sep_has_sep in E. congruence. }
  destruct st as [|y st]; [exact Hx'|].
  cbn [Str.join]. now rewrite startswith_app.
Qed.

Lemma filter_none {A} (f : A -> bool) (l : list A) :
  (forall x, In x l -> f x = false) -> filter f l = [].
Proof.
  induction l as [|x l IH]; intros H; [reflexivity|]. cbn [filter].
  rewrite (H x (or_introl eq_refl)). apply IH. intros y Hy. apply H. now right.
Qed.

(** [normpath] keeps a path absolute or relative. *)
Lemma isabs_normpath (X : string) :
  posixpath.isabs (posixpath.normpath X) = posixpath.isabs X.
Proof.
  unfold posixpath.normpath, posixpath.isabs.
  destruct (String.eqb_spec X "") as [->|HX]; [reflexivity|].
  set (st := fold_left _ _ _).
  assert (Hk : Forall kept st)
    by (apply fold_norm_kept; [constructor | apply split_has_no_sep]).
  pose proof (startswith_join_kept st Hk) as Hj.
  unfold posixpath.initial_slashes.
  destruct (Str.startswith "/" X) eqn:E.
  - destruct (Str.startswith "//" X && negb (Str.startswith "///" X)).
    + change (posixpath.slashes 2 ++ Str.join posixpath.sep st)%string
        with (String posixpath.sep
                (String posixpath.sep (Str.join posixpath.sep st))).
      cbn [String.eqb]. now rewrite startswith_char.
    + change (posixpath.slashes 1 ++ Str.join posixpath.sep st)%string
        with (String posixpath.sep (Str.join posixpath.sep st)).
      cbn [String.eqb]. now rewrite startswith_char.
  - change (posixpath.slashes 0 ++ Str.join posixpath.sep st)%string
      with (Str.join posixpath.sep st).
    destruct (Str.join posixpath.sep st =? "")%string; [reflexivity|exact Hj].
Qed.

(** X11.  Absolute names in [exclude_filenames] and a relative
    [directory].  [os.path.join] drops [directory] in front of an absolute
    name, so the excluded path is absolute, while every path enumerated from
    a relative [directory] is relative: none of them is excluded, and
    [skipped_excluded] stays 0. *)
Theorem absolute_exclusions_miss_a_relative_directory
    (w : World) (directory : string) (exclude_filenames : list string)
    (days : Z) (dry_run verbose recursive include_hidden : bool)
    (age_source : string) (files : list string) (s : state) (r : option exn) :
  wf_world w = true ->
  iter_files w directory recursive include_hidden = inr files ->
  remove_old_files w directory exclude_filenames days dry_run verbose
    recursive include_hidden age_source = (s, r) ->
  posixpath.isabs directory = false ->
  (forall name, In name exclude_filenames -> posixpath.isabs name = true) ->
  (forall p, In p files ->
             mem (posixpath.normpath p)
               (excluded_of directory exclude_filenames) = false)
  /\ skipped_excluded s = 0%Z.
Proof.
  intros Hw Hf Hs Hd Hex.
  assert (Miss : forall p, In p files ->
             mem (posixpath.normpath p)
               (excluded_of directory exclude_filenames) = false).
  { intros p Hp.
    destruct (mem (posixpath.normpath p)
                (excluded_of directory exclude_filenames)) eqn:M;
      [|reflexivity].
    apply mem_excluded_iff in M as (name & Hn & E).
    destruct (iter_files_below _ _ _ _ _ _ Hw Hf Hp)
      as (rel & (_ & Hv & -> & _) & _).
    pose proof (iter_files_dir _ _ _ _ _ _ Hf Hp) as Hdne.
    assert (A1 : posixpath.isabs (posixpath.normpath (join_all directory rel))
                 = false).
    { rewrite isabs_normpath. unfold posixpath.isabs.
      now rewrite startswith_join_all. }
    assert (A2 : posixpath.isabs
                   (posixpath.normpath (posixpath.join directory name))
                 = true).
    { rewrite isabs_normpath. specialize (Hex name Hn).
      unfold posixpath.join. unfold posixpath.isabs in Hex.
      now rewrite Hex. }
    congruence. }
  split; [exact Miss|].
  destruct (cutoff_of w days) as [e|cutoff] eqn:Hc.
  { rewrite (sweep_overflow _ _ _ _ _ _ _ _ _ _ Hc) in Hs.
    now injection Hs as <- _. }
  destruct (sweep_loop Hf Hs Hc) as (s1 & L & _ & _ & _ & ->).
  destruct (loop_report _ _ _ _ _ _ _ _ _ L) as (_ & _ & R & _).
  rewrite R. cbn [initial skipped_excluded].
  rewrite filter_none; [reflexivity|].
  intros p Hp. apply consumed_incl in Hp. exact (Miss p Hp).
Qed.

Lemma absolute_exclusions_miss_a_relative_directory_witness :
  let result := remove_old_files demo "data" ["/srv/data/a.txt"] 30 false
                  false false false "mtime" in
  (forall p, In p ["data/a.txt"; "data/b.txt"; "data/c.txt";
                   "data/remove_old_files.py"; "data/README.md"] ->
             mem (posixpath.normpath p)
               (excluded_of "data" ["/srv/data/a.txt"]) = false)
  /\ skipped_excluded (fst result) = 0%Z.
Proof.
  intros result.
  apply (absolute_exclusions_miss_a_relative_directory demo "data"
           ["/srv/data/a.txt"] 30 false false false false "mtime"
           ["data/a.txt"; "data/b.txt"; "data/c.txt";
            "data/remove_old_files.py"; "data/README.md"]
           (fst result) (snd result)).
  - evaluate.
  - evaluate.
  - evaluate.
  - evaluate.
  - intros name [<- | []]. evaluate.
Defined.





Lemma below_locate (w : World) (directory p : string) (rel : list string)
    (c : node) :
  directory <> "" -> below w directory p rel ->
  os.locate (os.resolve w p) (root w) = inr c ->
  exists n, os.lookup_path w directory = inr n /\ os.locate rel n = inr c.
Proof.
  intros Hd (_ & _ & _ & Hr & _) Hl.
  rewrite Hr, locate_app in Hl.
  destruct (os.locate (os.resolve w directory) (root w)) as [e|n] eqn:E;
    [discriminate|].
  exists n. split; [|assumption]. now rewrite (lookup_path_locate _ _ Hd).
Qed.

(** X13.  The options only widen the enumeration.  Whatever [iter_files]
    yields is still yielded when [recursive] or [include_hidden] is turned
    on. *)
Theorem options_only_widen_the_enumeration
    (w : World) (directory : string)
    (recursive include_hidden recursive' include_hidden' : bool)
    (files files' : list string) :
  wf_world w = true ->
  (recursive = true -> recursive' = true) ->
  (include_hidden = true -> include_hidden' = true) ->
  iter_files w directory recursive include_hidden = inr files ->
  iter_files w directory recursive' include_hidden' = inr files' ->
  incl files files'.
Proof.
  intros Hw Hrec Hhid Hf Hf' p Hp.
  pose proof (iter_files_dir _ _ _ _ _ _ Hf Hp) as Hd.
  assert (Hh' : include_hidden' = false -> include_hidden = false).
  { intros E. destruct include_hidden; [|reflexivity].
    rewrite (Hhid eq_refl) in E. discriminate. }
  destruct recursive.
  - rewrite (Hrec eq_refl) in Hf'.
    destruct (iter_files_walk_sound _ _ _ _ _ Hw Hf Hp) as (rel & Hb & Hh).
    pose proof Hb as (Hne & _ & -> & _ & _ & c & Hl & Hc).
    destruct (below_locate _ _ _ _ _ Hd Hb Hl) as (n & Hn & Hln).
    eapply iter_files_walk_complete; eauto.
  - destruct (iter_files_flat_sound _ _ _ _ _ Hw Hf Hp)
      as (name & tc & imm & Hb & Hl & Hh).
    destruct (below_locate _ _ _ _ _ Hd Hb Hl) as (n & Hn & Hln).
    pose proof Hb as (_ & _ & -> & _).
    destruct recursive'.
    + apply (iter_files_walk_complete w directory include_hidden' files' n
               [name] (File tc imm)); try assumption;
        [discriminate | reflexivity |].
      intros E. constructor; [auto | constructor].
    + cbn [os.locate] in Hln. destruct n as [| | |t es]; try discriminate.
      destruct (os.lookup name es) as [c|] eqn:L; [|discriminate].
      injection Hln as ->.
      apply (iter_files_flat_complete w directory include_hidden' files' t es
               name tc imm); auto.
Qed.

Lemma options_only_widen_the_enumeration_witness :
  incl ["data/a.txt"; "data/b.txt"; "data/c.txt"; "data/remove_old_files.py";
        "data/README.md"]
       ["data/a.txt"; "data/b.txt"; "data/c.txt"; "data/remove_old_files.py";
        "data/README.md"; "data/sub/old2.txt"; "data/sub/README.md";
        "data/sub/.hidden/old.txt"].
Proof.
  apply (options_only_widen_the_enumeration demo "data" false false true true).
  - evaluate.
  - reflexivity.
  - reflexivity.
  - evaluate.
  - evaluate.
Defined.

Section SourceFacts.

Variables (cutoff : Q) (excluded : list string).
Variables (dry_run verbose : bool) (source1 source2 : string).
Variable w0 : World.

Hypothesis same_timestamps : forall w p,
  same_env w0 w ->
  get_timestamp w p source1 = get_timestamp w p source2.

Lemma relabelled_print l s1 s2 :
  relabelled source2 s1 s2 ->
  relabelled source2 (print l s1) (print (with_source source2 l) s2).
Proof.
  intros (H1 & H2 & H3 & H4 & H5). repeat split; try assumption.
  cbn [print out]. now rewrite map_app, H5.
Qed.

Lemma loop_body_relabelled s1 s2 p :
  same_env w0 (world s1) -> relabelled source2 s1 s2 ->
  let a := loop_body cutoff excluded dry_run verbose source1 s1 p in
  let b := loop_body cutoff excluded dry_run verbose source2 s2 p in
  same_env w0 (world (fst a))
  /\ relabelled source2 (fst a) (fst b) /\ snd a = snd b.
Proof.
  intros Hrun R a b. subst a b. pose proof R as (H1 & H2 & H3 & H4 & H5).
  assert (Rc : relabelled source2 (incr_considered s1) (incr_considered s2)).
  { repeat split; cbn; congruence. }
  unfold loop_body. cbv zeta.
  change (world (incr_considered s1)) with (world s1).
  change (world (incr_considered s2)) with (world s2).
  rewrite H1, <- (same_timestamps (world s1) p Hrun).
  destruct (mem (posixpath.normpath p) excluded).
  { assert (Rs : relabelled source2
                   (incr_skipped_excluded (incr_considered s1))
                   (incr_skipped_excluded (incr_considered s2))).
    { repeat split; cbn; congruence. }
    destruct verbose; cbn [fst snd];
      (split; [exact Hrun|]); repeat split; try assumption;
      try apply Rs.
    apply (relabelled_print (Skip_excluded p) _ _ Rs). }
  destruct (get_timestamp (world s1) p source1) as [e|ts].
  { destruct (is_FileNotFoundError e), verbose; cbn [fst snd];
      (split; [exact Hrun|]); repeat split; try assumption; try apply Rc.
    apply (relabelled_print (Missing_skipped p) _ _ Rc). }
  destruct (if verbose then dates_error (world s1) ts cutoff else None).
  { cbn [fst snd]. split; [exact Hrun|]. split; [exact Rc | reflexivity]. }
  set (k1 := if verbose
             then print (Check_line p ts cutoff source1) (incr_considered s1)
             else incr_considered s1).
  set (k2 := if verbose
             then print (Check_line p ts cutoff source2) (incr_considered s2)
             else incr_considered s2).
  assert (Rk : relabelled source2 k1 k2).
  { subst k1 k2. destruct verbose; [|exact Rc].
    apply (relabelled_print (Check_line p ts cutoff source1) _ _ Rc). }
  assert (Wk : world k1 = world s1) by (subst k1; now destruct verbose).
  pose proof Rk as (K1 & K2 & K3 & K4 & K5).
  destruct (Qltb ts cutoff); [|cbn [fst snd]; rewrite Wk; auto].
  destruct dry_run.
  { cbn [fst snd incr_removed print world]. rewrite Wk.
    split; [assumption|]. split; [|reflexivity].
    pose proof (relabelled_print (Would_remove p) _ _ Rk)
      as (C1 & C2 & C3 & C4 & C5).
    repeat split; cbn in *; congruence. }
  rewrite K1.
  destruct (os.remove (world k1) p) as [e|w'] eqn:Hr; cbn [fst snd].
  - cbn [print world]. rewrite Wk.
    split; [assumption|]. split; [|reflexivity].
    apply (relabelled_print (Could_not_remove p e) _ _ Rk).
  - split; [|split; [|reflexivity]].
    + cbn. destruct (remove_effect _ _ _ Hr) as (Er & _).
      rewrite Wk in Er. eapply same_env_trans; eassumption.
    + assert (Rw : relabelled source2 (set_world w' k1) (set_world w' k2)).
      { repeat split; cbn; congruence. }
      pose proof (relabelled_print (Removed_line p) _ _ Rw)
        as (C1 & C2 & C3 & C4 & C5).
      repeat split; cbn in *; congruence.
Qed.

Lemma loop_relabelled files : forall s1 s2,
  same_env w0 (world s1) -> relabelled source2 s1 s2 ->
  let a := loop cutoff excluded dry_run verbose source1 s1 files in
  let b := loop cutoff excluded dry_run verbose source2 s2 files in
  relabelled source2 (fst a) (fst b) /\ snd a = snd b.
Proof.
  induction files as [|p files IH]; intros s1 s2 Hrun R; cbn [loop].
  - now split.
  - destruct (loop_body_relabelled s1 s2 p Hrun R) as (Hrun1 & R1 & E).
    destruct (loop_body cutoff excluded dry_run verbose source1 s1 p)
      as [a1 ra].
    destruct (loop_body cutoff excluded dry_run verbose source2 s2 p)
      as [b1 rb].
    cbn [fst snd] in *. subst rb. destruct ra as [e|]; [now split|].
    now apply IH.
Qed.

End SourceFacts.

Lemma sweep_relabelled
    (w : World) (directory : string) (exclude_filenames : list string)
    (days : Z) (dry_run verbose recursive include_hidden : bool)
    (source1 source2 : string) :
  (forall w' p, same_env w w' ->
                get_timestamp w' p source1 = get_timestamp w' p source2) ->
  let a := remove_old_files w directory exclude_filenames days dry_run
             verbose recursive include_hidden source1 in
  let b := remove_old_files w directory exclude_filenames days dry_run
             verbose recursive include_hidden source2 in
  relabelled source2 (fst a) (fst b) /\ snd a = snd b.
Proof.
  intros Hsame. unfold remove_old_files.
  destruct (cutoff_of w days) as [e|cutoff].
  { cbn. repeat split; reflexivity. }
  destruct (iter_files w directory recursive include_hidden) as [e|files].
  { cbn. repeat split; reflexivity. }
  cbv zeta.
  assert (R0 : relabelled source2 (initial w) (initial w))
    by (repeat split; reflexivity).
  destruct (loop_relabelled cutoff
              (excluded_of directory exclude_filenames) dry_run verbose
              source1 source2 w Hsame files (initial w)
              (initial w) (same_env_refl w) R0)
    as [R E].
  destruct (loop _ _ dry_run verbose source1 (initial w) files) as [a1 ra].
  destruct (loop _ _ dry_run verbose source2 (initial w) files) as [b1 rb].
  cbn [fst snd] in R, E. subst rb. destruct ra as [e|]; [now split|].
  cbn [fst snd]. split; [|reflexivity].
  destruct R as (C1 & C2 & C3 & C4 & C5).
  repeat split; cbn [print world removed considered skipped_excluded out];
    try assumption.
  rewrite map_app, C5. cbn [map with_source]. now rewrite C2, C3, C4.
Qed.

(** X14.  Outside a repository the [git] sweep is the [mtime] sweep.  When
    [git_last_commit_timestamp] has no answer for any path (the tool fails,
    prints nothing usable, or cannot be run), a sweep with age source
    ["git"] leaves the same file system, the same counters and the same
    exception as the sweep with ["mtime"], and prints the same lines but
    for the source they name. *)
Theorem git_sweep_without_git_is_the_mtime_sweep
    (w : World) (directory : string) (exclude_filenames : list string)
    (days : Z) (dry_run verbose recursive include_hidden : bool) :
  (forall path, git_last_commit_timestamp w path = None) ->
  let by_git := remove_old_files w directory exclude_filenames days dry_run
                  verbose recursive include_hidden "git" in
  let by_mtime := remove_old_files w directory exclude_filenames days dry_run
                    verbose recursive include_hidden "mtime" in
  world (fst by_mtime) = world (fst by_git)
  /\ removed (fst by_mtime) = removed (fst by_git)
  /\ considered (fst by_mtime) = considered (fst by_git)
  /\ skipped_excluded (fst by_mtime) = skipped_excluded (fst by_git)
  /\ out (fst by_mtime) = map (with_source "mtime") (out (fst by_git))
  /\ snd by_mtime = snd by_git.
Proof.
  intros Hgit by_git by_mtime.
  destruct (sweep_relabelled w directory exclude_filenames days dry_run
              verbose recursive include_hidden "git" "mtime") as [R E].
  - intros w' p Henv. unfold get_timestamp. cbn [String.eqb Ascii.eqb Bool.eqb].
    now rewrite <- (git_same w w' p Henv), Hgit.
  - destruct R as (C1 & C2 & C3 & C4 & C5). subst by_git by_mtime.
    repeat split; try assumption. now symmetry.
Qed.

Lemma git_sweep_without_git_is_the_mtime_sweep_witness :
  let by_git := remove_old_files no_git "data" [] 30 false true false false
                  "git" in
  let by_mtime := remove_old_files no_git "data" [] 30 false true false false
                    "mtime" in
  world (fst by_mtime) = world (fst by_git)
  /\ removed (fst by_mtime) = removed (fst by_git)
  /\ considered (fst by_mtime) = considered (fst by_git)
  /\ skipped_excluded (fst by_mtime) = skipped_excluded (fst by_git)
  /\ out (fst by_mtime) = map (with_source "mtime") (out (fst by_git))
  /\ snd by_mtime = snd by_git.
Proof.
  apply (git_sweep_without_git_is_the_mtime_sweep no_git "data" [] 30 false
           true false false).
  intros path. evaluate.
Defined.

(** X15.  The sweep is confined to [directory].  An entry that is not a
    directory and does not lie below [directory] is, after the sweep, what
    it was before; and so is, unless [include_hidden] is set, an entry below
    [directory] that lies behind a name that starts with a dot. *)
Theorem sweep_is_confined
    (w : World) (directory : string) (exclude_filenames : list string)
    (days : Z) (dry_run verbose recursive include_hidden : bool)
    (age_source : string) (s : state) (r : option exn) (q : string) :
  wf_world w = true ->
  remove_old_files w directory exclude_filenames days dry_run verbose
    recursive include_hidden age_source = (s, r) ->
  leaf w q ->
  (forall rel, os.resolve w q <> os.resolve w directory ++ rel)
  \/ (include_hidden = false
      /\ exists rel,
           os.resolve w q = os.resolve w directory ++ rel
           /\ existsb (Str.startswith ".") rel = true) ->
  os.lookup_path (world s) q = os.lookup_path w q.
Proof.
  intros Hw Hs Hq Hout.
  destruct (cutoff_of w days) as [e|cutoff] eqn:Hc.
  { rewrite (sweep_overflow _ _ _ _ _ _ _ _ _ _ Hc) in Hs.
    now injection Hs as <- _. }
  destruct (iter_files w directory recursive include_hidden) as [e|files]
    eqn:Hf.
  { unfold remove_old_files in Hs. rewrite Hc, Hf in Hs.
    now injection Hs as <- _. }
  apply (sweep_keeps Hw Hf Hs Hc q Hq).
  intros p Hp Hres _. apply consumed_incl in Hp.
  destruct (iter_files_below _ _ _ _ _ _ Hw Hf Hp)
    as (rel & (_ & _ & _ & Hr & _) & Hd).
  rewrite Hr in Hres.
  destruct Hout as [Hout | (Hh & rel' & Hq' & Hdot)].
  - now apply (Hout rel).
  - rewrite Hq' in Hres. apply app_inv_head in Hres. subst rel'.
    specialize (Hd Hh). apply existsb_false_Forall in Hd. congruence.
Qed.

Lemma sweep_is_confined_witness :
  let result := remove_old_files demo "data" [] 30 false false true false
                  "mtime" in
  os.lookup_path (world (fst result)) "data/sub/.hidden/old.txt"
  = os.lookup_path demo "data/sub/.hidden/old.txt".
Proof.
  intros result.
  apply (sweep_is_confined demo "data" [] 30 false false true false "mtime"
           (fst result) (snd result) "data/sub/.hidden/old.txt").
  - evaluate.
  - evaluate.
  - split; [discriminate|]. eexists. split; evaluate.
  - right. split; [reflexivity|].
    exists ["sub"; ".hidden"; "old.txt"]. split; evaluate.
Defined.

Section NoDupFacts.

Import os.

Lemma NoDup_append {A} (l1 l2 : list A) :
  NoDup l1 -> NoDup l2 -> (forall x, In x l1 -> ~ In x l2) ->
  NoDup (l1 ++ l2).
Proof.
  induction l1 as [|a l1 IH]; intros H1 H2 Hd; [assumption|].
  inversion H1; subst. cbn [app]. constructor.
  - rewrite in_app_iff. intros [H | H]; [contradiction|].
    apply (Hd a); [now left | assumption].
  - apply IH; try assumption. intros x Hx. apply Hd. now right.
Qed.

Lemma NoDup_flat_map_sel {A B} (f : A -> list B) (h : A -> B) (l : list A) :
  (forall x, f x = [] \/ f x = [h x]) -> NoDup l ->
  (forall x y, In x l -> In y l -> h x = h y -> x = y) ->
  NoDup (flat_map f l).
Proof.
  intros Hf. induction l as [|a l IH]; intros Hl Hinj; [constructor|].
  inversion Hl; subst. cbn [flat_map].
  assert (IH' : NoDup (flat_map f l)).
  { apply IH; [assumption|]. intros x y Hx Hy. apply Hinj; now right. }
  destruct (Hf a) as [-> | ->]; [exact IH'|].
  cbn [app]. constructor; [|exact IH'].
  intros Hin. apply in_flat_map in Hin as (y & Hy & Hin).
  destruct (Hf y) as [E | E]; rewrite E in Hin; [contradiction|].
  destruct Hin as [Hin | []].
  assert (a = y) by (apply Hinj; [now left | now right | now symmetry]).
  now subst.
Qed.

Lemma nodupb_NoDup l : nodupb l = true -> NoDup l.
Proof.
  induction l as [|x l IH]; [constructor|]. cbn [nodupb].
  rewrite andb_true_iff, negb_true_iff, mem_false_iff.
  intros [H1 H2]. constructor; auto.
Qed.

Lemma NoDup_names_where f es :
  NoDup (map fst es) -> NoDup (names_where f es).
Proof.
  unfold names_where. induction es as [|[k c] es IH]; [constructor|].
  cbn [map fst filter snd]. intros H. inversion H; subst.
  destruct (f c); [|auto]. cbn [map fst]. constructor; [|auto].
  intros Hin. apply in_map_iff in Hin as ([k' c'] & E & Hin).
  cbn in E. subst k'. apply filter_In in Hin as [Hin _].
  match goal with Hn : ~ In k _ |- _ => apply Hn end.
  apply in_map_iff. now exists (k, c').
Qed.

(** [join_all] from a fixed start tells chains of entry names apart. *)
Lemma join_all_inj top r1 r2 :
  top <> "" ->
  Forall (fun s => valid_name s = true) r1 ->
  Forall (fun s => valid_name s = true) r2 ->
  join_all top r1 = join_all top r2 -> r1 = r2.
Proof.
  intros Ht H1 H2 E.
  pose proof (parts_join_all "/" r1 top eq_refl Ht H1) as P1.
  pose proof (parts_join_all "/" r2 top eq_refl Ht H2) as P2.
  rewrite E, P2 in P1. now apply app_inv_head in P1.
Qed.

Section Walk.

Variable prune : list string -> list string.
Variable hide : string -> bool.

(** What the loop of [iter_files] yields for one triple of the walk. *)
Local Abbreviation yield :=
  (fun tr : string * list string * list string =>
     let '(root, dirs, files) := tr in
     flat_map (fun name =>
                 let p := posixpath.join root name in
                 if hide p then [] else [p]) files).

Lemma walk_elements n top p :
  wf n = true ->
  In p (flat_map yield (walk_from prune top n)) ->
  exists rel,
    rel <> [] /\ Forall (fun s => valid_name s = true) rel
    /\ p = join_all top rel.
Proof.
  intros Hn Hp. apply in_flat_map in Hp as ([[r ds] fs] & Htr & Hp).
  apply in_flat_map in Hp as (name & Hname & Hp).
  apply (walk_from_sound prune (fun _ => True)) in Htr;
    [|auto|assumption].
  destruct Htr as (rel & t & es & -> & Hl & -> & Hv & _).
  apply names_where_In in Hname as (c & Hin & _).
  pose proof (wf_locate _ _ _ Hn Hl) as Hd.
  apply wf_Dir in Hd as (Hvn & _ & _).
  cbv zeta in Hp. destruct (hide _); [contradiction|].
  destruct Hp as [<- | []].
  exists (rel ++ [name]). split; [now destruct rel|]. split.
  - apply Forall_app. split; [assumption|]. constructor; [|constructor].
    rewrite Forall_forall in Hvn. apply Hvn, in_map_iff.
    now exists (name, c).
  - now rewrite join_all_snoc.
Qed.

(** The walk yields no path twice. *)
Lemma walk_NoDup : forall n top,
  wf n = true -> top <> "" ->
  NoDup (flat_map yield (walk_from prune top n)).
Proof.
  induction n as [| | |t es IH] using node_induction;
    intros top Hn Ht; try constructor.
  pose proof (wf_Dir _ _ Hn) as (Hv & Hnd & Hc).
  apply nodupb_NoDup in Hnd.
  rewrite Forall_forall in IH, Hv.
  cbn [walk_from flat_map].
  set (dirs := names_where is_dir es).
  set (nondirs := names_where (fun c => negb (is_dir c)) es).
  assert (Hvalid : forall name, In name nondirs -> valid_name name = true).
  { intros name Hin. apply names_where_In in Hin as (c & Hin & _).
    apply Hv, in_map_iff. now exists (name, c). }
  match goal with
  | |- NoDup (_ ++ flat_map _ (?descend es)) =>
      assert (G : forall l,
                 (forall k c, In (k, c) l -> In (k, c) es) ->
                 NoDup (map fst l) ->
                 NoDup (flat_map yield (descend l))
                 /\ forall p, In p (flat_map yield (descend l)) ->
                      exists k rel,
                        In k (map fst l) /\ rel <> []
                        /\ Forall (fun s => valid_name s = true) (k :: rel)
                        /\ p = join_all top (k :: rel))
  end.
  { induction l as [|[k c] l IHl]; intros Hsub Hl.
    { split; [constructor | intros p []]. }
    inversion Hl as [|? ? Hk Hl']; subst.
    destruct IHl as [N Elts];
      [intros k' c' H; apply Hsub; now right | assumption |].
    assert (Hin : In (k, c) es) by (apply Hsub; now left).
    assert (Hvk : valid_name k = true)
      by (apply Hv, in_map_iff; now exists (k, c)).
    rewrite flat_map_app.
    set (X := if is_dir c && existsb (String.eqb k) (prune dirs)
              then walk_from prune (posixpath.join top k) c else []).
    assert (EX : forall p, In p (flat_map yield X) ->
                   exists rel,
                     rel <> []
                     /\ Forall (fun s => valid_name s = true) (k :: rel)
                     /\ p = join_all top (k :: rel)).
    { intros p Hp. subst X.
      destruct (is_dir c && existsb (String.eqb k) (prune dirs));
        [|contradiction].
      apply walk_elements in Hp as (rel & Hne & Hvr & ->);
        [|eapply Hc, Hin].
      exists rel. split; [assumption|]. split; [now constructor|].
      reflexivity. }
    split.
    - apply NoDup_append; [| exact N |].
      + subst X.
        destruct (is_dir c && existsb (String.eqb k) (prune dirs));
          [|constructor].
        apply (IH (k, c) Hin); [eapply Hc, Hin|].
        now apply join_not_nil.
      + intros p Hp Hq.
        destruct (EX p Hp) as (rel & _ & Hvr & ->).
        destruct (Elts _ Hq) as (k' & rel' & Hk' & _ & Hvr' & E).
        apply join_all_inj in E; try assumption.
        injection E as -> _. contradiction.
    - intros p Hp. apply in_app_or in Hp as [Hp | Hp].
      + destruct (EX p Hp) as (rel & Hne & Hvr & ->).
        exists k, rel. split; [now left | auto].
      + destruct (Elts p Hp) as (k' & rel' & Hk' & H').
        exists k', rel'. split; [now right | assumption]. }
  destruct (G es (fun k c H => H) Hnd) as [N Elts].
  apply NoDup_append; [| exact N |].
  - apply (NoDup_flat_map_sel _ (posixpath.join top)).
    + intros name. cbv zeta. destruct (hide _); auto.
    + now apply NoDup_names_where.
    + intros a b Ha Hb E.
      assert (E' : [a] = [b]); [|now injection E'].
      apply (join_all_inj top); try assumption;
        constructor; auto using Forall_nil.
  - intros p Hp Hq. apply in_flat_map in Hp as (name & Hname & Hp).
    cbv zeta in Hp. destruct (hide _); [contradiction|].
    destruct Hp as [<- | []].
    destruct (Elts _ Hq) as (k & rel & _ & Hne & Hvr & E).
    apply (join_all_inj top [name] (k :: rel)) in E; try assumption.
    + injection E as _ <-. now apply Hne.
    + constructor; auto using Forall_nil.
Qed.

End Walk.

End NoDupFacts.

(** On a well-formed tree the enumeration yields no path twice. *)
Lemma iter_files_NoDup
    (w : World) (directory : string) (recursive include_hidden : bool)
    (files : list string) :
  wf_world w = true ->
  iter_files w directory recursive include_hidden = inr files ->
  NoDup files.
Proof.
  intros Hw Hf.
  pose proof (wf_world_inv _ Hw) as [Hroot Hcwd].
  destruct files as [|p0 files0] eqn:Efiles; [constructor|].
  rewrite <- Efiles in *.
  assert (Hd : directory <> "").
  { apply (iter_files_dir _ _ _ _ _ p0 Hf). rewrite Efiles. now left. }
  clear Efiles p0 files0.
  unfold iter_files in Hf. destruct recursive; cbn [negb] in Hf.
  - injection Hf as <-. unfold os.walk.
    destruct (os.lookup_path w directory) as [e|n] eqn:L; [constructor|].
    apply lookup_path_inr in L as [_ L].
    apply (walk_NoDup _ (fun p => negb include_hidden
                                  && is_hidden w directory p));
      [|assumption].
    eapply wf_locate; eassumption.
  - unfold os.listdir in Hf.
    destruct (os.lookup_path w directory) as [e|[| | |t es]] eqn:L;
      try discriminate.
    injection Hf as <-.
    apply lookup_path_inr in L as [_ L].
    pose proof (wf_locate _ _ _ Hroot L) as Hdir.
    apply wf_Dir in Hdir as (Hv & Hn & _).
    apply (NoDup_flat_map_sel _ (posixpath.join directory)).
    + intros name. cbv zeta.
      destruct (genericpath.isfile w _); [|auto].
      destruct (negb include_hidden && is_hidden w directory _); auto.
    + now apply nodupb_NoDup.
    + intros a b Ha Hb E. rewrite Forall_forall in Hv.
      assert (E' : [a] = [b]); [|now injection E'].
      apply (join_all_inj directory); try assumption;
        constructor; auto using Forall_nil.
Qed.

Section CountFacts.

Variables (cutoff : Q) (excluded : list string).
Variables (verbose : bool) (age_source : string).

(** In a sweep that is not a dry run, an iteration raises [removed]
    exactly when it prints "Removed". *)
Lemma loop_body_real s p s' r :
  loop_body cutoff excluded false verbose age_source s p = (s', r) ->
  (removed s' = (removed s + 1)%Z
   /\ removed_paths (out s') = removed_paths (out s) ++ [p])
  \/ (removed s' = removed s
      /\ removed_paths (out s') = removed_paths (out s)).
Proof.
  unfold loop_body.
  destruct (mem (posixpath.normpath p) excluded).
  { intros [= <- <-]. right.
    destruct verbose; cbn; rewrite ?removed_paths_app; cbn;
      now rewrite ?app_nil_r. }
  destruct (get_timestamp _ p age_source) as [e|ts].
  { intros H. right.
    destruct (is_FileNotFoundError e); injection H as <- <-;
      destruct verbose; cbn; rewrite ?removed_paths_app; cbn;
      now rewrite ?app_nil_r. }
  destruct (if verbose then dates_error _ ts cutoff else None).
  { intros [= <- <-]. right. now split. }
  destruct (Qltb ts cutoff).
  2:{ intros [= <- <-]. right.
      destruct verbose; cbn; rewrite ?removed_paths_app; cbn;
        now rewrite ?app_nil_r. }
  destruct (os.remove _ p) as [e|w'].
  - intros [= <- <-]. right.
    destruct verbose; cbn; rewrite ?removed_paths_app; cbn;
      now rewrite ?app_nil_r.
  - intros [= <- <-]. left.
    destruct verbose; cbn; rewrite ?removed_paths_app; cbn;
      now rewrite ?app_nil_r.
Qed.

Lemma loop_real files : forall s s' r,
  loop cutoff excluded false verbose age_source s files = (s', r) ->
  NoDup (removed_paths (out s) ++ files) ->
  NoDup (removed_paths (out s'))
  /\ (removed s' - Z.of_nat (List.length (removed_paths (out s')))
      = removed s - Z.of_nat (List.length (removed_paths (out s))))%Z.
Proof.
  induction files as [|p files IH]; intros s s' r H N; simpl in H.
  - injection H as <- <-. rewrite app_nil_r in N. split; [assumption|lia].
  - destruct (loop_body cutoff excluded false verbose age_source s p)
      as [s1 r1] eqn:B.
    assert (Step : NoDup (removed_paths (out s1) ++ files)
                   /\ (removed s1
                       - Z.of_nat (List.length (removed_paths (out s1)))
                       = removed s
                         - Z.of_nat (List.length (removed_paths (out s))))%Z).
    { destruct (loop_body_real _ _ _ _ B) as [[Hr ->] | [Hr ->]].
      - rewrite <- app_assoc. cbn [app]. split; [assumption|].
        rewrite length_app. cbn [List.length]. lia.
      - split; [|lia]. apply NoDup_remove_1 in N. exact N. }
    destruct Step as [N1 C1].
    destruct r1 as [e|].
    + injection H as <- <-. split; [|assumption].
      apply NoDup_app_remove_r in N1. exact N1.
    + destruct (IH _ _ _ H N1) as [N2 C2]. split; [assumption|lia].
Qed.

End CountFacts.

(** X16.  No path is handled twice.  On a well-formed tree the paths
    [iter_files] yields are pairwise distinct, recursive or not; so the loop
    of [remove_old_files] meets every candidate once, and in a sweep that is
    not a dry run no path is reported as removed twice. *)
Theorem no_path_is_handled_twice
    (w : World) (directory : string) (recursive include_hidden : bool)
    (files : list string) :
  wf_world w = true ->
  iter_files w directory recursive include_hidden = inr files ->
  NoDup files
  /\ forall exclude_filenames days verbose age_source s r,
       remove_old_files w directory exclude_filenames days false verbose
         recursive include_hidden age_source = (s, r) ->
       NoDup (removed_paths (out s)).
Proof.
  intros Hw Hf.
  pose proof (iter_files_NoDup _ _ _ _ _ Hw Hf) as Nf.
  split; [exact Nf|].
  intros exclude_filenames days verbose age_source s r Hs.
  destruct (cutoff_of w days) as [e|cutoff] eqn:Hc.
  { rewrite (sweep_overflow _ _ _ _ _ _ _ _ _ _ Hc) in Hs.
    injection Hs as <- _. constructor. }
  destruct (sweep_loop Hf Hs Hc) as (s1 & Hl & _).
  assert (Ho : removed_paths (out s) = removed_paths (out s1)).
  { unfold remove_old_files in Hs. rewrite Hc, Hf in Hs. cbv zeta in Hs.
    rewrite Hl in Hs. destruct r; injection Hs as <-; [reflexivity|].
    cbn [print out]. rewrite removed_paths_app. cbn. now rewrite app_nil_r. }
  rewrite Ho.
  now destruct (loop_real _ _ _ _ _ _ _ _ Hl Nf).
Qed.

Lemma no_path_is_handled_twice_witness :
  let files := ["data/a.txt"; "data/b.txt"; "data/c.txt";
                "data/remove_old_files.py"; "data/README.md";
                "data/sub/old2.txt"; "data/sub/README.md"] in
  NoDup files
  /\ forall exclude_filenames days verbose age_source s r,
       remove_old_files demo "data" exclude_filenames days false verbose
         true false age_source = (s, r) ->
       NoDup (removed_paths (out s)).
Proof.
  apply (no_path_is_handled_twice demo "data" true false); evaluate.
Defined.

(** X17.  [removed] counts the entries that vanished.  In a sweep that is
    not a dry run, over a well-formed tree, the final [removed] is the
    number of enumerated paths at which an entry was found before the sweep
    and none is found after it, whether the sweep returns or raises. *)
Theorem removed_counts_the_vanished
    (w : World) (directory : string) (exclude_filenames : list string)
    (days : Z) (verbose recursive include_hidden : bool)
    (age_source : string) (files : list string) (s : state) (r : option exn) :
  wf_world w = true ->
  iter_files w directory recursive include_hidden = inr files ->
  remove_old_files w directory exclude_filenames days false verbose
    recursive include_hidden age_source = (s, r) ->
  removed s
  = Z.of_nat (List.length (filter (vanished w (world s)) files)).
Proof.
  intros Hw Hf Hs.
  pose proof (iter_files_NoDup _ _ _ _ _ Hw Hf) as Nf.
  destruct (cutoff_of w days) as [e|cutoff] eqn:Hc.
  { rewrite (sweep_overflow _ _ _ _ _ _ _ _ _ _ Hc) in Hs.
    injection Hs as <- _. cbn [initial world removed].
    rewrite filter_none; [reflexivity|].
    intros p _. unfold vanished. apply andb_negb_r. }
  destruct (sweep_loop Hf Hs Hc) as (s1 & Hl & Hws & Hrs & _).
  assert (Ho : removed_paths (out s) = removed_paths (out s1)).
  { unfold remove_old_files in Hs. rewrite Hc, Hf in Hs. cbv zeta in Hs.
    rewrite Hl in Hs. destruct r; injection Hs as <-; [reflexivity|].
    cbn [print out]. rewrite removed_paths_app. cbn. now rewrite app_nil_r. }
  destruct (loop_real _ _ _ _ _ _ _ _ Hl) as [N C]; [exact Nf|].
  cbn [initial out removed removed_paths flat_map List.length] in C.
  rewrite <- Ho in N, C.
  pose proof (sweep_invariant Hw Hf Hs Hc) as (_ & _ & B & Gone).
  assert (Same : forall p, In p (removed_paths (out s))
                           <-> In p (filter (vanished w (world s)) files)).
  { intros p.
    rewrite (sweep_log _ _ _ _ _ _ _ _ _ _ _ _ _ p Hw Hf Hs Hc), filter_In.
    unfold vanished, lexists. split.
    - intros [Hp Hd]. rewrite (Gone p Hp Hd).
      split; [eapply consumed_incl, Hp|].
      assert (Hok : exists w', os.remove w p = inr w').
      { destruct Hd as (_ & _ & ts & w' & _ & _ & Hr & _). eauto. }
      apply remove_ok_iff in Hok as (_ & c & -> & _). reflexivity.
    - intros [Hp Hv].
      pose proof (files_are_leaves Hw Hf p Hp) as Hleaf.
      destruct (B p Hleaf) as [L | (_ & q & Hq & Hres & Hdq)].
      + rewrite L in Hv. destruct (os.lookup_path w p); discriminate.
      + pose proof (consumed_incl _ _ _ _ _ _ _ _ Hq) as Hq'.
        rewrite (files_resolve_inj Hw Hf _ _ Hq' Hp Hres) in Hq, Hdq.
        auto. }
  assert (Len : List.length (removed_paths (out s))
                = List.length (filter (vanished w (world s)) files)).
  { apply Nat.le_antisymm; apply NoDup_incl_length.
    - exact N.
    - intros p. apply Same.
    - apply NoDup_filter. exact Nf.
    - intros p. apply Same. }
  rewrite <- Len, Hrs. lia.
Qed.

Lemma removed_counts_the_vanished_witness :
  let result := remove_old_files locked "data" [] 30 false false false false
                  "mtime" in
  removed (fst result) = 1%Z
  /\ filter (vanished locked (world (fst result)))
       ["data/a.txt"; "data/keep.log"] = ["data/a.txt"]
  /\ removed (fst result)
     = Z.of_nat (List.length
                   (filter (vanished locked (world (fst result)))
                      ["data/a.txt"; "data/keep.log"])).
Proof.
  intros result. split; [evaluate|]. split; [evaluate|].
  apply (removed_counts_the_vanished locked "data" [] 30 false false false
           "mtime" ["data/a.txt"; "data/keep.log"] (fst result) (snd result));
    evaluate.
Defined.

